(** * EwaldMP reference blocks: a shallow embedding of [EwladMPRef.py]

    The module defines two [torch.nn.Module] classes, [EwaldBlock] and
    [HadamardBlock].  Their [forward] methods are straight-line tensor
    programs; this file embeds them as functions over shaped nested lists
    and proves the properties the specification states about them.

    The file is an annotated copy of the reference implementation: the
    explanatory strings placed inside the parameter list of
    [EwaldBlock.__init__] and before the body of [get_mlp] are read as
    commentary.

    Scalars are kept abstract (class [Scalar]): every theorem that does not
    list an arithmetic law among its hypotheses holds for any deterministic
    scalar arithmetic, rounding included.  Reductions ([torch.sum],
    [index_add_], [scatter]) accumulate from zero in index order.

    The layers are collaborators.  [call_layer] runs a layer row by row;
    the theorems that compare batches of different sizes leave the call of
    a layer open and name what they need of it. *)

From Stdlib Require Import Floats.PrimFloat.
From Stdlib Require Import String.
From Stdlib Require Import List Arith Bool ZArith Lia Permutation.
Import ListNotations.

Set Implicit Arguments.

(** ** Scalars *)

Class Scalar (F : Type) : Type := {
  fzero : F;
  fone : F;
  fadd : F -> F -> F;
  fmul : F -> F -> F;
  fcos : F -> F;
  fsin : F -> F;
  fsinc : F -> F;
  c_half : F;       (* the literal 0.5 *)
  c_hundredth : F   (* the literal 0.01 *)
}.

(** The laws of exact arithmetic that some statements need. *)
Record ExactAdd (F : Type) `{Scalar F} : Prop := {
  fadd_comm : forall a b : F, fadd a b = fadd b a;
  fadd_assoc : forall a b c : F, fadd a (fadd b c) = fadd (fadd a b) c
}.

Record ExactSinc (F : Type) `{Scalar F} : Prop := {
  fmul_zero_r : forall a : F, fmul a fzero = fzero;
  fmul_one_one : fmul fone fone = fone;
  fsinc_zero : fsinc fzero = fone
}.

Arguments ExactAdd F {_}.
Arguments ExactSinc F {_}.

(** ** Failures raised by the tensor engine and by the interpreter *)

Inductive error : Type :=
| ShapeError
| IndexError
| TypeError
| AttributeError
| NameError (name : string).

Inductive result (A : Type) : Type :=
| Ok (a : A)
| Raise (e : error).

Arguments Ok {A} a.
Arguments Raise {A} e.

Definition rbind {A B} (r : result A) (f : A -> result B) : result B :=
  match r with
  | Ok a => f a
  | Raise e => Raise e
  end.

Notation "'let*' x ':=' c 'in' k" := (rbind c (fun x => k))
  (at level 10, x name, c at level 100, k at level 200).

Fixpoint mapM {A B} (f : A -> result B) (l : list A) : result (list B) :=
  match l with
  | [] => Ok []
  | a :: l' =>
      let* b := f a in
      let* bs := mapM f l' in
      Ok (b :: bs)
  end.

Fixpoint foldM {A B} (f : A -> B -> result A) (l : list B) (a : A) : result A :=
  match l with
  | [] => Ok a
  | b :: l' => let* a' := f a b in foldM f l' a'
  end.

(** ** Tensors

    A rank-2 tensor of shape [(length rows2, cols2)] and a rank-3 tensor of
    shape [(length slabs3, dim1, dim2)].  The trailing extents are stored
    because a tensor with no rows still has them. *)

Section Tensors.

Context {F : Type} `{Scalar F}.

Record tensor2 : Type := T2 { cols2 : nat; rows2 : list (list F) }.
Record tensor3 : Type := T3 { dim1 : nat; dim2 : nat; slabs3 : list (list (list F)) }.

Definition nrows (t : tensor2) : nat := length (rows2 t).
Definition dim0 (t : tensor3) : nat := length (slabs3 t).

Definition wf2 (t : tensor2) : Prop :=
  Forall (fun r => length r = cols2 t) (rows2 t).

Definition tab {A} (n : nat) (f : nat -> A) : list A := map f (seq 0 n).

Definition row (t : tensor2) (i : nat) : list F := nth i (rows2 t) [].
Definition get2 (t : tensor2) (i j : nat) : F := nth j (row t i) fzero.
Definition get3 (t : tensor3) (i j c : nat) : F :=
  nth c (nth j (nth i (slabs3 t) []) []) fzero.

Definition mk2 (n m : nat) (f : nat -> nat -> F) : tensor2 :=
  T2 m (tab n (fun i => tab m (f i))).

Definition mk3 (n m p : nat) (f : nat -> nat -> nat -> F) : tensor3 :=
  T3 m p (tab n (fun i => tab m (fun j => tab p (f i j)))).

(** Sum of a list, accumulated from zero in list order. *)
Definition fsum (l : list F) : F := fold_left fadd l fzero.

(** *** Broadcasting of element-wise operators *)

Definition bdim (a b : nat) : result nat :=
  if a =? b then Ok a
  else if a =? 1 then Ok b
  else if b =? 1 then Ok a
  else Raise ShapeError.

Definition bix (a i : nat) : nat := if a =? 1 then 0 else i.

Definition bop2 (f : F -> F -> F) (a b : tensor2) : result tensor2 :=
  let* r0 := bdim (nrows a) (nrows b) in
  let* r1 := bdim (cols2 a) (cols2 b) in
  Ok (mk2 r0 r1 (fun i j =>
        f (get2 a (bix (nrows a) i) (bix (cols2 a) j))
          (get2 b (bix (nrows b) i) (bix (cols2 b) j)))).

Definition bop3 (f : F -> F -> F) (a b : tensor3) : result tensor3 :=
  let* r0 := bdim (dim0 a) (dim0 b) in
  let* r1 := bdim (dim1 a) (dim1 b) in
  let* r2 := bdim (dim2 a) (dim2 b) in
  Ok (mk3 r0 r1 r2 (fun i j c =>
        f (get3 a (bix (dim0 a) i) (bix (dim1 a) j) (bix (dim2 a) c))
          (get3 b (bix (dim0 b) i) (bix (dim1 b) j) (bix (dim2 b) c)))).

(** *** Maps and scalar multiples *)

Definition map2 (f : F -> F) (t : tensor2) : tensor2 :=
  mk2 (nrows t) (cols2 t) (fun i j => f (get2 t i j)).

(* [c * t] for a Python number [c] *)
Definition smul2 (c : F) (t : tensor2) : tensor2 := map2 (fmul c) t.

(** *** Views *)

(* [t.unsqueeze(-2)] : (n, m) -> (n, 1, m) *)
Definition unsqueeze_m2 (t : tensor2) : tensor3 :=
  mk3 (nrows t) 1 (cols2 t) (fun i _ c => get2 t i c).

(* [t.unsqueeze(-1)] : (n, m) -> (n, m, 1) *)
Definition unsqueeze_m1 (t : tensor2) : tensor3 :=
  mk3 (nrows t) (cols2 t) 1 (fun i j _ => get2 t i j).

(* [t.unsqueeze(0)] : (n, m) -> (1, n, m) *)
Definition unsqueeze_0 (t : tensor2) : tensor3 :=
  mk3 1 (nrows t) (cols2 t) (fun _ j c => get2 t j c).

(* one extent of [expand]: [None] is the argument -1 *)
Definition expand_dim (have : nat) (want : option nat) : result nat :=
  match want with
  | None => Ok have
  | Some w => if have =? 1 then Ok w
              else if have =? w then Ok w
              else Raise ShapeError
  end.

Definition expand2 (t : tensor2) (s0 s1 : option nat) : result tensor2 :=
  let* r0 := expand_dim (nrows t) s0 in
  let* r1 := expand_dim (cols2 t) s1 in
  Ok (mk2 r0 r1 (fun i j => get2 t (bix (nrows t) i) (bix (cols2 t) j))).

Definition expand3 (t : tensor3) (s0 s1 s2 : option nat) : result tensor3 :=
  let* r0 := expand_dim (dim0 t) s0 in
  let* r1 := expand_dim (dim1 t) s1 in
  let* r2 := expand_dim (dim2 t) s2 in
  Ok (mk3 r0 r1 r2 (fun i j c =>
        get3 t (bix (dim0 t) i) (bix (dim1 t) j) (bix (dim2 t) c))).

(* [t[:, c].unsqueeze(-1)] : (n, m) -> (n, 1) *)
Definition column (t : tensor2) (c : nat) : result tensor2 :=
  if c <? cols2 t then Ok (mk2 (nrows t) 1 (fun i _ => get2 t i c))
  else Raise IndexError.

(* [t.T] *)
Definition transpose (t : tensor2) : tensor2 :=
  mk2 (cols2 t) (nrows t) (fun i j => get2 t j i).

(* [torch.matmul(a, b)] on matrices *)
Definition matmul (a b : tensor2) : result tensor2 :=
  if cols2 a =? nrows b then
    Ok (mk2 (nrows a) (cols2 b) (fun i j =>
          fsum (tab (cols2 a) (fun m => fmul (get2 a i m) (get2 b m j)))))
  else Raise ShapeError.

(** *** Reductions *)

(* [torch.sum(t, dim=-1)] : (n, m, p) -> (n, m) *)
Definition sum_last (t : tensor3) : tensor2 :=
  mk2 (dim0 t) (dim1 t) (fun i j => fsum (tab (dim2 t) (fun c => get3 t i j c))).

(* [torch.sum(t, dim=1)] : (n, m, p) -> (n, p) *)
Definition sum_dim1 (t : tensor3) : tensor2 :=
  mk2 (dim0 t) (dim2 t) (fun i c => fsum (tab (dim1 t) (fun j => get3 t i j c))).

(** *** Indexing along the first axis

    Index tensors hold signed integers; an entry outside [0, size) is an
    indexing failure. *)

Definition in_range (size : nat) (z : Z) : bool :=
  ((0 <=? z) && (z <? Z.of_nat size))%Z.

Definition check_indices (size : nat) (idx : list Z) : result unit :=
  if forallb (in_range size) idx then Ok tt else Raise IndexError.

Definition ix (idx : list Z) (i : nat) : nat := Z.to_nat (nth i idx 0%Z).

(* [torch.gather(k, 0, b)] with
   [b = batch_seg.view(-1, 1, 1).expand(-1, k.shape[-2], k.shape[-1])].
   [gather] reads, and checks, the entries of the expanded index; when [k]
   has no vector or no coordinate the expanded index has no entry and
   nothing is checked. *)
Definition gather_batch (k : tensor3) (batch_seg : list Z) : result tensor3 :=
  let* _ := if (dim1 k =? 0) || (dim2 k =? 0) then Ok tt
            else check_indices (dim0 k) batch_seg in
  Ok (mk3 (length batch_seg) (dim1 k) (dim2 k)
        (fun i j c => get3 k (ix batch_seg i) j c)).

(* [torch.index_select(t, 0, idx)] on a rank-3 tensor *)
Definition index_select3 (t : tensor3) (idx : list Z) : result tensor3 :=
  let* _ := check_indices (dim0 t) idx in
  Ok (mk3 (length idx) (dim1 t) (dim2 t) (fun i j c => get3 t (ix idx i) j c)).

(* [torch.index_select(t, 0, idx)] on a rank-2 tensor *)
Definition index_select2 (t : tensor2) (idx : list Z) : result tensor2 :=
  let* _ := check_indices (nrows t) idx in
  Ok (mk2 (length idx) (cols2 t) (fun i j => get2 t (ix idx i) j)).

(* the entries of [seq 0 n] that [idx] sends to [b], in order *)
Definition hits (idx : list Z) (b : nat) : list nat :=
  filter (fun i => ix idx i =? b) (seq 0 (length idx)).

(* a reordering [perm] of the positions of [idx] that keeps, for every
   [b], the order of the positions that [idx] sends to [b] *)
Definition keeps_order_per_target (perm : list nat) (idx : list Z) : Prop :=
  forall b, filter (fun i => ix idx i =? b) perm = hits idx b.

(* [new_zeros(n, m, p).index_add_(0, idx, src)]:
   slab [b] accumulates, from zero and in order, every [src[i]] with
   [idx[i] = b] *)
Definition zeros_index_add (n m p : nat) (idx : list Z) (src : tensor3)
  : result tensor3 :=
  if negb (length idx =? dim0 src) then Raise ShapeError
  else if negb ((dim1 src =? m) && (dim2 src =? p)) then Raise ShapeError
  else
    let* _ := check_indices n idx in
    Ok (mk3 n m p (fun b j c =>
          fsum (map (fun i => get3 src i j c) (hits idx b)))).

(* [scatter(src, idx, dim=0, dim_size=n, reduce="sum")] of torch_scatter:
   the index is broadcast to the shape of [src], the output is
   zero-filled with [n] rows, and row [idx[e]] accumulates [src[e]] *)
Definition scatter_sum (src : tensor2) (idx : list Z) (n : nat)
  : result tensor2 :=
  let* idx' :=
    (if length idx =? nrows src then Ok idx
     else if length idx =? 1 then Ok (repeat (nth 0 idx 0%Z) (nrows src))
     else Raise ShapeError) in
  let* _ := check_indices n idx' in
  Ok (mk2 n (cols2 src) (fun t c =>
        fsum (map (fun e => get2 src e c) (hits idx' t)))).

(** *** Concatenation and reordering along the first axis *)

(* [torch.cat([a, b], dim=0)] for tensors of equal trailing extents *)
Definition cat2 (a b : tensor2) : tensor2 :=
  T2 (cols2 a) (rows2 a ++ rows2 b).

Definition cat3 (a b : tensor3) : tensor3 :=
  T3 (dim1 a) (dim2 a) (slabs3 a ++ slabs3 b).

(* [t[perm]] for a rank-2 tensor and for an index tensor *)
Definition permute_rows (perm : list nat) (t : tensor2) : tensor2 :=
  T2 (cols2 t) (map (fun i => row t i) perm).

Definition permute_idx (perm : list nat) (idx : list Z) : list Z :=
  map (fun i => nth i idx 0%Z) perm.

(* the batch segment of [n] atoms that all belong to structure [b] *)
Definition segment (b : Z) (n : nat) : list Z := repeat b n.

(* the all-zero vector *)
Definition zero_row (n : nat) : list F := repeat fzero n.

(** *** Shapes *)

Definition shape2 (t : tensor2) (n m : nat) : Prop :=
  nrows t = n /\ cols2 t = m.

Definition shape3 (t : tensor3) (n m p : nat) : Prop :=
  dim0 t = n /\ dim1 t = m /\ dim2 t = p.

End Tensors.

Arguments tensor2 F : clear implicits.
Arguments tensor3 F : clear implicits.

(** ** Collaborators imported by the module

    [Dense], [ResidualLayer] and [ScaleFactor] are imported from another
    package; they enter as parameters with the interface the module relies
    on.  A layer maps the last axis, [(..., in_features)] to
    [(..., out_features)], row by row; a [Dense] also exposes
    [linear.weight].

    A [ScaleFactor] is called as [scale(value, ref=ref)] and returns the
    rescaled [value]: the first argument of the function below is the
    value, the second the keyword [ref].

    [HadamardBlock.__init__] names another class, [ScalingFactor], which the
    module does not import.  An instance of it is called with two
    positional tensors, [scale(x_ref, y)]: the first is the reference, the
    second is the value, which it rescales and returns. *)

Section Collaborators.

Context {F : Type} `{Scalar F}.

Record Layer : Type := {
  in_features : nat;
  out_features : nat;
  row_fn : list F -> list F
}.

Record Dense : Type := {
  dense_layer : Layer;
  linear_weight : tensor2 F
}.

Definition ScaleFactor : Type :=
  forall (value ref : tensor2 F), result (tensor2 F).

Definition ScalingFactor : Type :=
  forall (x_ref y : tensor2 F), result (tensor2 F).

(* a [ScalingFactor] asked to rescale [value] against [ref] *)
Definition rescale (sc : ScalingFactor) (value ref : tensor2 F)
  : result (tensor2 F) :=
  sc ref value.

(* [layer(t)] *)
Definition call_layer (l : Layer) (t : tensor2 F) : result (tensor2 F) :=
  if cols2 t =? in_features l then
    Ok (mk2 (nrows t) (out_features l)
          (fun i j => nth j (row_fn l (row t i)) fzero))
  else Raise ShapeError.

(* [for layer in layers: x = layer(x)] *)
Definition call_layers (ls : list Layer) (x : tensor2 F) : result (tensor2 F) :=
  foldM (fun acc l => call_layer l acc) ls x.

(** [call_layer] is a layer that maps every row on its own, whatever else
    is in the batch.  A layer as the tensor engine runs it is not bound to
    that: its kernels may round the same row differently in batches of
    different sizes.  Where a statement depends on it, the call of a layer
    is a parameter [call]. *)
Definition LayerCall : Type := Layer -> tensor2 F -> result (tensor2 F).

Definition call_layers_via (call : LayerCall) (ls : list Layer) (x : tensor2 F)
  : result (tensor2 F) :=
  foldM (fun acc l => call l acc) ls x.

(* a call maps [(n, in_features)] to a tensor [(n, out_features)] *)
Definition keeps_extents (call : LayerCall) : Prop :=
  forall l t, cols2 t = in_features l ->
    exists f, call l t = Ok (mk2 (nrows t) (out_features l) f).

(* the rows a layer returns for a batch are the rows it returns for the
   parts of the batch *)
Definition batch_independent (call : LayerCall) (l : Layer) : Prop :=
  forall a b a' b',
    call l a = Ok a' -> call l b = Ok b' ->
    call l (cat2 a b) = Ok (cat2 a' b').

End Collaborators.

Arguments Layer F : clear implicits.
Arguments Dense F : clear implicits.
Arguments ScaleFactor F : clear implicits.
Arguments ScalingFactor F : clear implicits.
Arguments LayerCall F : clear implicits.

(** ** EwaldBlock *)

Module EwaldBlock.

Section Block.

Context {F : Type} `{Scalar F}.

(* [sinc_damping] is the Python number 1 or a tensor *)
Inductive damping : Type :=
| DampScalar (c : F)
| DampTensor (t : tensor2 F).

(* the attributes of an instance; [kfilter] is assigned by [forward] *)
Record instance : Type := {
  use_pbc : bool;
  return_k_params : bool;
  delta_k : option F;
  k_rbf_values : option (tensor2 F);
  down : Dense F;
  up : Dense F;
  pre_residual : Layer F;
  ewald_layers : list (Layer F);
  ewald_scale_sum : option (ScaleFactor F);
  kfilter : option (tensor3 F)
}.

Definition set_kfilter (v : tensor3 F) (self : instance) : instance :=
  {| use_pbc := use_pbc self;
     return_k_params := return_k_params self;
     delta_k := delta_k self;
     k_rbf_values := k_rbf_values self;
     down := down self;
     up := up self;
     pre_residual := pre_residual self;
     ewald_layers := ewald_layers self;
     ewald_scale_sum := ewald_scale_sum self;
     kfilter := Some v |}.

Definition set_k_rbf_values (v : tensor2 F) (self : instance) : instance :=
  {| use_pbc := use_pbc self;
     return_k_params := return_k_params self;
     delta_k := delta_k self;
     k_rbf_values := Some v;
     down := down self;
     up := up self;
     pre_residual := pre_residual self;
     ewald_layers := ewald_layers self;
     ewald_scale_sum := ewald_scale_sum self;
     kfilter := kfilter self |}.

(** What [forward] returns. *)
Inductive retval : Type :=
| RetUpdate (h_update : tensor2 F)
| RetTriple (h_update : tensor2 F) (dot : tensor2 F) (sinc_damping : damping).

Definition h_update_of (r : retval) : tensor2 F :=
  match r with
  | RetUpdate u => u
  | RetTriple u _ _ => u
  end.

(** A method body threads the instance and may raise. *)
Definition M (A : Type) : Type := instance -> instance * result A.

Definition ret {A} (a : A) : M A := fun self => (self, Ok a).

Definition bind {A B} (m : M A) (f : A -> M B) : M B :=
  fun self =>
    match m self with
    | (self', Ok a) => f a self'
    | (self', Raise e) => (self', Raise e)
    end.

Definition lift {A} (r : result A) : M A := fun self => (self, r).

Definition getattr {A} (f : instance -> A) : M A := fun self => (self, Ok (f self)).

Definition setattr (upd : instance -> instance) : M unit :=
  fun self => (upd self, Ok tt).

Notation "x <- c ;; k" := (bind c (fun x => k))
  (at level 61, c at next level, right associativity).

(* lines 142-143 *)
Definition compute_dot (x : tensor2 F) (k : tensor3 F) (batch_seg : list Z)
  : result (tensor2 F) :=
  let* g := gather_batch k batch_seg in
  let* p := bop3 fmul g (unsqueeze_m2 x) in
  Ok (sum_last p).

(* [torch.sinc(0.5 * self.delta_k * x[:, c].unsqueeze(-1))] *)
Definition sinc_term (dk : F) (x : tensor2 F) (c : nat) : result (tensor2 F) :=
  let* xc := column x c in
  Ok (map2 fsinc (smul2 (fmul c_half dk) xc)).

(* lines 146-154 *)
Definition compute_sinc_damping (pbc : bool) (dk : option F)
    (x : tensor2 F) (k : tensor3 F) : result damping :=
  if negb pbc then
    match dk with
    | None => Raise TypeError
    | Some dk =>
        let* s0 := sinc_term dk x 0 in
        let* s1 := sinc_term dk x 1 in
        let* s01 := bop2 fmul s0 s1 in
        let* s2 := sinc_term dk x 2 in
        let* s := bop2 fmul s01 s2 in
        let* e := expand2 s None (Some (dim1 k)) in
        Ok (DampTensor e)
    end
  else Ok (DampScalar fone).

(* right-hand side of lines 158-162 *)
Definition pbc_filter (up_weight down_weight : tensor2 F) (num_batch : nat)
  : result (tensor3 F) :=
  let* m := matmul up_weight down_weight in
  expand3 (unsqueeze_0 (transpose m)) (Some num_batch) None None.

(** The methods that call a layer are written once, with the call of a
    layer as the parameter [call]; [rbf_filter], [compute_kfilter] and
    [forward] below are these methods with layers that map every row on
    its own. *)

(* right-hand side of lines 165-169 *)
Definition rbf_filter_via (call : LayerCall F) (up_layer down_layer : Layer F)
    (rbf : tensor2 F) (num_batch : nat) : result (tensor3 F) :=
  let* d := call down_layer rbf in
  let* u := call up_layer d in
  expand3 (unsqueeze_0 u) (Some num_batch) None None.

(* lines 157-169: the filter is computed and stored in [self.kfilter].
   Line 164 assigns [self.k_rbf_values] its own tensor moved to the device
   of [x]; tensors carry no device here, so this store writes back the
   values the attribute holds. *)
Definition compute_kfilter_via (call : LayerCall F) (num_batch : nat)
  : M (tensor3 F) :=
  pbc <- getattr use_pbc ;;
  if pbc then
    upw <- getattr (fun s => linear_weight (up s)) ;;
    dnw <- getattr (fun s => linear_weight (down s)) ;;
    kf <- lift (pbc_filter upw dnw num_batch) ;;
    _ <- setattr (set_kfilter kf) ;;
    ret kf
  else
    rbf <- getattr k_rbf_values ;;
    match rbf with
    | None => lift (Raise AttributeError)
    | Some r =>
        _ <- setattr (set_k_rbf_values r) ;;      (* .to(x.device) *)
        upl <- getattr (fun s => dense_layer (up s)) ;;
        dnl <- getattr (fun s => dense_layer (down s)) ;;
        kf <- lift (rbf_filter_via call upl dnl r num_batch) ;;
        _ <- setattr (set_kfilter kf) ;;
        ret kf
    end.

Definition rbf_filter (up_layer down_layer : Layer F) (rbf : tensor2 F)
    (num_batch : nat) : result (tensor3 F) :=
  rbf_filter_via call_layer up_layer down_layer rbf num_batch.

Definition compute_kfilter (num_batch : nat) : M (tensor3 F) :=
  compute_kfilter_via call_layer num_batch.

(* [sinc_damping * t] *)
Definition damp (sd : damping) (t : tensor2 F) : result (tensor2 F) :=
  match sd with
  | DampScalar c => Ok (smul2 c t)
  | DampTensor d => bop2 fmul d t
  end.

(* [(sinc_damping * trig(dot)).unsqueeze(-1).expand(-1, -1, hres.shape[-1])] *)
Definition phase (sd : damping) (trig : F -> F) (dot hres : tensor2 F)
  : result (tensor3 F) :=
  let* w := damp sd (map2 trig dot) in
  expand3 (unsqueeze_m1 w) None None (Some (cols2 hres)).

(* lines 172-181 and 182-191, with [trig] the cosine or the sine *)
Definition structure_factor (trig : F -> F) (hres : tensor2 F) (num_batch : nat)
    (batch_seg : list Z) (dot : tensor2 F) (sd : damping) : result (tensor3 F) :=
  let* a := expand3 (unsqueeze_m2 hres) None (Some (cols2 dot)) None in
  let* b := phase sd trig dot hres in
  let* src := bop3 fmul a b in
  zeros_index_add num_batch (cols2 dot) (cols2 hres) batch_seg src.

(* one summand of lines 195-203 *)
Definition filtered (trig : F -> F) (sf kf : tensor3 F) (batch_seg : list Z)
    (dot : tensor2 F) (sd : damping) (hres : tensor2 F) : result (tensor3 F) :=
  let* fk := bop3 fmul sf kf in
  let* sel := index_select3 fk batch_seg in
  let* b := phase sd trig dot hres in
  bop3 fmul sel b.

(* lines 194-205 *)
Definition inverse_transform (sf_real sf_imag kf : tensor3 F)
    (batch_seg : list Z) (dot : tensor2 F) (sd : damping) (hres : tensor2 F)
  : result (tensor2 F) :=
  let* re := filtered fcos sf_real kf batch_seg dot sd hres in
  let* im := filtered fsin sf_imag kf batch_seg dot sd hres in
  let* s := bop3 fadd re im in
  Ok (smul2 c_hundredth (sum_dim1 s)).

(* lines 207-208 *)
Definition apply_scale (sc : option (ScaleFactor F)) (h_update h : tensor2 F)
  : result (tensor2 F) :=
  match sc with
  | Some scale => scale h_update h
  | None => Ok h_update
  end.

(* lines 125-217 *)
Definition forward_via (call : LayerCall F) (h x : tensor2 F) (k : tensor3 F)
    (num_batch : nat) (batch_seg : list Z) (dot : option (tensor2 F))
    (sinc_damping : option damping) : M retval :=
  pre <- getattr pre_residual ;;
  hres <- lift (call pre h) ;;
  (* [if dot == None]: a tensor compares unequal to [None] *)
  dot <- match dot with
         | None => lift (compute_dot x k batch_seg)
         | Some d => ret d
         end ;;
  sinc_damping <- match sinc_damping with
                  | None =>
                      pbc <- getattr use_pbc ;;
                      dk <- getattr delta_k ;;
                      lift (compute_sinc_damping pbc dk x k)
                  | Some sd => ret sd
                  end ;;
  kf <- compute_kfilter_via call num_batch ;;
  sf_real <- lift (structure_factor fcos hres num_batch batch_seg dot sinc_damping) ;;
  sf_imag <- lift (structure_factor fsin hres num_batch batch_seg dot sinc_damping) ;;
  h_update <- lift (inverse_transform sf_real sf_imag kf batch_seg dot sinc_damping hres) ;;
  sc <- getattr ewald_scale_sum ;;
  h_update <- lift (apply_scale sc h_update h) ;;
  ls <- getattr ewald_layers ;;
  h_update <- lift (call_layers_via call ls h_update) ;;
  rkp <- getattr return_k_params ;;
  if rkp then ret (RetTriple h_update dot sinc_damping)
  else ret (RetUpdate h_update).

Definition forward (h x : tensor2 F) (k : tensor3 F) (num_batch : nat)
    (batch_seg : list Z) (dot : option (tensor2 F))
    (sinc_damping : option damping) : M retval :=
  forward_via call_layer h x k num_batch batch_seg dot sinc_damping.

(** *** The values [forward] computes, without the attribute stores

    [forward_value] is the second component of [forward] (lemma
    [forward_snd]); it is the form the proofs step through. *)

Definition filter_value_via (call : LayerCall F) (self : instance)
    (num_batch : nat) : result (tensor3 F) :=
  if use_pbc self then
    pbc_filter (linear_weight (up self)) (linear_weight (down self)) num_batch
  else
    match k_rbf_values self with
    | None => Raise AttributeError
    | Some r =>
        rbf_filter_via call (dense_layer (up self)) (dense_layer (down self))
          r num_batch
    end.

Definition filter_value (self : instance) (num_batch : nat) : result (tensor3 F) :=
  filter_value_via call_layer self num_batch.

Definition dot_value (dot : option (tensor2 F)) (x : tensor2 F) (k : tensor3 F)
    (batch_seg : list Z) : result (tensor2 F) :=
  match dot with
  | None => compute_dot x k batch_seg
  | Some d => Ok d
  end.

Definition damping_value (self : instance) (sinc_damping : option damping)
    (x : tensor2 F) (k : tensor3 F) : result damping :=
  match sinc_damping with
  | None => compute_sinc_damping (use_pbc self) (delta_k self) x k
  | Some sd => Ok sd
  end.

Definition forward_tail_via (call : LayerCall F) (self : instance)
    (h hres : tensor2 F) (num_batch : nat)
    (batch_seg : list Z) (dot : tensor2 F) (sd : damping) (kf : tensor3 F)
  : result retval :=
  let* sf_real := structure_factor fcos hres num_batch batch_seg dot sd in
  let* sf_imag := structure_factor fsin hres num_batch batch_seg dot sd in
  let* h_update := inverse_transform sf_real sf_imag kf batch_seg dot sd hres in
  let* h_update := apply_scale (ewald_scale_sum self) h_update h in
  let* h_update := call_layers_via call (ewald_layers self) h_update in
  Ok (if return_k_params self then RetTriple h_update dot sd
      else RetUpdate h_update).

Definition forward_tail (self : instance) (h hres : tensor2 F) (num_batch : nat)
    (batch_seg : list Z) (dot : tensor2 F) (sd : damping) (kf : tensor3 F)
  : result retval :=
  forward_tail_via call_layer self h hres num_batch batch_seg dot sd kf.

Definition forward_value (self : instance) (h x : tensor2 F) (k : tensor3 F)
    (num_batch : nat) (batch_seg : list Z) (dot : option (tensor2 F))
    (sinc_damping : option damping) : result retval :=
  let* hres := call_layer (pre_residual self) h in
  let* d := dot_value dot x k batch_seg in
  let* s := damping_value self sinc_damping x k in
  let* kf := filter_value self num_batch in
  forward_tail self h hres num_batch batch_seg d s kf.

(** The damping factor of atom [i] and reciprocal mode [j]. *)
Definition damping_at (sd : damping) (i j : nat) : F :=
  match sd with
  | DampScalar c => c
  | DampTensor t => get2 t i j
  end.

Definition damping_shape (sd : damping) (n m : nat) : Prop :=
  match sd with
  | DampScalar _ => True
  | DampTensor t => shape2 t n m
  end.

(** *** Entry formulas of the stages

    On inputs of consistent shapes every stage of [forward] is the tensor
    of one of the following entries (lemmas [compute_dot_entries] to
    [inverse_transform_entries]). *)

(* the phase [k . x] of atom [i] and mode [j] *)
Definition dot_entry (x : tensor2 F) (k : tensor3 F) (batch_seg : list Z)
    (i j : nat) : F :=
  fsum (tab (dim2 k) (fun c => fmul (get3 k (ix batch_seg i) j c) (get2 x i c))).

(* the aperiodic damping of atom [i] *)
Definition sinc_entry (dk : F) (x : tensor2 F) (i : nat) : F :=
  fmul (fmul (fsinc (fmul (fmul c_half dk) (get2 x i 0)))
             (fsinc (fmul (fmul c_half dk) (get2 x i 1))))
       (fsinc (fmul (fmul c_half dk) (get2 x i 2))).

(* the damped cosine or sine of atom [i] and mode [j] *)
Definition weight (sd : damping) (trig : F -> F) (dot : tensor2 F)
    (i j : nat) : F :=
  fmul (damping_at sd i j) (trig (get2 dot i j)).

(* the structure factor of structure [b], mode [j], feature [c] *)
Definition sf_entry (trig : F -> F) (hres : tensor2 F) (batch_seg : list Z)
    (dot : tensor2 F) (sd : damping) (b j c : nat) : F :=
  fsum (map (fun i => fmul (get2 hres i c) (weight sd trig dot i j))
            (hits batch_seg b)).

(* the update of atom [i], feature [c], before scaling *)
Definition update_entry (sf_real sf_imag kf : tensor3 F) (batch_seg : list Z)
    (dot : tensor2 F) (sd : damping) (numK : nat) (i c : nat) : F :=
  fmul c_hundredth
    (fsum (tab numK (fun j =>
       fadd (fmul (fmul (get3 sf_real (ix batch_seg i) j c)
                        (get3 kf (ix batch_seg i) j c))
                  (weight sd fcos dot i j))
            (fmul (fmul (get3 sf_imag (ix batch_seg i) j c)
                        (get3 kf (ix batch_seg i) j c))
                  (weight sd fsin dot i j))))).

(** *** The stages in closed form, for inputs of consistent shapes *)

Definition hres_tensor (self : instance) (h : tensor2 F) : tensor2 F :=
  mk2 (nrows h) (out_features (pre_residual self))
      (fun i j => nth j (row_fn (pre_residual self) (row h i)) fzero).

Definition dot_tensor (x : tensor2 F) (k : tensor3 F) (batch_seg : list Z)
  : tensor2 F :=
  mk2 (length batch_seg) (dim1 k) (dot_entry x k batch_seg).

Definition damping_entries (self : instance) (x : tensor2 F) (k : tensor3 F)
  : damping :=
  if use_pbc self then DampScalar fone
  else match delta_k self with
       | Some dk =>
           DampTensor (mk2 (nrows x) (dim1 k) (fun i _ => sinc_entry dk x i))
       | None => DampScalar fone
       end.

(* the update before scaling, for a filter with entries [g j c] *)
Definition raw_update (self : instance) (g : nat -> nat -> F)
    (h x : tensor2 F) (k : tensor3 F) (num_batch : nat) (batch_seg : list Z)
  : tensor2 F :=
  let hres := hres_tensor self h in
  let d := dot_tensor x k batch_seg in
  let sd := damping_entries self x k in
  let numK := dim1 k in
  let e := out_features (pre_residual self) in
  mk2 (length batch_seg) e
      (update_entry (mk3 num_batch numK e (sf_entry fcos hres batch_seg d sd))
                    (mk3 num_batch numK e (sf_entry fsin hres batch_seg d sd))
                    (mk3 num_batch numK e (fun _ => g))
                    batch_seg d sd numK).

(* the update before scaling computed from the pre-residual features
   [hres], whatever layer call produced them *)
Definition raw_from (self : instance) (hres : tensor2 F) (g : nat -> nat -> F)
    (x : tensor2 F) (k : tensor3 F) (num_batch : nat) (batch_seg : list Z)
  : tensor2 F :=
  let d := dot_tensor x k batch_seg in
  let sd := damping_entries self x k in
  let numK := dim1 k in
  let e := cols2 hres in
  mk2 (length batch_seg) e
      (update_entry (mk3 num_batch numK e (sf_entry fcos hres batch_seg d sd))
                    (mk3 num_batch numK e (sf_entry fsin hres batch_seg d sd))
                    (mk3 num_batch numK e (fun _ => g))
                    batch_seg d sd numK).

(** The damping of two structures side by side. *)
Definition cat_damping (a b : damping) : damping :=
  match a, b with
  | DampTensor ta, DampTensor tb => DampTensor (cat2 ta tb)
  | _, _ => a
  end.

Definition cat_retval (a b : retval) : retval :=
  match a, b with
  | RetTriple ua da sa, RetTriple ub db sb =>
      RetTriple (cat2 ua ub) (cat2 da db) (cat_damping sa sb)
  | _, _ => RetUpdate (cat2 (h_update_of a) (h_update_of b))
  end.

(** What [__init__] establishes about the extents of the sub-layers, for
    the constructor arguments [emb_size_atom], [downprojection_size] and
    [num_hidden]. *)
Definition square_layer (e : nat) (l : Layer F) : Prop :=
  in_features l = e /\ out_features l = e.

Record constructed (emb_size_atom downprojection_size num_hidden : nat)
    (self : instance) : Prop := {
  up_in : in_features (dense_layer (up self)) = downprojection_size;
  up_out : out_features (dense_layer (up self)) = emb_size_atom;
  up_weight_rows : nrows (linear_weight (up self)) = emb_size_atom;
  up_weight_cols : cols2 (linear_weight (up self)) = downprojection_size;
  pre_square : square_layer emb_size_atom (pre_residual self);
  mlp_length : length (ewald_layers self) = S num_hidden;
  mlp_square : Forall (square_layer emb_size_atom) (ewald_layers self)
}.

(** A scale factor that keeps the shape of the value it rescales. *)
Definition shape_preserving (sc : ScaleFactor F) : Prop :=
  forall value ref, exists t,
    sc value ref = Ok t /\ nrows t = nrows value /\ cols2 t = cols2 value.

(** A scale factor that treats every atom (row) on its own. *)
Definition atomwise (sc : ScaleFactor F) : Prop :=
  forall v1 v2 r1 r2 t1 t2,
    cols2 v1 = cols2 v2 -> cols2 r1 = cols2 r2 ->
    nrows v1 = nrows r1 -> nrows v2 = nrows r2 ->
    sc v1 r1 = Ok t1 -> sc v2 r2 = Ok t2 ->
    sc (cat2 v1 v2) (cat2 r1 r2) = Ok (cat2 t1 t2).

(** Inputs of consistent shapes: [numAtoms] atoms with three coordinates,
    [numBatch] structures with [numK] reciprocal vectors each, and a filter
    of matching extents. *)
Record consistent (emb_size_atom numAtoms numK numBatch : nat)
    (self : instance) (h x : tensor2 F) (k : tensor3 F)
    (batch_seg : list Z) : Prop := {
  h_rows : nrows h = numAtoms;
  h_cols : cols2 h = emb_size_atom;
  x_rows : nrows x = numAtoms;
  x_cols : cols2 x = 3;
  k_dim0 : dim0 k = numBatch;
  k_dim1 : dim1 k = numK;
  k_dim2 : dim2 k = 3;
  seg_length : length batch_seg = numAtoms;
  seg_range : forallb (in_range numBatch) batch_seg = true;
  filter_pbc :
    use_pbc self = true ->
    nrows (linear_weight (down self)) = cols2 (linear_weight (up self)) /\
    cols2 (linear_weight (down self)) = numK;
  filter_rbf :
    use_pbc self = false ->
    exists dk rbf,
      delta_k self = Some dk /\ k_rbf_values self = Some rbf /\
      nrows rbf = numK /\
      cols2 rbf = in_features (dense_layer (down self)) /\
      out_features (dense_layer (down self)) = in_features (dense_layer (up self));
  scale_shape :
    forall sc, ewald_scale_sum self = Some sc -> shape_preserving sc
}.

End Block.

Arguments damping F : clear implicits.
Arguments instance F : clear implicits.
Arguments retval F : clear implicits.

End EwaldBlock.

(** ** The module namespace

    Names bound when the module has been executed: the four imports of
    lines 1-5 and the two classes.  [ScalingFactor] is not among them. *)

Inductive pyobject : Type :=
| ModTorch
| FnScatter
| ClsDense
| ClsResidualLayer
| ClsScaleFactor
| ClsEwaldBlock
| ClsHadamardBlock.

Definition module_globals : list (string * pyobject) :=
  [ ("torch"%string, ModTorch);
    ("scatter"%string, FnScatter);
    ("Dense"%string, ClsDense);
    ("ResidualLayer"%string, ClsResidualLayer);
    ("ScaleFactor"%string, ClsScaleFactor);
    ("EwaldBlock"%string, ClsEwaldBlock);
    ("HadamardBlock"%string, ClsHadamardBlock) ].

Fixpoint assoc (name : string) (env : list (string * pyobject)) : option pyobject :=
  match env with
  | [] => None
  | (n, o) :: env' => if String.eqb name n then Some o else assoc name env'
  end.

(* evaluation of a global name *)
Definition resolve (name : string) : result pyobject :=
  match assoc name module_globals with
  | Some o => Ok o
  | None => Raise (NameError name)
  end.

(** ** HadamardBlock *)

Module HadamardBlock.

Section Block.

Context {F : Type} `{Scalar F}.

Record instance : Type := {
  name : string;
  dense_bf : Dense F;
  scale_sum : ScalingFactor F;
  pre_residual : Layer F;
  layers : list (Layer F)
}.

(* lines 284-291: the aggregate [x2] *)
Definition aggregate (self : instance) (h bf : tensor2 F) (idx_s idx_t : list Z)
  : result (tensor2 F) :=
  let nAtoms := nrows h in
  let* h_res := call_layer (pre_residual self) h in
  let* mlp_bf := call_layer (dense_layer (dense_bf self)) bf in
  let* sel := index_select2 h_res idx_s in
  let* x := bop2 fmul sel mlp_bf in
  scatter_sum x idx_t nAtoms.

(* lines 284-298; line 293 is [x = self.scale_sum(h, x2)] *)
Definition forward (self : instance) (h bf : tensor2 F) (idx_s idx_t : list Z)
  : result (tensor2 F) :=
  let* x2 := aggregate self h bf idx_s idx_t in
  let* x := scale_sum self h x2 in
  call_layers (layers self) x.

(** The rescaling step as the specification words it: the scale factor
    rescales the aggregate, the value, with [h] as the reference. *)
Definition forward_as_specified (self : instance) (h bf : tensor2 F)
    (idx_s idx_t : list Z) : result (tensor2 F) :=
  let* x2 := aggregate self h bf idx_s idx_t in
  let* x := rescale (scale_sum self) x2 h in
  call_layers (layers self) x.

(** *** Construction

    The sub-layers are built by the imported classes; how they fill their
    parameters is theirs, so the three constructors are parameters here. *)

Variable new_Dense : nat -> nat -> Dense F.
Variable new_ResidualLayer : nat -> Layer F.
Variable new_ScaleFactor : string -> ScaleFactor F.

(* calling what a name evaluated to *)
Definition call_Dense (o : pyobject) (units_in units : nat) : result (Dense F) :=
  match o with
  | ClsDense => Ok (new_Dense units_in units)
  | _ => Raise TypeError
  end.

Definition call_ResidualLayer (o : pyobject) (units : nat) : result (Layer F) :=
  match o with
  | ClsResidualLayer => Ok (new_ResidualLayer units)
  | _ => Raise TypeError
  end.

Definition call_ScaleFactor (o : pyobject) (name : string)
  : result (ScaleFactor F) :=
  match o with
  | ClsScaleFactor => Ok (new_ScaleFactor name)
  | _ => Raise TypeError
  end.

(* lines 267-275 *)
Definition get_mlp (units_in units nHidden : nat) : result (list (Layer F)) :=
  let* cd := resolve "Dense" in
  let* dense1 := call_Dense cd units_in units in
  let mlp := [dense_layer dense1] in
  let* res := mapM (fun _ =>
                      let* cr := resolve "ResidualLayer" in
                      call_ResidualLayer cr units)
                   (seq 0 nHidden) in
  Ok (mlp ++ res).

(* lines 242-265 *)
Definition init (emb_size_atom emb_size_bf nHidden : nat)
    (scale_file : option string) (name : string) : result instance :=
  let* cd := resolve "Dense" in
  let* dense_bf := call_Dense cd emb_size_bf emb_size_atom in
  let* cs := resolve "ScalingFactor" in
  let* scale_sum := call_ScaleFactor cs (name ++ "_sum") in
  let* cr := resolve "ResidualLayer" in
  let* pre_residual := call_ResidualLayer cr emb_size_atom in
  let* layers := get_mlp emb_size_atom emb_size_atom nHidden in
  Ok {| name := name;
        dense_bf := dense_bf;
        scale_sum := scale_sum;
        pre_residual := pre_residual;
        layers := layers |}.

End Block.

Arguments instance F : clear implicits.

End HadamardBlock.

(** ** Construction of an [EwaldBlock] *)

Module EwaldBlockInit.

Section Init.

Context {F : Type} `{Scalar F}.

Variable new_Dense : nat -> nat -> Dense F.
Variable new_ResidualLayer : nat -> Layer F.
Variable new_ScaleFactor : string -> ScaleFactor F.

(* lines 100-121 *)
Definition get_mlp (units_in units num_hidden : nat) : result (list (Layer F)) :=
  let* cd := resolve "Dense" in
  let* dense1 := HadamardBlock.call_Dense new_Dense cd units_in units in
  let mlp := [dense_layer dense1] in
  let* res := mapM (fun _ =>
                      let* cr := resolve "ResidualLayer" in
                      HadamardBlock.call_ResidualLayer new_ResidualLayer cr units)
                   (seq 0 num_hidden) in
  Ok (mlp ++ res).

(* lines 95-98 *)
Definition init_scale (name : option string) : result (option (ScaleFactor F)) :=
  match name with
  | Some n =>
      let* cs := resolve "ScaleFactor" in
      let* sc := HadamardBlock.call_ScaleFactor new_ScaleFactor cs (n ++ "_sum") in
      Ok (Some sc)
  | None => Ok None
  end.

(* lines 41-98; [forward] is what assigns [kfilter] *)
Definition init (shared_downprojection : Dense F)
    (emb_size_atom downprojection_size num_hidden : nat)
    (name : option string) (use_pbc : bool) (delta_k : option F)
    (k_rbf_values : option (tensor2 F)) (return_k_params : bool)
  : result (EwaldBlock.instance F) :=
  let* cd := resolve "Dense" in
  let* up := HadamardBlock.call_Dense new_Dense cd downprojection_size emb_size_atom in
  let* cr := resolve "ResidualLayer" in
  let* pre_residual :=
    HadamardBlock.call_ResidualLayer new_ResidualLayer cr emb_size_atom in
  let* ewald_layers := get_mlp emb_size_atom emb_size_atom num_hidden in
  let* ewald_scale_sum := init_scale name in
  Ok {| EwaldBlock.use_pbc := use_pbc;
        EwaldBlock.return_k_params := return_k_params;
        EwaldBlock.delta_k := delta_k;
        EwaldBlock.k_rbf_values := k_rbf_values;
        EwaldBlock.down := shared_downprojection;
        EwaldBlock.up := up;
        EwaldBlock.pre_residual := pre_residual;
        EwaldBlock.ewald_layers := ewald_layers;
        EwaldBlock.ewald_scale_sum := ewald_scale_sum;
        EwaldBlock.kfilter := None |}.

(** Constructors that build layers of the extents they are asked for:
    [Dense(a, b)] maps [a] features to [b] and has a weight of shape
    [(b, a)]; [ResidualLayer(n)] maps [n] features to [n]. *)
Definition dense_extents : Prop :=
  forall a b,
    in_features (dense_layer (new_Dense a b)) = a /\
    out_features (dense_layer (new_Dense a b)) = b /\
    nrows (linear_weight (new_Dense a b)) = b /\
    cols2 (linear_weight (new_Dense a b)) = a.

Definition residual_extents : Prop :=
  forall n, EwaldBlock.square_layer n (new_ResidualLayer n).

End Init.

End EwaldBlockInit.

(** ** Inputs of [HadamardBlock.forward] of consistent shapes *)

Module HadamardInputs.

Section Inputs.

Context {F : Type} `{Scalar F}.

(** [numAtoms] atoms of [emb_size_atom] features and [numEdges] edges of
    [emb_size_bf] radial-basis features between them. *)
Record consistent (emb_size_atom emb_size_bf numAtoms numEdges : nat)
    (self : HadamardBlock.instance F) (h bf : tensor2 F)
    (idx_s idx_t : list Z) : Prop := {
  h_shape : shape2 h numAtoms emb_size_atom;
  bf_shape : shape2 bf numEdges emb_size_bf;
  pre_square : EwaldBlock.square_layer emb_size_atom
                 (HadamardBlock.pre_residual self);
  dense_in : in_features (dense_layer (HadamardBlock.dense_bf self)) = emb_size_bf;
  dense_out : out_features (dense_layer (HadamardBlock.dense_bf self)) = emb_size_atom;
  idx_s_length : length idx_s = numEdges;
  idx_t_length : length idx_t = numEdges;
  idx_s_range : forallb (in_range numAtoms) idx_s = true;
  idx_t_range : forallb (in_range numAtoms) idx_t = true
}.

(* the message of edge [e] in feature [c]: the pre-residual feature of
   its source atom times its projected radial-basis feature *)
Definition message (self : HadamardBlock.instance F) (h bf : tensor2 F)
    (idx_s : list Z) (e c : nat) : F :=
  fmul (nth c (row_fn (HadamardBlock.pre_residual self) (row h (ix idx_s e))) fzero)
       (nth c (row_fn (dense_layer (HadamardBlock.dense_bf self)) (row bf e)) fzero).

(* the messages of the edges into atom [t], summed in edge order *)
Definition aggregate_entry (self : HadamardBlock.instance F) (h bf : tensor2 F)
    (idx_s idx_t : list Z) (t c : nat) : F :=
  fsum (map (fun e => message self h bf idx_s e c) (hits idx_t t)).

(* one more edge, from atom [s] to atom [t], with radial-basis row [r] *)
Definition add_edge_bf (bf : tensor2 F) (r : list F) : tensor2 F :=
  cat2 bf (T2 (cols2 bf) [r]).

End Inputs.

End HadamardInputs.

(** ** Reordering the atoms of an [EwaldBlock] input *)

Section AtomOrder.

Context {F : Type} `{Scalar F}.

(** A scale factor that follows a reordering of the atoms. *)
Definition follows_order (sc : ScaleFactor F) : Prop :=
  forall perm value ref t,
    nrows value = nrows ref ->
    Permutation perm (seq 0 (nrows value)) ->
    sc value ref = Ok t ->
    sc (permute_rows perm value) (permute_rows perm ref) =
    Ok (permute_rows perm t).

End AtomOrder.

(** ** Concrete scalars and sample blocks

    Fixed-point numbers with two decimal digits ([100] stands for one), with
    truncated Taylor polynomials for the trigonometric functions.  They are
    used to run the embedding on concrete inputs. *)

Definition fx_mul (a b : Z) : Z := (a * b / 100)%Z.
Definition fx_sin (x : Z) : Z := (x - x * x * x / 60000)%Z.
Definition fx_cos (x : Z) : Z := (100 - x * x / 200)%Z.
Definition fx_sinc (x : Z) : Z :=
  if (x =? 0)%Z then 100%Z
  else (100 * fx_sin (314 * x / 100) / (314 * x / 100))%Z.

#[export] Instance FixedPoint : Scalar Z := {|
  fzero := 0%Z;
  fone := 100%Z;
  fadd := Z.add;
  fmul := fx_mul;
  fcos := fx_cos;
  fsin := fx_sin;
  fsinc := fx_sinc;
  c_half := 50%Z;
  c_hundredth := 1%Z
|}.

(* a layer that doubles every entry, and one that is the identity *)
Definition doubling (n : nat) : Layer Z :=
  {| in_features := n; out_features := n; row_fn := map (Z.mul 2) |}.

Definition identity_layer (n : nat) : Layer Z :=
  {| in_features := n; out_features := n; row_fn := fun r => r |}.

(* a [ScaleFactor] that triples the value, whatever the reference *)
Definition tripling : ScaleFactor Z := fun value _ => Ok (map2 (Z.mul 3) value).

(* a [ScalingFactor] with the factor 3.00: it returns three times the
   value [y], whatever the reference *)
Definition scaling_by_three : ScalingFactor Z := fun _ y => Ok (smul2 300%Z y).

(* a Hadamard block whose layers are identities and whose scale factor
   triples the value it rescales *)
Definition sample_hadamard : HadamardBlock.instance Z :=
  {| HadamardBlock.name := "hadamard_atom_update";
     HadamardBlock.dense_bf :=
       {| dense_layer := identity_layer 2;
          linear_weight := T2 2 [[100; 0]; [0; 100]]%Z |};
     HadamardBlock.scale_sum := scaling_by_three;
     HadamardBlock.pre_residual := identity_layer 2;
     HadamardBlock.layers := [identity_layer 2] |}.

(* two atoms, one edge from atom 0 to atom 1 *)
Definition sample_h : tensor2 Z := T2 2 [[100; 200]; [300; 400]]%Z.
Definition sample_bf : tensor2 Z := T2 2 [[100; 100]]%Z.
Definition sample_idx_s : list Z := [0%Z].
Definition sample_idx_t : list Z := [1%Z].

(* an affine layer without bias or activation, given by its weight *)
Definition linear (w : tensor2 Z) (v : list Z) : list Z :=
  map (fun wr => fsum (map (fun p => fmul (fst p) (snd p)) (combine wr v)))
      (rows2 w).

Definition dense_of (w : tensor2 Z) : Dense Z :=
  {| dense_layer :=
       {| in_features := cols2 w; out_features := nrows w; row_fn := linear w |};
     linear_weight := w |}.

(* embedding size 2, bottleneck 1, two reciprocal vectors, no hidden block *)
Definition sample_down : Dense Z := dense_of (T2 2 [[100; 50]]%Z).
Definition sample_up : Dense Z := dense_of (T2 1 [[100]; [200]]%Z).

Definition sample_pbc : EwaldBlock.instance Z :=
  {| EwaldBlock.use_pbc := true;
     EwaldBlock.return_k_params := true;
     EwaldBlock.delta_k := None;
     EwaldBlock.k_rbf_values := None;
     EwaldBlock.down := sample_down;
     EwaldBlock.up := sample_up;
     EwaldBlock.pre_residual := identity_layer 2;
     EwaldBlock.ewald_layers := [doubling 2];
     EwaldBlock.ewald_scale_sum := Some tripling;
     EwaldBlock.kfilter := None |}.

Definition sample_aperiodic : EwaldBlock.instance Z :=
  {| EwaldBlock.use_pbc := false;
     EwaldBlock.return_k_params := true;
     EwaldBlock.delta_k := Some 100%Z;
     EwaldBlock.k_rbf_values := Some (T2 2 [[100; 0]; [0; 100]]%Z);
     EwaldBlock.down := sample_down;
     EwaldBlock.up := sample_up;
     EwaldBlock.pre_residual := identity_layer 2;
     EwaldBlock.ewald_layers := [doubling 2];
     EwaldBlock.ewald_scale_sum := None;
     EwaldBlock.kfilter := None |}.

(* a structure of two atoms and a structure of one atom *)
Definition sample_x : tensor2 Z := T2 3 [[0; 0; 0]; [100; 50; 25]]%Z.
Definition sample_k : tensor3 Z := T3 2 3 [[[100; 0; 0]; [0; 100; 0]]]%Z.
Definition sample_h' : tensor2 Z := T2 2 [[50; 50]]%Z.
Definition sample_x' : tensor2 Z := T2 3 [[10; 20; 30]]%Z.
Definition sample_k' : tensor3 Z := T3 2 3 [[[0; 0; 100]; [100; 100; 0]]]%Z.

(* what the periodic sample block computes for the two-atom structure *)
Definition sample_kfilter : tensor3 Z := T3 2 2 [[[100; 200]; [50; 100]]]%Z.
Definition sample_update : tensor2 Z := T2 2 [[24; 78]; [30; 90]]%Z.
Definition sample_dot : tensor2 Z := T2 2 [[0; 0]; [100; 50]]%Z.

(* two edges into atom 1, and the permutation that swaps them *)
Definition sample_bf2 : tensor2 Z := T2 2 [[100; 100]; [50; 200]]%Z.
Definition sample_idx_s2 : list Z := [0%Z; 1%Z].
Definition sample_idx_t2 : list Z := [1%Z; 1%Z].
Definition sample_perm : list nat := [1; 0].

(* constructors that build zero-initialised layers of the requested extents *)
Definition zero_dense (a b : nat) : Dense Z :=
  {| dense_layer :=
       {| in_features := a; out_features := b; row_fn := fun _ => repeat 0%Z b |};
     linear_weight := mk2 b a (fun _ _ => 0%Z) |}.

Definition named_scale (name : string) : ScaleFactor Z :=
  fun value _ => Ok (map2 (Z.mul (Z.of_nat (String.length name))) value).

(* the aperiodic sample block without its precomputed radial basis, and
   without its voxel resolution *)
Definition sample_no_rbf : EwaldBlock.instance Z :=
  {| EwaldBlock.use_pbc := false;
     EwaldBlock.return_k_params := true;
     EwaldBlock.delta_k := Some 100%Z;
     EwaldBlock.k_rbf_values := None;
     EwaldBlock.down := sample_down;
     EwaldBlock.up := sample_up;
     EwaldBlock.pre_residual := identity_layer 2;
     EwaldBlock.ewald_layers := [doubling 2];
     EwaldBlock.ewald_scale_sum := None;
     EwaldBlock.kfilter := None |}.

Definition sample_no_delta_k : EwaldBlock.instance Z :=
  {| EwaldBlock.use_pbc := false;
     EwaldBlock.return_k_params := true;
     EwaldBlock.delta_k := None;
     EwaldBlock.k_rbf_values := Some (T2 2 [[100; 0]; [0; 100]]%Z);
     EwaldBlock.down := sample_down;
     EwaldBlock.up := sample_up;
     EwaldBlock.pre_residual := identity_layer 2;
     EwaldBlock.ewald_layers := [doubling 2];
     EwaldBlock.ewald_scale_sum := None;
     EwaldBlock.kfilter := None |}.

(* a second periodic block on the same downprojection, with another update
   network and no scale factor *)
Definition sample_pbc_twin : EwaldBlock.instance Z :=
  {| EwaldBlock.use_pbc := true;
     EwaldBlock.return_k_params := false;
     EwaldBlock.delta_k := None;
     EwaldBlock.k_rbf_values := None;
     EwaldBlock.down := sample_down;
     EwaldBlock.up := sample_up;
     EwaldBlock.pre_residual := doubling 2;
     EwaldBlock.ewald_layers := [identity_layer 2];
     EwaldBlock.ewald_scale_sum := None;
     EwaldBlock.kfilter := None |}.

(* a periodic block and a structure without reciprocal vectors *)
Definition sample_pbc_no_modes : EwaldBlock.instance Z :=
  {| EwaldBlock.use_pbc := true;
     EwaldBlock.return_k_params := true;
     EwaldBlock.delta_k := None;
     EwaldBlock.k_rbf_values := None;
     EwaldBlock.down := dense_of (T2 0 [[]]);
     EwaldBlock.up := sample_up;
     EwaldBlock.pre_residual := identity_layer 2;
     EwaldBlock.ewald_layers := [doubling 2];
     EwaldBlock.ewald_scale_sum := None;
     EwaldBlock.kfilter := None |}.

Definition sample_k_no_modes : tensor3 Z := T3 0 3 [[]].

(* layers as a tensor engine may run them: batches of more than two rows
   go to another kernel, which returns every entry one unit in the last
   place higher than the kernel for small batches *)
Definition kernel_by_size : LayerCall Z :=
  fun l t =>
    let* r := call_layer l t in
    Ok (if 2 <? nrows t then map2 (Z.add 1) r else r).

(** *** Binary64 scalars

    IEEE 754 double precision, a rounding arithmetic of the tensor engine.
    Cosine, sine and sinc are truncated series, as for the fixed-point
    numbers ([0x1.921fb54442d18p+1] is the double nearest pi);
    [HadamardBlock] uses none of them. *)

Definition b64_sin (x : float) : float :=
  (x - x * x * x / 6 + x * x * x * x * x / 120)%float.
Definition b64_cos (x : float) : float :=
  (1 - x * x / 2 + x * x * x * x / 24)%float.
Definition b64_sinc (x : float) : float :=
  if PrimFloat.eqb x 0%float then 1%float
  else (b64_sin (0x1.921fb54442d18p+1 * x) / (0x1.921fb54442d18p+1 * x))%float.

#[export] Instance Binary64 : Scalar float := {|
  fzero := 0%float;
  fone := 1%float;
  fadd := PrimFloat.add;
  fmul := PrimFloat.mul;
  fcos := b64_cos;
  fsin := b64_sin;
  fsinc := b64_sinc;
  c_half := 0.5%float;
  c_hundredth := 0x1.47ae147ae147bp-7%float   (* the double nearest 0.01 *)
|}.

Definition b64_identity (n : nat) : Layer float :=
  {| in_features := n; out_features := n; row_fn := fun r => r |}.

(* a Hadamard block on one feature whose layers are identities and whose
   scale factor has the factor 1: [forward] returns the aggregate *)
Definition b64_hadamard : HadamardBlock.instance float :=
  {| HadamardBlock.name := "hadamard_atom_update";
     HadamardBlock.dense_bf :=
       {| dense_layer := b64_identity 1;
          linear_weight := T2 1 [[1%float]] |};
     HadamardBlock.scale_sum := fun _ y => Ok y;
     HadamardBlock.pre_residual := b64_identity 1;
     HadamardBlock.layers := [b64_identity 1] |}.

(* three atoms with the features 2^60, 1 and -2^60, and one edge from
   each of them to atom 0 *)
Definition b64_h : tensor2 float :=
  T2 1 [[1152921504606846976%float]; [1%float]; [(-1152921504606846976)%float]].
Definition b64_bf : tensor2 float := T2 1 [[1%float]; [1%float]; [1%float]].
Definition b64_idx_s : list Z := [0%Z; 1%Z; 2%Z].
Definition b64_idx_t : list Z := [0%Z; 0%Z; 0%Z].
(* the last two edges exchanged *)
Definition b64_perm : list nat := [0; 2; 1].
(* the same edges with the second one sent to atom 1, and the first two
   exchanged: the edges into atom 0 keep their order *)
Definition b64_idx_t_apart : list Z := [0%Z; 1%Z; 0%Z].
Definition b64_perm_apart : list nat := [1; 0; 2].

(** * Properties *)

(** ** Stepping through a computation that may raise *)

Lemma rbind_ok {A B} (a : A) (f : A -> result B) : rbind (Ok a) f = f a.
Proof. reflexivity. Qed.

Lemma rbind_raise {A B} (e : error) (f : A -> result B) :
  rbind (Raise e) f = Raise e.
Proof. reflexivity. Qed.

Ltac steps := repeat (rewrite rbind_ok; cbv beta).

(** ** Lists built by tabulation *)

Section TabFacts.

Context {F : Type} `{Scalar F}.

Lemma tab_length {A} (n : nat) (f : nat -> A) : length (tab n f) = n.
Proof. unfold tab. now rewrite length_map, length_seq. Qed.

Lemma tab_nth {A} (n : nat) (f : nat -> A) (i : nat) (d : A) :
  i < n -> nth i (tab n f) d = f i.
Proof.
  intros Hi. unfold tab.
  rewrite (nth_indep _ d (f 0)) by now rewrite length_map, length_seq.
  rewrite (map_nth f (seq 0 n) 0 i).
  now rewrite seq_nth.
Qed.

Lemma tab_ext {A} (n : nat) (f g : nat -> A) :
  (forall i, i < n -> f i = g i) -> tab n f = tab n g.
Proof.
  intros E. unfold tab. apply map_ext_in.
  intros i Hi. apply in_seq in Hi. apply E. lia.
Qed.

Lemma seq_from (n m : nat) : seq n m = map (fun i => n + i) (seq 0 m).
Proof.
  induction m as [|m IH]; [reflexivity|].
  rewrite !seq_S, map_app, <- IH. reflexivity.
Qed.

Lemma tab_app {A} (n m : nat) (f : nat -> A) :
  tab (n + m) f = tab n f ++ tab m (fun i => f (n + i)).
Proof.
  unfold tab. rewrite seq_app, map_app. f_equal.
  simpl. rewrite seq_from, map_map. reflexivity.
Qed.

End TabFacts.

(** ** Shapes and entries of tabulated tensors *)

Section TensorFacts.

Context {F : Type} `{Scalar F}.

Lemma nrows_mk2 n m (f : nat -> nat -> F) : nrows (mk2 n m f) = n.
Proof. unfold nrows, mk2. simpl. apply tab_length. Qed.

Lemma cols2_mk2 n m (f : nat -> nat -> F) : cols2 (mk2 n m f) = m.
Proof. reflexivity. Qed.

Lemma row_mk2 n m (f : nat -> nat -> F) i :
  i < n -> row (mk2 n m f) i = tab m (f i).
Proof. intros Hi. unfold row, mk2. simpl. now rewrite tab_nth. Qed.

Lemma get2_mk2 n m (f : nat -> nat -> F) i j :
  i < n -> j < m -> get2 (mk2 n m f) i j = f i j.
Proof. intros Hi Hj. unfold get2. rewrite row_mk2 by assumption. now rewrite tab_nth. Qed.

Lemma mk2_ext n m (f g : nat -> nat -> F) :
  (forall i j, i < n -> j < m -> f i j = g i j) -> mk2 n m f = mk2 n m g.
Proof.
  intros E. unfold mk2. f_equal. apply tab_ext. intros i Hi.
  apply tab_ext. intros j Hj. now apply E.
Qed.

Lemma wf2_mk2 n m (f : nat -> nat -> F) : wf2 (mk2 n m f).
Proof.
  unfold wf2, mk2, tab. simpl. apply Forall_forall. intros r Hr.
  apply in_map_iff in Hr. destruct Hr as [i [<- _]]. apply tab_length.
Qed.

Lemma dim0_mk3 n m p (f : nat -> nat -> nat -> F) : dim0 (mk3 n m p f) = n.
Proof. unfold dim0, mk3. simpl. apply tab_length. Qed.

Lemma get3_mk3 n m p (f : nat -> nat -> nat -> F) i j c :
  i < n -> j < m -> c < p -> get3 (mk3 n m p f) i j c = f i j c.
Proof.
  intros Hi Hj Hc. unfold get3, mk3. simpl.
  rewrite tab_nth by assumption. rewrite tab_nth by assumption.
  now rewrite tab_nth.
Qed.

Lemma mk3_ext n m p (f g : nat -> nat -> nat -> F) :
  (forall i j c, i < n -> j < m -> c < p -> f i j c = g i j c) ->
  mk3 n m p f = mk3 n m p g.
Proof.
  intros E. unfold mk3. f_equal. apply tab_ext. intros i Hi.
  apply tab_ext. intros j Hj. apply tab_ext. intros c Hc. now apply E.
Qed.

Lemma bix_lt a i : i < a -> bix a i = i.
Proof.
  intros Hi. unfold bix. destruct (Nat.eqb_spec a 1); [lia | reflexivity].
Qed.

Lemma bdim_refl a : bdim a a = Ok a.
Proof. unfold bdim. now rewrite Nat.eqb_refl. Qed.

Lemma bdim_one_r a : bdim a 1 = Ok a.
Proof.
  unfold bdim. destruct (Nat.eqb_spec a 1) as [->|]; [reflexivity|].
  reflexivity.
Qed.

Lemma expand_dim_keep a : expand_dim a None = Ok a.
Proof. reflexivity. Qed.

Lemma expand_dim_one w : expand_dim 1 (Some w) = Ok w.
Proof. reflexivity. Qed.

Lemma expand_dim_same w : expand_dim w (Some w) = Ok w.
Proof.
  unfold expand_dim. destruct (w =? 1); [reflexivity|].
  now rewrite Nat.eqb_refl.
Qed.

Lemma fsum_nil : fsum (@nil F) = fzero.
Proof. reflexivity. Qed.

(** Same shape: an element-wise operator succeeds entry by entry. *)
Lemma bop2_same f (a b : tensor2 F) :
  nrows a = nrows b -> cols2 a = cols2 b ->
  bop2 f a b =
  Ok (mk2 (nrows a) (cols2 a) (fun i j => f (get2 a i j) (get2 b i j))).
Proof.
  intros E0 E1. unfold bop2. rewrite <- E0, <- E1, !bdim_refl. simpl.
  f_equal. apply mk2_ext. intros i j Hi Hj. now rewrite !bix_lt.
Qed.

Lemma bop3_same f (a b : tensor3 F) :
  dim0 a = dim0 b -> dim1 a = dim1 b -> dim2 a = dim2 b ->
  bop3 f a b =
  Ok (mk3 (dim0 a) (dim1 a) (dim2 a)
        (fun i j c => f (get3 a i j c) (get3 b i j c))).
Proof.
  intros E0 E1 E2. unfold bop3. rewrite <- E0, <- E1, <- E2, !bdim_refl. simpl.
  f_equal. apply mk3_ext. intros i j c Hi Hj Hc. now rewrite !bix_lt.
Qed.

End TensorFacts.

(** ** [EwaldBlock.forward]: state and value *)

Section EwaldRun.

Context {F : Type} `{Scalar F}.

Import EwaldBlock.

Lemma set_k_rbf_values_same (self : instance F) r :
  k_rbf_values self = Some r -> set_k_rbf_values r self = self.
Proof. destruct self; simpl; intros ->; reflexivity. Qed.

Lemma compute_kfilter_via_run (call : LayerCall F) (self : instance F) nb :
  compute_kfilter_via call nb self =
  match filter_value_via call self nb with
  | Ok kf => (set_kfilter kf self, Ok kf)
  | Raise e => (self, Raise e)
  end.
Proof.
  unfold compute_kfilter_via, filter_value_via, bind, lift, getattr, setattr, ret.
  destruct (use_pbc self).
  - destruct (pbc_filter _ _ _); reflexivity.
  - destruct (k_rbf_values self) as [r|] eqn:E; [|reflexivity].
    rewrite (set_k_rbf_values_same _ E).
    destruct (rbf_filter_via _ _ _ _ _); reflexivity.
Qed.

Lemma compute_kfilter_run (self : instance F) nb :
  compute_kfilter nb self =
  match filter_value self nb with
  | Ok kf => (set_kfilter kf self, Ok kf)
  | Raise e => (self, Raise e)
  end.
Proof. exact (compute_kfilter_via_run call_layer self nb). Qed.

Lemma forward_via_run (call : LayerCall F) (self : instance F)
    h x k nb bs dot sd :
  forward_via call h x k nb bs dot sd self =
  match call (pre_residual self) h with
  | Raise e => (self, Raise e)
  | Ok hres =>
      match dot_value dot x k bs with
      | Raise e => (self, Raise e)
      | Ok d =>
          match damping_value self sd x k with
          | Raise e => (self, Raise e)
          | Ok s =>
              match filter_value_via call self nb with
              | Raise e => (self, Raise e)
              | Ok kf =>
                  (set_kfilter kf self,
                   forward_tail_via call self h hres nb bs d s kf)
              end
          end
      end
  end.
Proof.
  unfold forward_via. unfold bind at 1 2. unfold getattr at 1, lift at 1.
  destruct (call (pre_residual self) h) as [hres|e]; [|reflexivity].
  unfold bind at 1.
  assert (Ed : (match dot with
                | Some d => ret d
                | None => lift (compute_dot x k bs)
                end) self = (self, dot_value dot x k bs)).
  { destruct dot; reflexivity. }
  rewrite Ed. destruct (dot_value dot x k bs) as [d|e]; [|reflexivity].
  unfold bind at 1.
  assert (Es : (match sd with
                | Some s => ret s
                | None => bind (getattr use_pbc) (fun pbc =>
                          bind (getattr (@delta_k F)) (fun dk =>
                          lift (compute_sinc_damping pbc dk x k)))
                end) self = (self, damping_value self sd x k)).
  { destruct sd; reflexivity. }
  rewrite Es. destruct (damping_value self sd x k) as [s|e]; [|reflexivity].
  unfold bind at 1. rewrite compute_kfilter_via_run.
  destruct (filter_value_via call self nb) as [kf|e]; [|reflexivity].
  unfold forward_tail_via, bind, lift, getattr, ret.
  cbn -[structure_factor inverse_transform apply_scale call_layers_via].
  destruct (structure_factor fcos hres nb bs d s); [|reflexivity].
  cbn -[structure_factor inverse_transform apply_scale call_layers_via].
  destruct (structure_factor fsin hres nb bs d s); [|reflexivity].
  cbn -[structure_factor inverse_transform apply_scale call_layers_via].
  destruct (inverse_transform _ _ _ _ _ _ _); [|reflexivity].
  cbn -[structure_factor inverse_transform apply_scale call_layers_via].
  destruct (apply_scale _ _ _); [|reflexivity].
  cbn -[structure_factor inverse_transform apply_scale call_layers_via].
  destruct (call_layers_via _ _ _); [|reflexivity].
  cbn -[structure_factor inverse_transform apply_scale call_layers_via].
  destruct (return_k_params self); reflexivity.
Qed.

Lemma forward_run (self : instance F) h x k nb bs dot sd :
  forward h x k nb bs dot sd self =
  match call_layer (pre_residual self) h with
  | Raise e => (self, Raise e)
  | Ok hres =>
      match dot_value dot x k bs with
      | Raise e => (self, Raise e)
      | Ok d =>
          match damping_value self sd x k with
          | Raise e => (self, Raise e)
          | Ok s =>
              match filter_value self nb with
              | Raise e => (self, Raise e)
              | Ok kf =>
                  (set_kfilter kf self, forward_tail self h hres nb bs d s kf)
              end
          end
      end
  end.
Proof. exact (forward_via_run call_layer self h x k nb bs dot sd). Qed.

Lemma forward_snd (self : instance F) h x k nb bs dot sd :
  snd (forward h x k nb bs dot sd self) = forward_value self h x k nb bs dot sd.
Proof.
  rewrite forward_run. unfold forward_value.
  destruct (call_layer _ _); [|reflexivity]. cbn.
  destruct (dot_value _ _ _ _); [|reflexivity]. cbn.
  destruct (damping_value _ _ _ _); [|reflexivity]. cbn.
  destruct (filter_value _ _); reflexivity.
Qed.

(** A call that returns has stored the filter it computed. *)
Lemma forward_ok_state (self self1 : instance F) h x k nb bs dot sd ret :
  forward h x k nb bs dot sd self = (self1, Ok ret) ->
  exists kf, filter_value self nb = Ok kf /\ self1 = set_kfilter kf self.
Proof.
  rewrite forward_run.
  destruct (call_layer _ _); [|discriminate].
  destruct (dot_value _ _ _ _); [|discriminate].
  destruct (damping_value _ _ _ _); [|discriminate].
  destruct (filter_value _ _) as [kf|]; [|discriminate].
  intros E. inversion E. now exists kf.
Qed.

(** The value does not depend on the stored filter. *)
Lemma forward_value_set_kfilter (self : instance F) kf h x k nb bs dot sd :
  forward_value (set_kfilter kf self) h x k nb bs dot sd =
  forward_value self h x k nb bs dot sd.
Proof. reflexivity. Qed.

End EwaldRun.

(** ** The stages of [EwaldBlock.forward] on consistent shapes *)

Section EwaldStages.

Context {F : Type} `{Scalar F}.

Import EwaldBlock.

Lemma dim1_mk3 n m p (f : nat -> nat -> nat -> F) : dim1 (mk3 n m p f) = m.
Proof. reflexivity. Qed.

Lemma dim2_mk3 n m p (f : nat -> nat -> nat -> F) : dim2 (mk3 n m p f) = p.
Proof. reflexivity. Qed.

Lemma bix_one i : bix 1 i = 0.
Proof. reflexivity. Qed.

Lemma check_indices_ok size idx :
  forallb (in_range size) idx = true -> check_indices size idx = Ok tt.
Proof. unfold check_indices. now intros ->. Qed.

Lemma ix_lt size idx i :
  forallb (in_range size) idx = true -> i < length idx -> ix idx i < size.
Proof.
  intros Hall Hi. rewrite forallb_forall in Hall.
  specialize (Hall (nth i idx 0%Z) (nth_In _ _ Hi)).
  unfold in_range in Hall. apply andb_true_iff in Hall. destruct Hall as [H0 H1].
  apply Z.leb_le in H0. apply Z.ltb_lt in H1. unfold ix. lia.
Qed.

Lemma hits_lt idx b i : In i (hits idx b) -> i < length idx.
Proof.
  unfold hits. intros Hin. apply filter_In in Hin. destruct Hin as [Hin _].
  apply in_seq in Hin. lia.
Qed.

Lemma hits_ix idx b i : In i (hits idx b) -> ix idx i = b.
Proof.
  unfold hits. intros Hin. apply filter_In in Hin. destruct Hin as [_ E].
  now apply Nat.eqb_eq in E.
Qed.

Lemma call_layer_entries (l : Layer F) t :
  cols2 t = in_features l ->
  call_layer l t =
  Ok (mk2 (nrows t) (out_features l)
        (fun i j => nth j (row_fn l (row t i)) fzero)).
Proof. intros E. unfold call_layer. now rewrite E, Nat.eqb_refl. Qed.

Lemma compute_dot_entries x k bs :
  nrows x = length bs -> cols2 x = dim2 k ->
  forallb (in_range (dim0 k)) bs = true ->
  compute_dot x k bs = Ok (mk2 (length bs) (dim1 k) (dot_entry x k bs)).
Proof.
  intros Hx Hc Hr. unfold compute_dot, gather_batch.
  rewrite (check_indices_ok _ _ Hr).
  replace (if (dim1 k =? 0) || (dim2 k =? 0) then Ok tt else Ok tt)
    with (@Ok unit tt) by (destruct ((dim1 k =? 0) || (dim2 k =? 0)); reflexivity).
  unfold rbind at 1 2.
  unfold bop3, unsqueeze_m2.
  rewrite !dim0_mk3, !dim1_mk3, !dim2_mk3, Hx, Hc, !bdim_refl, bdim_one_r.
  unfold rbind. f_equal. unfold sum_last.
  rewrite dim0_mk3, dim1_mk3, dim2_mk3.
  apply mk2_ext. intros i j Hi Hj. unfold dot_entry. f_equal.
  apply tab_ext. intros c Hcc.
  rewrite get3_mk3 by assumption.
  rewrite !bix_lt by assumption. rewrite bix_one.
  rewrite !get3_mk3 by (assumption || lia). reflexivity.
Qed.

Lemma sinc_term_entries dk x c :
  c < cols2 x ->
  sinc_term dk x c =
  Ok (mk2 (nrows x) 1 (fun i _ => fsinc (fmul (fmul c_half dk) (get2 x i c)))).
Proof.
  intros Hc. unfold sinc_term, column.
  apply Nat.ltb_lt in Hc. rewrite Hc. unfold rbind. f_equal.
  unfold smul2, map2. rewrite !nrows_mk2, !cols2_mk2.
  apply mk2_ext. intros i j Hi Hj.
  rewrite !get2_mk2 by assumption. reflexivity.
Qed.

Lemma compute_sinc_damping_entries dk x (k : tensor3 F) :
  cols2 x = 3 ->
  compute_sinc_damping false (Some dk) x k =
  Ok (DampTensor (mk2 (nrows x) (dim1 k) (fun i _ => sinc_entry dk x i))).
Proof.
  intros Hc. unfold compute_sinc_damping. cbv [negb].
  rewrite !sinc_term_entries by lia. unfold rbind at 1 2.
  rewrite bop2_same by (rewrite ?nrows_mk2, ?cols2_mk2; reflexivity).
  unfold rbind at 1 2.
  rewrite bop2_same by (rewrite ?nrows_mk2, ?cols2_mk2; reflexivity).
  unfold rbind at 1. unfold expand2.
  rewrite !nrows_mk2, !cols2_mk2, expand_dim_keep, expand_dim_one.
  unfold rbind. do 2 f_equal.
  apply mk2_ext. intros i j Hi Hj. rewrite bix_one, bix_lt by assumption.
  rewrite !get2_mk2 by (assumption || lia). reflexivity.
Qed.

Lemma phase_entries sd trig dot hres n m :
  shape2 dot n m -> damping_shape sd n m ->
  phase sd trig dot hres =
  Ok (mk3 n m (cols2 hres) (fun i j _ => weight sd trig dot i j)).
Proof.
  intros [Hn Hm] Hsd. unfold phase.
  assert (Ew : damp sd (map2 trig dot) =
               Ok (mk2 n m (fun i j => weight sd trig dot i j))).
  { destruct sd as [c|t]; unfold damp.
    - unfold smul2, map2. rewrite !nrows_mk2, !cols2_mk2, Hn, Hm. f_equal.
      apply mk2_ext. intros i j Hi Hj. now rewrite get2_mk2.
    - destruct Hsd as [Htn Htm].
      rewrite bop2_same
        by (unfold map2; rewrite ?nrows_mk2, ?cols2_mk2; congruence).
      rewrite Htn, Htm. f_equal.
      apply mk2_ext. intros i j Hi Hj. unfold map2, weight. simpl damping_at.
      rewrite get2_mk2 by congruence. reflexivity. }
  rewrite Ew. unfold rbind, expand3, unsqueeze_m1.
  rewrite !dim0_mk3, !dim1_mk3, !dim2_mk3, !nrows_mk2, !cols2_mk2.
  rewrite !expand_dim_keep, expand_dim_one. unfold rbind. f_equal.
  apply mk3_ext. intros i j c Hi Hj Hc.
  rewrite bix_one, !bix_lt by assumption.
  rewrite get3_mk3 by (assumption || lia). now rewrite get2_mk2.
Qed.

Lemma structure_factor_entries trig hres nb bs dot sd n m e :
  shape2 hres n e -> shape2 dot n m -> damping_shape sd n m ->
  length bs = n -> forallb (in_range nb) bs = true ->
  structure_factor trig hres nb bs dot sd =
  Ok (mk3 nb m e (sf_entry trig hres bs dot sd)).
Proof.
  intros [Hn He] Hdot Hsd Hl Hr. unfold structure_factor.
  rewrite (phase_entries _ _ _ Hdot Hsd). destruct Hdot as [Hdn Hdm].
  unfold expand3, unsqueeze_m2.
  rewrite !dim0_mk3, !dim1_mk3, !dim2_mk3, Hn, He, Hdm.
  rewrite !expand_dim_keep, expand_dim_one. steps.
  rewrite bop3_same by (rewrite ?dim0_mk3, ?dim1_mk3, ?dim2_mk3; reflexivity).
  steps. unfold zeros_index_add.
  rewrite !dim0_mk3, !dim1_mk3, !dim2_mk3, Hl, !Nat.eqb_refl.
  cbv [negb andb]. rewrite (check_indices_ok _ _ Hr). steps.
  f_equal. apply mk3_ext. intros b j c Hb Hj Hc.
  unfold sf_entry. f_equal. apply map_ext_in. intros i Hi.
  apply hits_lt in Hi. rewrite Hl in Hi.
  rewrite get3_mk3 by assumption.
  rewrite !get3_mk3 by assumption.
  rewrite bix_one, !bix_lt by assumption.
  rewrite !get3_mk3 by (assumption || lia). reflexivity.
Qed.

Lemma filtered_entries trig sf kf bs dot sd hres nb n m e :
  shape3 sf nb m e -> shape3 kf nb m e ->
  shape2 hres n e -> shape2 dot n m -> damping_shape sd n m ->
  length bs = n -> forallb (in_range nb) bs = true ->
  filtered trig sf kf bs dot sd hres =
  Ok (mk3 n m e (fun i j c =>
        fmul (fmul (get3 sf (ix bs i) j c) (get3 kf (ix bs i) j c))
             (weight sd trig dot i j))).
Proof.
  intros (Hs0 & Hs1 & Hs2) (Hk0 & Hk1 & Hk2) [Hn He] Hdot Hsd Hl Hr.
  unfold filtered.
  rewrite bop3_same by congruence. steps.
  unfold index_select3. rewrite dim0_mk3, dim1_mk3, dim2_mk3, Hs0.
  rewrite (check_indices_ok _ _ Hr). steps.
  rewrite (phase_entries _ _ _ Hdot Hsd). steps.
  rewrite bop3_same
    by (rewrite ?dim0_mk3, ?dim1_mk3, ?dim2_mk3; congruence).
  rewrite dim0_mk3, dim1_mk3, dim2_mk3, Hl, Hs1, Hs2, He. f_equal.
  apply mk3_ext. intros i j c Hi Hj Hc.
  assert (Hix : ix bs i < nb) by (apply ix_lt; [assumption | now rewrite Hl]).
  rewrite !get3_mk3 by (assumption || congruence). reflexivity.
Qed.

Lemma inverse_transform_entries sfr sfi kf bs dot sd hres nb n m e :
  shape3 sfr nb m e -> shape3 sfi nb m e -> shape3 kf nb m e ->
  shape2 hres n e -> shape2 dot n m -> damping_shape sd n m ->
  length bs = n -> forallb (in_range nb) bs = true ->
  inverse_transform sfr sfi kf bs dot sd hres =
  Ok (mk2 n e (update_entry sfr sfi kf bs dot sd m)).
Proof.
  intros Hr Hi Hk Hh Hd Hsd Hl Hrange. unfold inverse_transform.
  rewrite !filtered_entries with (nb := nb) (n := n) (m := m) (e := e)
    by assumption.
  steps.
  rewrite bop3_same by (rewrite ?dim0_mk3, ?dim1_mk3, ?dim2_mk3; reflexivity).
  steps.
  f_equal. unfold smul2, map2, sum_dim1.
  rewrite !dim0_mk3, !dim1_mk3, !dim2_mk3, !nrows_mk2, !cols2_mk2.
  apply mk2_ext. intros i c Hii Hc. rewrite get2_mk2 by assumption.
  unfold update_entry. do 2 f_equal. apply tab_ext. intros j Hj.
  rewrite get3_mk3 by assumption. now rewrite !get3_mk3.
Qed.

Lemma pbc_filter_entries (upw dnw : tensor2 F) nb :
  cols2 upw = nrows dnw ->
  pbc_filter upw dnw nb =
  Ok (mk3 nb (cols2 dnw) (nrows upw) (fun _ j c =>
        fsum (tab (cols2 upw) (fun q => fmul (get2 upw c q) (get2 dnw q j))))).
Proof.
  intros E. unfold pbc_filter, matmul. rewrite E, Nat.eqb_refl. steps.
  unfold expand3, unsqueeze_0, transpose.
  rewrite !dim0_mk3, !dim1_mk3, !dim2_mk3, !nrows_mk2, !cols2_mk2.
  rewrite !expand_dim_keep, expand_dim_one. steps. f_equal.
  apply mk3_ext. intros b j c Hb Hj Hc.
  rewrite bix_one, !bix_lt by assumption.
  rewrite get3_mk3 by (assumption || lia).
  rewrite get2_mk2 by assumption. now rewrite get2_mk2.
Qed.

Lemma rbf_filter_entries (upl dnl : Layer F) rbf :
  cols2 rbf = in_features dnl -> out_features dnl = in_features upl ->
  exists g, forall nb,
    rbf_filter upl dnl rbf nb = Ok (mk3 nb (nrows rbf) (out_features upl) (fun _ => g)).
Proof.
  intros E1 E2.
  exists (fun j c =>
    get2 (mk2 (nrows rbf) (out_features upl) (fun i j0 =>
      nth j0 (row_fn upl (row (mk2 (nrows rbf) (out_features dnl) (fun i0 j1 =>
        nth j1 (row_fn dnl (row rbf i0)) fzero)) i)) fzero)) j c).
  intros nb'. unfold rbf_filter, rbf_filter_via.
  rewrite (call_layer_entries _ _ E1). steps.
  rewrite call_layer_entries by (rewrite cols2_mk2; exact E2). steps.
  unfold expand3, unsqueeze_0.
  rewrite !dim0_mk3, !dim1_mk3, !dim2_mk3, !nrows_mk2, !cols2_mk2.
  rewrite !expand_dim_keep, expand_dim_one. steps. f_equal.
  apply mk3_ext. intros b j c Hb Hj Hc.
  rewrite bix_one, !bix_lt by assumption.
  rewrite get3_mk3 by (assumption || lia). reflexivity.
Qed.

Lemma call_layer_keeps_extents : keeps_extents (@call_layer F _).
Proof.
  intros l t E. eexists. now rewrite (call_layer_entries _ _ E).
Qed.

Lemma rbf_filter_via_entries (call : LayerCall F) (upl dnl : Layer F) rbf :
  keeps_extents call ->
  cols2 rbf = in_features dnl -> out_features dnl = in_features upl ->
  exists g, forall nb,
    rbf_filter_via call upl dnl rbf nb =
    Ok (mk3 nb (nrows rbf) (out_features upl) (fun _ => g)).
Proof.
  intros Hk E1 E2.
  destruct (Hk dnl rbf E1) as [f1 Ef1].
  destruct (Hk upl (mk2 (nrows rbf) (out_features dnl) f1)) as [f2 Ef2];
    [rewrite cols2_mk2; exact E2|].
  rewrite nrows_mk2 in Ef2.
  exists f2. intros nb'. unfold rbf_filter_via.
  rewrite Ef1. steps. rewrite Ef2. steps.
  unfold expand3, unsqueeze_0.
  rewrite !dim0_mk3, !dim1_mk3, !dim2_mk3, !nrows_mk2, !cols2_mk2.
  rewrite !expand_dim_keep, expand_dim_one. steps. f_equal.
  apply mk3_ext. intros b j c Hb Hj Hc.
  rewrite bix_one, !bix_lt by assumption.
  rewrite get3_mk3 by (assumption || lia). now rewrite get2_mk2.
Qed.

Lemma filter_value_via_entries (call : LayerCall F) (self : instance F)
    E P nh N K B h x k bs :
  keeps_extents call ->
  constructed E P nh self -> consistent E N K B self h x k bs ->
  exists g, forall nb,
    filter_value_via call self nb = Ok (mk3 nb K E (fun _ => g)).
Proof.
  intros Hk C S. unfold filter_value_via.
  destruct (use_pbc self) eqn:Epbc.
  - destruct (filter_pbc S Epbc) as [E1 E2].
    eexists. intros nb. rewrite pbc_filter_entries by (symmetry; exact E1).
    rewrite E2, (up_weight_rows C). reflexivity.
  - destruct (filter_rbf S Epbc) as (dk & rbf & _ & Er & Hn & Hc & Ho).
    rewrite Er.
    destruct (rbf_filter_via_entries (dense_layer (up self))
                (dense_layer (down self)) rbf Hk Hc Ho) as [g Hg].
    exists g. intros nb. rewrite Hg, Hn, (up_out C). reflexivity.
Qed.

Lemma filter_value_entries (self : instance F) E P nh N K B h x k bs :
  constructed E P nh self -> consistent E N K B self h x k bs ->
  exists g, forall nb, filter_value self nb = Ok (mk3 nb K E (fun _ => g)).
Proof. exact (filter_value_via_entries call_layer_keeps_extents). Qed.

Lemma call_layers_square (ls : list (Layer F)) e t :
  Forall (square_layer e) ls -> cols2 t = e ->
  exists t', call_layers ls t = Ok t' /\ shape2 t' (nrows t) e.
Proof.
  intros Hls. revert t. induction Hls as [|l ls [Hin Hout] _ IH]; intros t Ht.
  - exists t. split; [reflexivity | now split].
  - unfold call_layers. simpl foldM.
    rewrite call_layer_entries by congruence. steps.
    destruct (IH (mk2 (nrows t) (out_features l)
                    (fun i j => nth j (row_fn l (row t i)) fzero)))
      as (t' & Et & Hr & Hc); [rewrite cols2_mk2; exact Hout|].
    exists t'. split; [exact Et|]. rewrite nrows_mk2 in Hr. now split.
Qed.

Lemma call_layers_via_square (call : LayerCall F) (ls : list (Layer F)) e t :
  keeps_extents call ->
  Forall (square_layer e) ls -> cols2 t = e ->
  exists t', call_layers_via call ls t = Ok t' /\ shape2 t' (nrows t) e.
Proof.
  intros Hk Hls. revert t.
  induction Hls as [|l ls [Hin Hout] _ IH]; intros t Ht.
  - exists t. split; [reflexivity | now split].
  - unfold call_layers_via. simpl foldM.
    destruct (Hk l t) as [f Ef]; [congruence|]. rewrite Ef. steps.
    destruct (IH (mk2 (nrows t) (out_features l) f))
      as (t' & Et & Hr & Hc); [rewrite cols2_mk2; exact Hout|].
    exists t'. split; [exact Et|]. rewrite nrows_mk2 in Hr. now split.
Qed.

Lemma forward_tail_via_entries (call : LayerCall F) (self : instance F)
    h hres nb bs dot sd kf n m e :
  shape2 hres n e -> shape2 dot n m -> damping_shape sd n m ->
  shape3 kf nb m e -> length bs = n -> forallb (in_range nb) bs = true ->
  forward_tail_via call self h hres nb bs dot sd kf =
  let* scaled :=
    apply_scale (ewald_scale_sum self)
      (mk2 n e (update_entry (mk3 nb m e (sf_entry fcos hres bs dot sd))
                             (mk3 nb m e (sf_entry fsin hres bs dot sd))
                             kf bs dot sd m)) h in
  let* h_update := call_layers_via call (ewald_layers self) scaled in
  Ok (if return_k_params self then RetTriple h_update dot sd
      else RetUpdate h_update).
Proof.
  intros Hh Hd Hsd Hk Hl Hr. unfold forward_tail_via.
  rewrite !structure_factor_entries with (n := n) (m := m) (e := e)
    by assumption.
  steps.
  rewrite inverse_transform_entries with (nb := nb) (n := n) (m := m) (e := e);
    try assumption;
    repeat split; rewrite ?dim0_mk3; reflexivity.
Qed.

Lemma forward_tail_entries (self : instance F) h hres nb bs dot sd kf n m e :
  shape2 hres n e -> shape2 dot n m -> damping_shape sd n m ->
  shape3 kf nb m e -> length bs = n -> forallb (in_range nb) bs = true ->
  forward_tail self h hres nb bs dot sd kf =
  let* scaled :=
    apply_scale (ewald_scale_sum self)
      (mk2 n e (update_entry (mk3 nb m e (sf_entry fcos hres bs dot sd))
                             (mk3 nb m e (sf_entry fsin hres bs dot sd))
                             kf bs dot sd m)) h in
  let* h_update := call_layers (ewald_layers self) scaled in
  Ok (if return_k_params self then RetTriple h_update dot sd
      else RetUpdate h_update).
Proof. exact (@forward_tail_via_entries call_layer self h hres nb bs dot sd kf n m e). Qed.

End EwaldStages.

(** ** Properties of [EwaldBlock.forward] *)

Section EwaldClaims.

Context {F : Type} `{Scalar F}.

Import EwaldBlock.

Lemma forward_tail_k_params (self : instance F) h hres nb bs d0 s0 kf u d s :
  forward_tail self h hres nb bs d0 s0 kf = Ok (RetTriple u d s) ->
  d = d0 /\ s = s0.
Proof.
  unfold forward_tail, forward_tail_via.
  destruct (structure_factor fcos _ _ _ _ _); [|discriminate]. steps.
  destruct (structure_factor fsin _ _ _ _ _); [|discriminate]. steps.
  destruct (inverse_transform _ _ _ _ _ _ _); [|discriminate]. steps.
  destruct (apply_scale _ _ _); [|discriminate]. steps.
  destruct (call_layers_via _ _ _); [|discriminate]. steps.
  destruct (return_k_params self); intros E; inversion E; now split.
Qed.

(** C1.  A first call computes the dot products and the damping itself and
    returns them.  A second call that is handed these two values returns
    what a second call that recomputes them returns, and both reproduce
    the output of the first call. *)
Theorem ewald_forward_reuses_k_params
    (self self1 : instance F) h x k nb bs u d s :
  forward h x k nb bs None None self = (self1, Ok (RetTriple u d s)) ->
  forward h x k nb bs (Some d) (Some s) self1 =
    forward h x k nb bs None None self1 /\
  snd (forward h x k nb bs (Some d) (Some s) self1) = Ok (RetTriple u d s).
Proof.
  intros Hf. destruct (forward_ok_state _ _ _ _ _ _ _ _ Hf) as (kf & Ekf & ->).
  rewrite forward_run in Hf.
  destruct (call_layer (pre_residual self) h) as [hres|] eqn:Eh; [|discriminate].
  destruct (dot_value None x k bs) as [d0|] eqn:Ed; [|discriminate].
  destruct (damping_value self None x k) as [s0|] eqn:Es; [|discriminate].
  rewrite Ekf in Hf. inversion Hf as [Ht].
  destruct (forward_tail_k_params _ _ _ _ _ _ _ _ Ht) as [-> ->].
  rewrite !forward_run.
  change (pre_residual (set_kfilter kf self)) with (pre_residual self).
  change (damping_value (set_kfilter kf self)) with (damping_value self).
  change (filter_value (set_kfilter kf self)) with (filter_value self).
  change (forward_tail (set_kfilter kf self)) with (forward_tail self).
  rewrite Eh, Ed, Es, Ekf. cbn [dot_value damping_value].
  split; [reflexivity | cbn [snd]; first [exact Ht | reflexivity]].
Qed.

Lemma dot_value_shape (self : instance F) E N K B h x k bs dot :
  consistent E N K B self h x k bs ->
  (forall d, dot = Some d -> shape2 d N K) ->
  exists d, dot_value dot x k bs = Ok d /\ shape2 d N K /\
            d = match dot with
                | Some d0 => d0
                | None => dot_tensor x k bs
                end.
Proof.
  intros S Hd. destruct dot as [d|].
  - exists d. split; [reflexivity|]. split; [now apply Hd | reflexivity].
  - unfold dot_value. rewrite compute_dot_entries.
    + eexists. split; [reflexivity|]. split; [|reflexivity].
      split; [rewrite nrows_mk2; exact (seg_length S) | exact (k_dim1 S)].
    + now rewrite (x_rows S), (seg_length S).
    + now rewrite (x_cols S), (k_dim2 S).
    + rewrite (k_dim0 S). exact (seg_range S).
Qed.

Lemma damping_value_shape (self : instance F) E N K B h x k bs sd :
  consistent E N K B self h x k bs ->
  (forall s, sd = Some s -> damping_shape s N K) ->
  exists s, damping_value self sd x k = Ok s /\ damping_shape s N K /\
            s = match sd with
                | Some s0 => s0
                | None => damping_entries self x k
                end.
Proof.
  intros S Hs. destruct sd as [s|].
  - exists s. split; [reflexivity|]. split; [now apply Hs | reflexivity].
  - unfold damping_value, damping_entries. destruct (use_pbc self) eqn:Epbc.
    + exists (DampScalar fone). split; [reflexivity|].
      split; [exact I | reflexivity].
    + destruct (filter_rbf S Epbc) as (dk & rbf & Edk & _).
      rewrite Edk, compute_sinc_damping_entries by exact (x_cols S).
      eexists. split; [reflexivity|]. split; [|reflexivity]. simpl.
      split; [rewrite nrows_mk2; exact (x_rows S) | exact (k_dim1 S)].
Qed.

(** C2.  On inputs of consistent shapes [forward] returns, and the update
    has shape [(numAtoms, emb_size_atom)] whatever [numK] and [numBatch]
    are.  With [return_k_params] set the result is the triple of the
    update, the dot products and the damping, and these two are the ones
    the call worked with: the tensors it was handed, or else the dot
    products [k . x] of every atom with the reciprocal vectors of its own
    structure and the damping of lines 146-154, both of shape
    [(numAtoms, numK)].  Without [return_k_params] the result is the update
    alone. *)
Theorem ewald_forward_shape
    (self : instance F) E P nh N K B h x k bs dot sd :
  constructed E P nh self -> consistent E N K B self h x k bs ->
  (forall d, dot = Some d -> shape2 d N K) ->
  (forall s, sd = Some s -> damping_shape s N K) ->
  exists self1 ret,
    forward h x k B bs dot sd self = (self1, Ok ret) /\
    shape2 (h_update_of ret) N E /\
    (return_k_params self = true ->
       exists d s, ret = RetTriple (h_update_of ret) d s /\
                   shape2 d N K /\ damping_shape s N K /\
                   d = match dot with
                       | Some d0 => d0
                       | None => dot_tensor x k bs
                       end /\
                   s = match sd with
                       | Some s0 => s0
                       | None => damping_entries self x k
                       end /\
                   (dot = None -> forall i j, i < N -> j < K ->
                      get2 d i j =
                      fsum (tab 3 (fun c =>
                        fmul (get3 k (ix bs i) j c) (get2 x i c)))) /\
                   (sd = None -> forall i j, i < N -> j < K ->
                      damping_at s i j =
                      if use_pbc self then fone
                      else match delta_k self with
                           | Some dk => sinc_entry dk x i
                           | None => fone
                           end)) /\
    (return_k_params self = false -> ret = RetUpdate (h_update_of ret)).
Proof.
  intros C S Hd Hs. rewrite forward_run.
  destruct (pre_square C) as [Pin Pout].
  rewrite call_layer_entries by (rewrite (h_cols S); symmetry; exact Pin).
  set (hres := mk2 (nrows h) _ _).
  assert (Hh : shape2 hres N E).
  { split; [unfold hres; rewrite nrows_mk2; exact (h_rows S) | exact Pout]. }
  destruct (dot_value_shape S Hd) as (d & -> & Hds & Ed).
  destruct (damping_value_shape S Hs) as (s & -> & Hss & Es).
  destruct (filter_value_entries C S) as [g ->].
  rewrite forward_tail_entries with (n := N) (m := K) (e := E);
    try assumption;
    [ | repeat split; apply dim0_mk3 | exact (seg_length S) | exact (seg_range S)].
  set (raw := mk2 N E _).
  assert (Hsc : exists t, apply_scale (ewald_scale_sum self) raw h = Ok t /\
                          shape2 t N E).
  { unfold apply_scale. destruct (ewald_scale_sum self) as [sc|] eqn:Esc.
    - destruct (scale_shape S Esc raw h) as (t & Et & Hr & Hc).
      exists t. split; [exact Et|].
      unfold raw in Hr, Hc. rewrite nrows_mk2 in Hr. now split.
    - exists raw. split; [reflexivity|].
      split; [apply nrows_mk2 | reflexivity]. }
  destruct Hsc as (t & -> & Htn & Htc). steps.
  destruct (call_layers_square t (mlp_square C) Htc) as (t' & -> & Hn' & Hc').
  steps. rewrite Htn in Hn'.
  eexists _, _. split; [reflexivity|].
  destruct (return_k_params self); simpl h_update_of.
  - split; [split; assumption|]. split; [|intros E'; discriminate E'].
    intros _. exists d, s. split; [reflexivity|].
    split; [assumption|]. split; [assumption|].
    split; [exact Ed|]. split; [exact Es|]. split.
    + intros -> i j Hi Hj. rewrite Ed. unfold dot_tensor.
      rewrite get2_mk2 by (rewrite ?(seg_length S), ?(k_dim1 S); assumption).
      unfold dot_entry. now rewrite (k_dim2 S).
    + intros -> i j Hi Hj. rewrite Es. unfold damping_entries.
      destruct (use_pbc self); [reflexivity|].
      destruct (delta_k self) as [dk|]; [|reflexivity].
      simpl damping_at.
      rewrite get2_mk2 by (rewrite ?(x_rows S), ?(k_dim1 S); assumption).
      reflexivity.
  - split; [split; assumption|]. split; [intros E'; discriminate E'|].
    reflexivity.
Qed.

Lemma matmul_ok (a b m : tensor2 F) :
  matmul a b = Ok m ->
  cols2 a = nrows b /\ nrows m = nrows a /\ cols2 m = cols2 b /\
  forall i j, i < nrows a -> j < cols2 b ->
    get2 m i j = fsum (tab (cols2 a) (fun q => fmul (get2 a i q) (get2 b q j))).
Proof.
  unfold matmul. destruct (Nat.eqb_spec (cols2 a) (nrows b)) as [E|]; [|discriminate].
  intros Em. inversion Em. rewrite nrows_mk2, cols2_mk2.
  repeat split; try assumption.
  intros i j Hi Hj. now rewrite get2_mk2.
Qed.

(** C3.  With [use_pbc = True], a call that returns has stored in
    [self.kfilter] the transposed product of the upprojection and
    downprojection weights, the same for every structure of the batch.  The
    stored value is the one computed from the weights in this call: it does
    not depend on what [self.kfilter] held before. *)
Theorem pbc_filter_recomputed
    (self self1 : instance F) h x k nb bs dot sd ret :
  use_pbc self = true ->
  forward h x k nb bs dot sd self = (self1, Ok ret) ->
  exists m kf,
    matmul (linear_weight (up self)) (linear_weight (down self)) = Ok m /\
    kfilter self1 = Some kf /\
    pbc_filter (linear_weight (up self)) (linear_weight (down self)) nb = Ok kf /\
    shape3 kf nb (cols2 m) (nrows m) /\
    forall b j c, b < nb -> j < cols2 m -> c < nrows m ->
      get3 kf b j c = get2 m c j /\
      get3 kf b j c =
        fsum (tab (cols2 (linear_weight (up self)))
                  (fun q => fmul (get2 (linear_weight (up self)) c q)
                                 (get2 (linear_weight (down self)) q j))).
Proof.
  intros Hpbc Hf.
  destruct (forward_ok_state _ _ _ _ _ _ _ _ Hf) as (kf & Ekf & ->).
  unfold filter_value, filter_value_via in Ekf. rewrite Hpbc in Ekf.
  destruct (matmul (linear_weight (up self)) (linear_weight (down self)))
    as [m|] eqn:Em.
  2:{ unfold pbc_filter in Ekf. rewrite Em in Ekf. discriminate. }
  destruct (matmul_ok _ _ Em) as (Ec & Hn & Hc & Hget).
  exists m, kf. split; [reflexivity|]. split; [reflexivity|].
  split; [exact Ekf|].
  rewrite pbc_filter_entries in Ekf by exact Ec. inversion Ekf as [Ek].
  split.
  - repeat split; [apply dim0_mk3 | now rewrite Hc | now rewrite Hn].
  - intros b j c Hb Hj Hcc. rewrite Hc in Hj. rewrite Hn in Hcc.
    rewrite get3_mk3 by assumption. split; [|reflexivity].
    symmetry. now apply Hget.
Qed.

(** C4.  With [use_pbc = True], the damping that [forward] computes when
    none is supplied is the number one, for every atom and every mode. *)
Theorem pbc_damping_is_one (self : instance F) h x k nb bs dot :
  use_pbc self = true ->
  damping_value self None x k = Ok (DampScalar fone) /\
  (forall i j, damping_at (DampScalar fone) i j = fone) /\
  (forall self1 u d s,
     forward h x k nb bs dot None self = (self1, Ok (RetTriple u d s)) ->
     s = DampScalar fone).
Proof.
  intros Hpbc.
  assert (Ev : damping_value self None x k = Ok (DampScalar fone)).
  { unfold damping_value. rewrite Hpbc. reflexivity. }
  split; [exact Ev|]. split; [reflexivity|].
  intros self1 u d s Hf. rewrite forward_run in Hf.
  destruct (call_layer _ _) as [hres|]; [|discriminate].
  destruct (dot_value _ _ _ _) as [d0|]; [|discriminate].
  rewrite Ev in Hf.
  destruct (filter_value _ _) as [kf|]; [|discriminate].
  inversion Hf as [[Hs Ht]].
  now destruct (forward_tail_k_params _ _ _ _ _ _ _ _ Ht) as [_ ->].
Qed.


End EwaldClaims.

(** ** Properties of [HadamardBlock] *)

Section HadamardClaims.

Context {F : Type} `{Scalar F}.

Import HadamardBlock.

Lemma filter_none {A} (f : A -> bool) (l : list A) :
  (forall a, In a l -> f a = false) -> filter f l = [].
Proof.
  induction l as [|a l IH]; intros Hf; [reflexivity|].
  simpl. rewrite (Hf a (or_introl eq_refl)). apply IH.
  intros b Hb. apply Hf. now right.
Qed.

Lemma tab_const {A} (n : nat) (a : A) : tab n (fun _ => a) = repeat a n.
Proof.
  unfold tab. generalize 0. induction n as [|n IH]; intros s; [reflexivity|].
  simpl. now rewrite IH.
Qed.

Lemma hits_none size idx t :
  forallb (in_range size) idx = true ->
  ~ In (Z.of_nat t) idx -> hits idx t = [].
Proof.
  intros Hr Hnot. unfold hits. apply filter_none. intros i Hi.
  apply in_seq in Hi. apply Nat.eqb_neq. intros E. apply Hnot.
  assert (Hlt : i < length idx) by lia.
  rewrite forallb_forall in Hr.
  specialize (Hr _ (nth_In idx 0%Z Hlt)).
  unfold in_range in Hr. apply andb_true_iff in Hr. destruct Hr as [H0 _].
  apply Z.leb_le in H0. unfold ix in E.
  replace (Z.of_nat t) with (nth i idx 0%Z) by lia.
  now apply nth_In.
Qed.

Lemma scatter_sum_ok (src : tensor2 F) idx n x2 :
  scatter_sum src idx n = Ok x2 ->
  exists idx',
    (forall z, In z idx' -> In z idx) /\
    forallb (in_range n) idx' = true /\
    x2 = mk2 n (cols2 src) (fun t c =>
           fsum (map (fun e => get2 src e c) (hits idx' t))).
Proof.
  unfold scatter_sum.
  destruct (Nat.eqb_spec (length idx) (nrows src)) as [E|NE].
  - steps. unfold check_indices.
    destruct (forallb (in_range n) idx) eqn:Hr; [|discriminate].
    steps. intros Eq. inversion Eq. exists idx. now repeat split.
  - destruct (Nat.eqb_spec (length idx) 1) as [E1|]; [|discriminate].
    steps. unfold check_indices.
    destruct (forallb (in_range n) _) eqn:Hr; [|discriminate].
    steps. intros Eq. inversion Eq. eexists. split; [|split; [exact Hr|reflexivity]].
    intros z Hz. apply repeat_spec in Hz. subst z. apply nth_In. lia.
Qed.

(** C8.  The aggregate formed before the scale and update steps has one
    row per atom, and the row of an atom that no entry of [idx_t] names is
    the all-zero vector. *)
Theorem hadamard_aggregate_zero_fill
    (self : instance F) h bf idx_s idx_t x2 :
  aggregate self h bf idx_s idx_t = Ok x2 ->
  nrows x2 = nrows h /\
  forall t, t < nrows h -> ~ In (Z.of_nat t) idx_t ->
    row x2 t = zero_row (cols2 x2).
Proof.
  unfold aggregate.
  destruct (call_layer (pre_residual self) h) as [h_res|]; [|discriminate]. steps.
  destruct (call_layer _ bf) as [mlp_bf|]; [|discriminate]. steps.
  destruct (index_select2 h_res idx_s) as [sel|]; [|discriminate]. steps.
  destruct (bop2 fmul sel mlp_bf) as [x|]; [|discriminate]. steps.
  intros Hs. destruct (scatter_sum_ok _ _ _ Hs) as (idx' & Hin & Hr & ->).
  split; [apply nrows_mk2|].
  intros t Ht Hnot. rewrite row_mk2 by assumption. rewrite cols2_mk2.
  unfold zero_row. rewrite <- tab_const. apply tab_ext. intros c _.
  rewrite (hits_none _ _ t Hr); [reflexivity|].
  intros Hc. apply Hnot. now apply Hin.
Qed.

(** C10.  Constructing a [HadamardBlock] raises [NameError] for the name
    [ScalingFactor], whatever the arguments and however the imported
    classes build their instances; so no instance exists on which
    [forward] could be called. *)
Theorem hadamard_init_raises_name_error
    (new_Dense : nat -> nat -> Dense F) (new_ResidualLayer : nat -> Layer F)
    (new_ScaleFactor : string -> ScaleFactor F)
    (emb_size_atom emb_size_bf nHidden : nat)
    (scale_file : option string) (name : string) :
  init new_Dense new_ResidualLayer new_ScaleFactor
       emb_size_atom emb_size_bf nHidden scale_file name
    = Raise (NameError "ScalingFactor") /\
  forall self,
    init new_Dense new_ResidualLayer new_ScaleFactor
         emb_size_atom emb_size_bf nHidden scale_file name <> Ok self.
Proof.
  assert (E : init new_Dense new_ResidualLayer new_ScaleFactor
                   emb_size_atom emb_size_bf nHidden scale_file name
              = Raise (NameError "ScalingFactor")) by reflexivity.
  split; [exact E|]. intros self. rewrite E. discriminate.
Qed.

End HadamardClaims.

(** ** The rescaling step of [HadamardBlock.forward] *)

Section HadamardScale.

Context {F : Type} `{Scalar F}.

Import HadamardBlock.


End HadamardScale.

(** ** Reordering the edges of [HadamardBlock.forward] *)

Section EdgeOrder.

Context {F : Type} `{Scalar F}.

Import HadamardBlock.

Lemma nth_seq_id {A} (l : list A) (d : A) :
  map (fun i => nth i l d) (seq 0 (length l)) = l.
Proof.
  induction l as [|a l IH]; [reflexivity|].
  simpl. f_equal. rewrite <- seq_shift, map_map. exact IH.
Qed.

Lemma map_nth_perm {A} (g : nat -> A) (perm : list nat) :
  map (fun i => g (nth i perm 0)) (seq 0 (length perm)) = map g perm.
Proof.
  rewrite <- (map_map (fun i => nth i perm 0) g). now rewrite nth_seq_id.
Qed.

Lemma nth_map_lt {A B} (g : A -> B) (l : list A) (i : nat) (da : A) (db : B) :
  i < length l -> nth i (map g l) db = g (nth i l da).
Proof.
  intros Hi. rewrite (nth_indep _ db (g da)) by now rewrite length_map.
  apply map_nth.
Qed.

Lemma forallb_perm {A} (f : A -> bool) (l l' : list A) :
  Permutation l l' -> forallb f l = forallb f l'.
Proof.
  induction 1 as [|a l l' _ IH|a b l|l l' l'' _ IH1 _ IH2]; simpl.
  - reflexivity.
  - now rewrite IH.
  - destruct (f a), (f b); reflexivity.
  - congruence.
Qed.

Lemma filter_perm {A} (f : A -> bool) (l l' : list A) :
  Permutation l l' -> Permutation (filter f l) (filter f l').
Proof.
  induction 1 as [|a l l' _ IH|a b l|l l' l'' _ IH1 _ IH2]; simpl.
  - constructor.
  - destruct (f a); [now constructor | exact IH].
  - destruct (f a), (f b); try reflexivity. constructor.
  - now transitivity (filter f l').
Qed.

(** In exact arithmetic a sum does not depend on the order of its terms. *)
Lemma fold_fadd_perm (L : ExactAdd F) (l l' : list F) :
  Permutation l l' -> forall a, fold_left fadd l a = fold_left fadd l' a.
Proof.
  induction 1 as [|x l l' _ IH|x y l|l l' l'' _ IH1 _ IH2]; intros a; simpl.
  - reflexivity.
  - apply IH.
  - f_equal. rewrite <- !(fadd_assoc L). f_equal. apply (fadd_comm L).
  - now rewrite IH1.
Qed.

Lemma fsum_perm (L : ExactAdd F) (l l' : list F) :
  Permutation l l' -> fsum l = fsum l'.
Proof. intros P. unfold fsum. now apply fold_fadd_perm. Qed.

Section Perm.

Variable perm : list nat.
Variable E : nat.
Hypothesis Hperm : Permutation perm (seq 0 E).

Lemma perm_length : length perm = E.
Proof. rewrite (Permutation_length Hperm). apply length_seq. Qed.

Lemma perm_lt i : In i perm -> i < E.
Proof.
  intros Hi. apply (Permutation_in _ Hperm) in Hi. apply in_seq in Hi. lia.
Qed.

Lemma perm_nth_lt i : i < E -> nth i perm 0 < E.
Proof. intros Hi. apply perm_lt, nth_In. now rewrite perm_length. Qed.

Lemma nrows_permute (t : tensor2 F) : nrows (permute_rows perm t) = E.
Proof. unfold nrows, permute_rows. simpl. now rewrite length_map, perm_length. Qed.

Lemma row_permute (t : tensor2 F) i :
  i < E -> row (permute_rows perm t) i = row t (nth i perm 0).
Proof.
  intros Hi. unfold row at 1. unfold permute_rows. simpl.
  apply nth_map_lt. now rewrite perm_length.
Qed.

Lemma get2_permute (t : tensor2 F) i j :
  i < E -> get2 (permute_rows perm t) i j = get2 t (nth i perm 0) j.
Proof. intros Hi. unfold get2. now rewrite row_permute. Qed.

Lemma mk2_permute m (f : nat -> nat -> F) :
  permute_rows perm (mk2 E m f) = mk2 E m (fun i j => f (nth i perm 0) j).
Proof.
  unfold permute_rows. rewrite cols2_mk2. unfold mk2 at 2. f_equal.
  unfold tab at 1. rewrite <- perm_length at 1.
  rewrite (map_nth_perm (fun p => tab m (f p))).
  apply map_ext_in. intros p Hp. apply row_mk2. now apply perm_lt.
Qed.

Lemma permute_idx_perm (idx : list Z) :
  length idx = E -> Permutation (permute_idx perm idx) idx.
Proof.
  intros Hl. unfold permute_idx.
  transitivity (map (fun i => nth i idx 0%Z) (seq 0 E)).
  - now apply Permutation_map.
  - rewrite <- Hl, nth_seq_id. reflexivity.
Qed.

Lemma length_permute_idx (idx : list Z) : length (permute_idx perm idx) = E.
Proof. unfold permute_idx. now rewrite length_map, perm_length. Qed.

Lemma ix_permute (idx : list Z) i :
  i < E -> ix (permute_idx perm idx) i = ix idx (nth i perm 0).
Proof.
  intros Hi. unfold ix, permute_idx. f_equal.
  apply (nth_map_lt (fun i => nth i idx 0%Z) perm 0 0%Z).
  now rewrite perm_length.
Qed.

Lemma check_indices_permute n (idx : list Z) :
  length idx = E ->
  check_indices n (permute_idx perm idx) = check_indices n idx.
Proof.
  intros Hl. unfold check_indices.
  now rewrite (forallb_perm _ (permute_idx_perm idx Hl)).
Qed.

Lemma call_layer_permute (l : Layer F) (t : tensor2 F) :
  nrows t = E ->
  call_layer l (permute_rows perm t) =
  let* r := call_layer l t in Ok (permute_rows perm r).
Proof.
  intros Hn. unfold call_layer.
  change (cols2 (permute_rows perm t)) with (cols2 t).
  destruct (cols2 t =? in_features l); [|reflexivity]. steps.
  rewrite nrows_permute, Hn, mk2_permute. f_equal.
  apply mk2_ext. intros i j Hi Hj. now rewrite row_permute.
Qed.

Lemma index_select2_permute (t : tensor2 F) (idx : list Z) :
  length idx = E ->
  index_select2 t (permute_idx perm idx) =
  let* r := index_select2 t idx in Ok (permute_rows perm r).
Proof.
  intros Hl. unfold index_select2.
  rewrite (check_indices_permute _ _ Hl).
  destruct (check_indices (nrows t) idx); [|reflexivity]. steps.
  rewrite length_permute_idx, Hl, mk2_permute. f_equal.
  apply mk2_ext. intros i j Hi Hj. now rewrite ix_permute.
Qed.

Lemma bop2_permute f (a b : tensor2 F) :
  nrows a = E -> nrows b = E ->
  bop2 f (permute_rows perm a) (permute_rows perm b) =
  let* r := bop2 f a b in Ok (permute_rows perm r).
Proof.
  intros Ha Hb. unfold bop2. rewrite !nrows_permute, Ha, Hb, bdim_refl. steps.
  change (cols2 (permute_rows perm a)) with (cols2 a).
  change (cols2 (permute_rows perm b)) with (cols2 b).
  destruct (bdim (cols2 a) (cols2 b)) as [r1|]; [|reflexivity]. steps.
  rewrite mk2_permute. f_equal.
  apply mk2_ext. intros i j Hi Hj.
  rewrite !(bix_lt Hi), !(bix_lt (perm_nth_lt Hi)).
  now rewrite !get2_permute.
Qed.

Lemma scatter_sum_permute (x : tensor2 F) (idx : list Z) n :
  ExactAdd F \/ keeps_order_per_target perm idx ->
  nrows x = E -> length idx = E ->
  scatter_sum (permute_rows perm x) (permute_idx perm idx) n =
  scatter_sum x idx n.
Proof.
  intros Hord Hx Hl. unfold scatter_sum.
  rewrite nrows_permute, length_permute_idx, Hx, Hl, !Nat.eqb_refl. steps.
  rewrite (check_indices_permute _ _ Hl).
  destruct (check_indices n idx); [|reflexivity]. steps.
  change (cols2 (permute_rows perm x)) with (cols2 x). f_equal.
  apply mk2_ext. intros t c Ht Hc. unfold hits.
  rewrite length_permute_idx, Hl.
  rewrite (filter_ext_in _ (fun i => ix idx (nth i perm 0) =? t))
    by (intros i Hi; apply in_seq in Hi; rewrite ix_permute by lia; reflexivity).
  rewrite (map_ext_in _ (fun i => get2 x (nth i perm 0) c)).
  2:{ intros i Hi. apply filter_In in Hi. destruct Hi as [Hi _].
      apply in_seq in Hi. apply get2_permute. lia. }
  rewrite <- (map_map (fun i => nth i perm 0) (fun e => get2 x e c)).
  rewrite <- (filter_map_swap (fun e => ix idx e =? t) (fun i => nth i perm 0)).
  rewrite <- perm_length at 1. rewrite nth_seq_id.
  destruct Hord as [L|Hk].
  - apply (fsum_perm L), Permutation_map, filter_perm, Hperm.
  - rewrite (Hk t). unfold hits. now rewrite Hl.
Qed.

End Perm.

(** C7.  Reordering the edges (the rows of [bf] and the entries of [idx_s]
    and [idx_t], by one permutation) does not change what [forward]
    returns, errors included, in either of two cases: scalar addition is
    associative and commutative; or the reordering keeps, for every atom,
    the order of the edges into it, and then the scalar arithmetic may be
    any.  The scatter sum adds the messages into an atom in edge order, so
    with a rounding addition a reordering of the edges into one atom shows
    in the result. *)
Theorem hadamard_forward_edge_order
    (self : instance F) h bf idx_s idx_t (perm : list nat) :
  Permutation perm (seq 0 (nrows bf)) ->
  length idx_s = nrows bf -> length idx_t = nrows bf ->
  ExactAdd F \/ keeps_order_per_target perm idx_t ->
  forward self h (permute_rows perm bf)
          (permute_idx perm idx_s) (permute_idx perm idx_t) =
  forward self h bf idx_s idx_t.
Proof.
  intros Hperm Hs Ht Hord. unfold forward. f_equal. unfold aggregate.
  destruct (call_layer (pre_residual self) h) as [h_res|]; [|reflexivity]. steps.
  rewrite (call_layer_permute Hperm _ _ eq_refl).
  destruct (call_layer (dense_layer (dense_bf self)) bf) as [mlp_bf|] eqn:Em;
    [|reflexivity].
  steps.
  rewrite (index_select2_permute Hperm _ _ Hs).
  destruct (index_select2 h_res idx_s) as [sel|] eqn:Es; [|reflexivity]. steps.
  assert (Hsel : nrows sel = nrows bf).
  { unfold index_select2 in Es. destruct (check_indices _ _); [|discriminate].
    inversion Es. now rewrite nrows_mk2. }
  assert (Hmlp : nrows mlp_bf = nrows bf).
  { unfold call_layer in Em. destruct (_ =? _); [|discriminate].
    inversion Em. now rewrite nrows_mk2. }
  rewrite (bop2_permute Hperm _ _ _ Hsel Hmlp).
  destruct (bop2 fmul sel mlp_bf) as [x|] eqn:Ex; [|reflexivity]. steps.
  apply (scatter_sum_permute Hperm _ _ Hord); [|exact Ht].
  unfold bop2 in Ex. rewrite Hsel, Hmlp, bdim_refl in Ex.
  rewrite rbind_ok in Ex. cbv beta in Ex.
  destruct (bdim _ _); [|discriminate]. inversion Ex. now rewrite nrows_mk2.
Qed.

End EdgeOrder.

(** ** Concatenating two structures *)

Section Concatenation.

Context {F : Type} `{Scalar F}.

Import EwaldBlock.

Lemma nrows_cat2 (a b : tensor2 F) : nrows (cat2 a b) = nrows a + nrows b.
Proof. unfold nrows, cat2. simpl. apply length_app. Qed.

Lemma row_cat2_l (a b : tensor2 F) i : i < nrows a -> row (cat2 a b) i = row a i.
Proof. intros Hi. unfold row, cat2. simpl. now apply app_nth1. Qed.

Lemma row_cat2_r (a b : tensor2 F) i : row (cat2 a b) (nrows a + i) = row b i.
Proof.
  unfold row, cat2. simpl. rewrite app_nth2 by (unfold nrows; lia).
  f_equal. unfold nrows. lia.
Qed.

Lemma get2_cat2_l (a b : tensor2 F) i j :
  i < nrows a -> get2 (cat2 a b) i j = get2 a i j.
Proof. intros Hi. unfold get2. now rewrite row_cat2_l. Qed.

Lemma get2_cat2_r (a b : tensor2 F) i j :
  get2 (cat2 a b) (nrows a + i) j = get2 b i j.
Proof. unfold get2. now rewrite row_cat2_r. Qed.

Lemma get3_cat3_l (a b : tensor3 F) i j c :
  i < dim0 a -> get3 (cat3 a b) i j c = get3 a i j c.
Proof. intros Hi. unfold get3, cat3. simpl. now rewrite app_nth1. Qed.

Lemma get3_cat3_r (a b : tensor3 F) i j c :
  get3 (cat3 a b) (dim0 a + i) j c = get3 b i j c.
Proof.
  unfold get3, cat3. simpl. rewrite app_nth2 by (unfold dim0; lia).
  do 3 f_equal. unfold dim0. lia.
Qed.

Lemma mk2_cat n1 n2 m (f f1 f2 : nat -> nat -> F) :
  (forall i j, i < n1 -> j < m -> f i j = f1 i j) ->
  (forall i j, i < n2 -> j < m -> f (n1 + i) j = f2 i j) ->
  mk2 (n1 + n2) m f = cat2 (mk2 n1 m f1) (mk2 n2 m f2).
Proof.
  intros E1 E2. unfold mk2, cat2. simpl. f_equal. rewrite tab_app. f_equal.
  - apply tab_ext. intros i Hi. apply tab_ext. intros j Hj. now apply E1.
  - apply tab_ext. intros i Hi. apply tab_ext. intros j Hj. now apply E2.
Qed.

Lemma call_layer_cat (l : Layer F) (a b a' b' : tensor2 F) :
  call_layer l a = Ok a' -> call_layer l b = Ok b' ->
  call_layer l (cat2 a b) = Ok (cat2 a' b').
Proof.
  unfold call_layer. change (cols2 (cat2 a b)) with (cols2 a).
  destruct (cols2 a =? in_features l); [|discriminate].
  destruct (cols2 b =? in_features l); [|discriminate].
  intros Ea Eb. inversion Ea. inversion Eb. f_equal.
  rewrite nrows_cat2. apply mk2_cat.
  - intros i j Hi Hj. now rewrite row_cat2_l.
  - intros i j Hi Hj. now rewrite row_cat2_r.
Qed.

(** *** Batch segments of one structure and of two *)

Lemma filter_all {A} (f : A -> bool) (l : list A) :
  (forall a, In a l -> f a = true) -> filter f l = l.
Proof.
  induction l as [|a l IH]; intros Hf; [reflexivity|].
  simpl. rewrite (Hf a (or_introl eq_refl)). f_equal. apply IH.
  intros b Hb. apply Hf. now right.
Qed.

Lemma nth_repeat_lt {A} (a d : A) n i : i < n -> nth i (repeat a n) d = a.
Proof.
  intros Hi. rewrite (nth_indep _ d a) by now rewrite repeat_length.
  apply nth_repeat.
Qed.

Lemma ix_single n i : ix (segment 0 n) i = 0.
Proof.
  unfold ix, segment. destruct (Nat.lt_ge_cases i n) as [Hi|Hi].
  - now rewrite nth_repeat_lt.
  - rewrite nth_overflow by now rewrite repeat_length. reflexivity.
Qed.

Lemma length_segment b n : length (segment b n) = n.
Proof. apply repeat_length. Qed.

Lemma hits_single n : hits (segment 0 n) 0 = seq 0 n.
Proof.
  unfold hits. rewrite length_segment. apply filter_all.
  intros i _. now rewrite ix_single.
Qed.

Lemma ix_pair_l n1 n2 i : i < n1 -> ix (segment 0 n1 ++ segment 1 n2) i = 0.
Proof.
  intros Hi. unfold ix, segment.
  rewrite app_nth1 by now rewrite repeat_length.
  now rewrite nth_repeat_lt.
Qed.

Lemma ix_pair_r n1 n2 i : i < n2 -> ix (segment 0 n1 ++ segment 1 n2) (n1 + i) = 1.
Proof.
  intros Hi. unfold ix, segment.
  rewrite app_nth2 by (rewrite repeat_length; lia).
  rewrite repeat_length. replace (n1 + i - n1) with i by lia.
  now rewrite nth_repeat_lt.
Qed.

Lemma length_pair n1 n2 : length (segment 0 n1 ++ segment 1 n2) = n1 + n2.
Proof. unfold segment. now rewrite length_app, !repeat_length. Qed.

Lemma hits_pair_l n1 n2 : hits (segment 0 n1 ++ segment 1 n2) 0 = seq 0 n1.
Proof.
  unfold hits. rewrite length_pair, seq_app, filter_app.
  rewrite filter_all, filter_none; [apply app_nil_r | |].
  - intros i Hi. apply in_seq in Hi. simpl in Hi.
    replace i with (n1 + (i - n1)) by lia. rewrite ix_pair_r by lia. reflexivity.
  - intros i Hi. apply in_seq in Hi. rewrite ix_pair_l by lia. reflexivity.
Qed.

Lemma hits_pair_r n1 n2 :
  hits (segment 0 n1 ++ segment 1 n2) 1 = map (fun i => n1 + i) (seq 0 n2).
Proof.
  unfold hits. rewrite length_pair, seq_app, filter_app.
  rewrite filter_none, filter_all; [simpl; apply seq_from | |].
  - intros i Hi. apply in_seq in Hi. simpl in Hi.
    replace i with (n1 + (i - n1)) by lia. rewrite ix_pair_r by lia. reflexivity.
  - intros i Hi. apply in_seq in Hi. rewrite ix_pair_l by lia. reflexivity.
Qed.

Lemma range_single n : forallb (in_range 1) (segment 0 n) = true.
Proof.
  apply forallb_forall. intros z Hz. apply repeat_spec in Hz. now subst.
Qed.

Lemma range_pair n1 n2 :
  forallb (in_range 2) (segment 0 n1 ++ segment 1 n2) = true.
Proof.
  apply forallb_forall. intros z Hz. apply in_app_or in Hz.
  destruct Hz as [Hz|Hz]; apply repeat_spec in Hz; now subst.
Qed.

(** *** One structure inside a batch

    The atoms of a structure of [np] atoms sit at offset [o] of a batch and
    belong to structure [b] of it.  Every entry of the update computed for
    the batch is then the entry computed for the structure on its own. *)

Section Part.

Variables (g : nat -> nat -> F) (K E np o b nbc : nat).
Variables (hres_c hres_p x_c x_p : tensor2 F) (k_c k_p : tensor3 F).
Variables (sd_c sd_p : damping F) (bs_c bs_p : list Z).

Hypothesis Hb : b < nbc.
Hypothesis Hlen_c : o + np <= length bs_c.
Hypothesis Hlen_p : length bs_p = np.
Hypothesis Hk1c : dim1 k_c = K.
Hypothesis Hk1p : dim1 k_p = K.
Hypothesis Hk2 : dim2 k_c = dim2 k_p.
Hypothesis Hh : forall i c, i < np -> get2 hres_c (o + i) c = get2 hres_p i c.
Hypothesis Hx : forall i c, i < np -> get2 x_c (o + i) c = get2 x_p i c.
Hypothesis Hk : forall j c, get3 k_c b j c = get3 k_p 0 j c.
Hypothesis Hsd :
  forall i j, i < np -> j < K -> damping_at sd_c (o + i) j = damping_at sd_p i j.
Hypothesis Hix_c : forall i, i < np -> ix bs_c (o + i) = b.
Hypothesis Hix_p : forall i, i < np -> ix bs_p i = 0.
Hypothesis Hhits_c : hits bs_c b = map (fun i => o + i) (seq 0 np).
Hypothesis Hhits_p : hits bs_p 0 = seq 0 np.

Local Notation "'d_c'" := (dot_tensor x_c k_c bs_c).
Local Notation "'d_p'" := (dot_tensor x_p k_p bs_p).

Lemma dot_part i j :
  i < np -> dot_entry x_c k_c bs_c (o + i) j = dot_entry x_p k_p bs_p i j.
Proof.
  intros Hi. unfold dot_entry. rewrite Hk2. f_equal.
  apply tab_ext. intros c _.
  now rewrite (Hix_c Hi), (Hix_p Hi), Hk, Hx.
Qed.

Lemma weight_part trig i j :
  i < np -> j < K ->
  weight sd_c trig d_c (o + i) j = weight sd_p trig d_p i j.
Proof.
  intros Hi Hj. unfold weight, dot_tensor. rewrite (Hsd Hi Hj).
  rewrite !get2_mk2 by lia. now rewrite dot_part.
Qed.

Lemma sf_part trig j c :
  j < K ->
  sf_entry trig hres_c bs_c d_c sd_c b j c =
  sf_entry trig hres_p bs_p d_p sd_p 0 j c.
Proof.
  intros Hj. unfold sf_entry. rewrite Hhits_c, Hhits_p, map_map. f_equal.
  apply map_ext_in. intros i Hi. apply in_seq in Hi.
  rewrite Hh by lia. now rewrite weight_part by lia.
Qed.

Lemma update_part i c :
  i < np -> c < E ->
  update_entry (mk3 nbc K E (sf_entry fcos hres_c bs_c d_c sd_c))
               (mk3 nbc K E (sf_entry fsin hres_c bs_c d_c sd_c))
               (mk3 nbc K E (fun _ => g)) bs_c d_c sd_c K (o + i) c =
  update_entry (mk3 1 K E (sf_entry fcos hres_p bs_p d_p sd_p))
               (mk3 1 K E (sf_entry fsin hres_p bs_p d_p sd_p))
               (mk3 1 K E (fun _ => g)) bs_p d_p sd_p K i c.
Proof.
  intros Hi Hc. unfold update_entry. do 2 f_equal.
  apply tab_ext. intros j Hj.
  rewrite (Hix_c Hi), (Hix_p Hi).
  rewrite !get3_mk3 by (assumption || lia).
  now rewrite !sf_part, !weight_part.
Qed.

End Part.

End Concatenation.

(** ** Batching two structures in [EwaldBlock.forward] *)

Section BatchInvariance.

Context {F : Type} `{Scalar F}.

Import EwaldBlock.

Lemma damping_value_entries (self : instance F) E N K B h x k bs :
  consistent E N K B self h x k bs ->
  damping_value self None x k = Ok (damping_entries self x k) /\
  damping_shape (damping_entries self x k) N K.
Proof.
  intros S. unfold damping_value, damping_entries.
  destruct (use_pbc self) eqn:Epbc.
  - split; [reflexivity | exact I].
  - destruct (filter_rbf S Epbc) as (dk & rbf & Edk & _).
    rewrite Edk, compute_sinc_damping_entries by exact (x_cols S).
    split; [reflexivity|]. simpl.
    split; [rewrite nrows_mk2; exact (x_rows S) | exact (k_dim1 S)].
Qed.

Lemma forward_consistent (self : instance F) E P nh N K B h x k bs g :
  constructed E P nh self -> consistent E N K B self h x k bs ->
  filter_value self B = Ok (mk3 B K E (fun _ => g)) ->
  forward h x k B bs None None self =
  (set_kfilter (mk3 B K E (fun _ => g)) self,
   let* scaled :=
     apply_scale (ewald_scale_sum self) (raw_update self g h x k B bs) h in
   let* h_update := call_layers (ewald_layers self) scaled in
   Ok (if return_k_params self
       then RetTriple h_update (dot_tensor x k bs) (damping_entries self x k)
       else RetUpdate h_update)).
Proof.
  intros C S Hg. rewrite forward_run.
  destruct (pre_square C) as [Pin Pout].
  rewrite call_layer_entries by (rewrite (h_cols S); symmetry; exact Pin).
  fold (hres_tensor self h).
  assert (Hh : shape2 (hres_tensor self h) N E).
  { split; [unfold hres_tensor; rewrite nrows_mk2; exact (h_rows S) | exact Pout]. }
  unfold dot_value. rewrite compute_dot_entries.
  2:{ now rewrite (x_rows S), (seg_length S). }
  2:{ now rewrite (x_cols S), (k_dim2 S). }
  2:{ rewrite (k_dim0 S). exact (seg_range S). }
  fold (dot_tensor x k bs).
  assert (Hd : shape2 (dot_tensor x k bs) N K).
  { split; [unfold dot_tensor; rewrite nrows_mk2; exact (seg_length S)
           | exact (k_dim1 S)]. }
  destruct (damping_value_entries S) as [-> Hsd]. rewrite Hg.
  rewrite forward_tail_entries with (n := N) (m := K) (e := E);
    try assumption;
    [ | repeat split; apply dim0_mk3 | exact (seg_length S) | exact (seg_range S)].
  unfold raw_update. cbv zeta.
  rewrite (seg_length S), (k_dim1 S), Pout. reflexivity.
Qed.

Lemma forward_via_consistent (call : LayerCall F) (self : instance F)
    E P nh N K B h x k bs g hres :
  constructed E P nh self -> consistent E N K B self h x k bs ->
  call (pre_residual self) h = Ok hres -> shape2 hres N E ->
  filter_value_via call self B = Ok (mk3 B K E (fun _ => g)) ->
  forward_via call h x k B bs None None self =
  (set_kfilter (mk3 B K E (fun _ => g)) self,
   let* scaled :=
     apply_scale (ewald_scale_sum self) (raw_from self hres g x k B bs) h in
   let* h_update := call_layers_via call (ewald_layers self) scaled in
   Ok (if return_k_params self
       then RetTriple h_update (dot_tensor x k bs) (damping_entries self x k)
       else RetUpdate h_update)).
Proof.
  intros C S Eh Hh Hg. rewrite forward_via_run, Eh.
  unfold dot_value. rewrite compute_dot_entries.
  2:{ now rewrite (x_rows S), (seg_length S). }
  2:{ now rewrite (x_cols S), (k_dim2 S). }
  2:{ rewrite (k_dim0 S). exact (seg_range S). }
  fold (dot_tensor x k bs).
  assert (Hd : shape2 (dot_tensor x k bs) N K).
  { split; [unfold dot_tensor; rewrite nrows_mk2; exact (seg_length S)
           | exact (k_dim1 S)]. }
  destruct (damping_value_entries S) as [-> Hsd]. rewrite Hg.
  rewrite forward_tail_via_entries with (n := N) (m := K) (e := E);
    try assumption;
    [ | repeat split; apply dim0_mk3 | exact (seg_length S) | exact (seg_range S)].
  unfold raw_from. cbv zeta. destruct Hh as [_ Hc].
  rewrite (seg_length S), (k_dim1 S), Hc. reflexivity.
Qed.

Lemma damping_entries_l (self : instance F) x1 x2 k1 k2 i j :
  i < nrows x1 -> j < dim1 k1 ->
  damping_at (damping_entries self (cat2 x1 x2) (cat3 k1 k2)) i j =
  damping_at (damping_entries self x1 k1) i j.
Proof.
  intros Hi Hj. unfold damping_entries.
  destruct (use_pbc self); [reflexivity|].
  destruct (delta_k self) as [dk|]; [|reflexivity].
  simpl damping_at. rewrite nrows_cat2.
  change (dim1 (cat3 k1 k2)) with (dim1 k1).
  rewrite !get2_mk2 by lia. unfold sinc_entry.
  now rewrite !get2_cat2_l.
Qed.

Lemma damping_entries_r (self : instance F) x1 x2 k1 k2 i j :
  dim1 k1 = dim1 k2 -> i < nrows x2 -> j < dim1 k2 ->
  damping_at (damping_entries self (cat2 x1 x2) (cat3 k1 k2)) (nrows x1 + i) j =
  damping_at (damping_entries self x2 k2) i j.
Proof.
  intros Ek Hi Hj. unfold damping_entries.
  destruct (use_pbc self); [reflexivity|].
  destruct (delta_k self) as [dk|]; [|reflexivity].
  simpl damping_at. rewrite nrows_cat2.
  change (dim1 (cat3 k1 k2)) with (dim1 k1).
  rewrite !get2_mk2 by lia. unfold sinc_entry.
  now rewrite !get2_cat2_r.
Qed.

Lemma damping_entries_cat (self : instance F) x1 x2 k1 k2 :
  dim1 k1 = dim1 k2 ->
  damping_entries self (cat2 x1 x2) (cat3 k1 k2) =
  cat_damping (damping_entries self x1 k1) (damping_entries self x2 k2).
Proof.
  intros Ek. unfold damping_entries.
  destruct (use_pbc self); [reflexivity|].
  destruct (delta_k self) as [dk|]; [|reflexivity].
  simpl cat_damping. f_equal. rewrite nrows_cat2, <- Ek.
  change (dim1 (cat3 k1 k2)) with (dim1 k1).
  apply mk2_cat; intros i j Hi Hj; unfold sinc_entry.
  - now rewrite !get2_cat2_l.
  - now rewrite !get2_cat2_r.
Qed.

Section TwoStructures.

Variables (N1 N2 : nat) (x1 x2 : tensor2 F) (k1 k2 : tensor3 F).

Hypothesis Hx1 : nrows x1 = N1.
Hypothesis Hk01 : dim0 k1 = 1.
Hypothesis Hk1 : dim1 k1 = dim1 k2.
Hypothesis Hk2 : dim2 k1 = dim2 k2.

Local Notation "'bs_c'" := (segment 0 N1 ++ segment 1 N2).

Lemma dot_tensor_cat :
  dot_tensor (cat2 x1 x2) (cat3 k1 k2) bs_c =
  cat2 (dot_tensor x1 k1 (segment 0 N1)) (dot_tensor x2 k2 (segment 0 N2)).
Proof.
  unfold dot_tensor. rewrite length_pair, !length_segment, <- Hk1.
  change (dim1 (cat3 k1 k2)) with (dim1 k1).
  apply mk2_cat; intros i j Hi Hj; unfold dot_entry.
  - change (dim2 (cat3 k1 k2)) with (dim2 k1). f_equal.
    apply tab_ext. intros c _.
    rewrite ix_pair_l, ix_single by assumption.
    rewrite get3_cat3_l by lia. rewrite get2_cat2_l by lia. reflexivity.
  - change (dim2 (cat3 k1 k2)) with (dim2 k1). rewrite Hk2. f_equal.
    apply tab_ext. intros c _.
    rewrite ix_pair_r, ix_single by assumption.
    rewrite <- Hx1. rewrite get2_cat2_r.
    replace 1 with (dim0 k1 + 0) by lia. now rewrite get3_cat3_r.
Qed.

Lemma raw_from_cat (self : instance F) g hres1 hres2 :
  nrows hres1 = N1 -> cols2 hres1 = cols2 hres2 -> nrows x2 = N2 ->
  raw_from self (cat2 hres1 hres2) g (cat2 x1 x2) (cat3 k1 k2) 2 bs_c =
  cat2 (raw_from self hres1 g x1 k1 1 (segment 0 N1))
       (raw_from self hres2 g x2 k2 1 (segment 0 N2)).
Proof.
  intros Hh1 Hc Hx2. unfold raw_from. cbv zeta.
  rewrite length_pair, !length_segment, <- Hk1, <- Hc.
  change (dim1 (cat3 k1 k2)) with (dim1 k1).
  change (cols2 (cat2 hres1 hres2)) with (cols2 hres1).
  apply mk2_cat; intros i c Hi Hcc.
  - apply update_part with (o := 0) (b := 0) (np := N1); try assumption;
      try reflexivity.
    + lia.
    + rewrite length_pair. lia.
    + apply length_segment.
    + intros i' c' Hi'. apply get2_cat2_l. simpl. lia.
    + intros i' c' Hi'. apply get2_cat2_l. simpl. lia.
    + intros j' c'. apply get3_cat3_l. lia.
    + intros i' j' Hi' Hj'. apply damping_entries_l; simpl; lia.
    + intros i' Hi'. now apply ix_pair_l.
    + intros i' _. apply ix_single.
    + rewrite hits_pair_l. symmetry. apply (map_id (seq 0 N1)).
    + apply hits_single.
  - apply update_part with (o := N1) (b := 1) (np := N2); try assumption;
      try reflexivity.
    + lia.
    + rewrite length_pair. lia.
    + apply length_segment.
    + symmetry. exact Hk1.
    + intros i' c' Hi'. rewrite <- Hh1 at 1. apply get2_cat2_r.
    + intros i' c' Hi'. rewrite <- Hx1 at 1. apply get2_cat2_r.
    + intros j' c'. replace 1 with (dim0 k1 + 0) by lia. apply get3_cat3_r.
    + intros i' j' Hi' Hj'. rewrite <- Hx1 at 1.
      apply damping_entries_r; [exact Hk1 | lia | lia].
    + intros i' Hi'. now apply ix_pair_r.
    + intros i' _. apply ix_single.
    + apply hits_pair_r.
    + apply hits_single.
Qed.

End TwoStructures.

Lemma consistent_cat (self : instance F) E N1 N2 K h1 x1 k1 h2 x2 k2 :
  consistent E N1 K 1 self h1 x1 k1 (segment 0 N1) ->
  consistent E N2 K 1 self h2 x2 k2 (segment 0 N2) ->
  consistent E (N1 + N2) K 2 self (cat2 h1 h2) (cat2 x1 x2) (cat3 k1 k2)
             (segment 0 N1 ++ segment 1 N2).
Proof.
  intros S1 S2. constructor.
  - now rewrite nrows_cat2, (h_rows S1), (h_rows S2).
  - exact (h_cols S1).
  - now rewrite nrows_cat2, (x_rows S1), (x_rows S2).
  - exact (x_cols S1).
  - unfold dim0, cat3. simpl. rewrite length_app.
    change (dim0 k1 + dim0 k2 = 2). now rewrite (k_dim0 S1), (k_dim0 S2).
  - exact (k_dim1 S1).
  - exact (k_dim2 S1).
  - apply length_pair.
  - apply range_pair.
  - exact (filter_pbc S1).
  - exact (filter_rbf S1).
  - exact (scale_shape S1).
Qed.

Lemma call_layers_via_cat (call : LayerCall F) (ls : list (Layer F))
    (a b a' b' : tensor2 F) :
  Forall (batch_independent call) ls ->
  call_layers_via call ls a = Ok a' -> call_layers_via call ls b = Ok b' ->
  call_layers_via call ls (cat2 a b) = Ok (cat2 a' b').
Proof.
  unfold call_layers_via. intros Hls. revert a b.
  induction Hls as [|l ls Hl _ IH]; intros a b; simpl.
  - intros Ea Eb. inversion Ea. inversion Eb. reflexivity.
  - destruct (call l a) as [a1|] eqn:E1; [|discriminate].
    destruct (call l b) as [b1|] eqn:E2; [|discriminate].
    rewrite (Hl _ _ _ _ E1 E2). steps. apply IH.
Qed.

Lemma call_layer_batch_independent (l : Layer F) :
  batch_independent (@call_layer F _) l.
Proof. intros a b a' b'. apply call_layer_cat. Qed.

(** The two separate calls and the batched call on two structures, for
    layers that return for a batch the rows they return for its parts. *)
Lemma forward_via_batch_of_two
    (call : LayerCall F) (self : instance F) E P nh N1 N2 K
    h1 x1 k1 h2 x2 k2 :
  keeps_extents call ->
  constructed E P nh self ->
  consistent E N1 K 1 self h1 x1 k1 (segment 0 N1) ->
  consistent E N2 K 1 self h2 x2 k2 (segment 0 N2) ->
  Forall (batch_independent call) (pre_residual self :: ewald_layers self) ->
  (forall sc, ewald_scale_sum self = Some sc -> atomwise sc) ->
  exists s1 r1 s2 r2 s,
    forward_via call h1 x1 k1 1 (segment 0 N1) None None self = (s1, Ok r1) /\
    forward_via call h2 x2 k2 1 (segment 0 N2) None None self = (s2, Ok r2) /\
    forward_via call (cat2 h1 h2) (cat2 x1 x2) (cat3 k1 k2) 2
      (segment 0 N1 ++ segment 1 N2) None None self =
      (s, Ok (cat_retval r1 r2)) /\
    shape2 (h_update_of r1) N1 E.
Proof.
  intros Hk C S1 S2 Hbi Hat.
  inversion Hbi as [|l ls Hpre Hls]; subst l ls.
  destruct (filter_value_via_entries Hk C S1) as [g Hg].
  destruct (pre_square C) as [Pin Pout].
  destruct (Hk (pre_residual self) h1) as [f1 Ef1];
    [rewrite (h_cols S1); symmetry; exact Pin|].
  destruct (Hk (pre_residual self) h2) as [f2 Ef2];
    [rewrite (h_cols S2); symmetry; exact Pin|].
  rewrite (h_rows S1), Pout in Ef1. rewrite (h_rows S2), Pout in Ef2.
  set (hres1 := mk2 N1 E f1) in *. set (hres2 := mk2 N2 E f2) in *.
  assert (Hs1 : shape2 hres1 N1 E) by (split; [apply nrows_mk2 | reflexivity]).
  assert (Hs2 : shape2 hres2 N2 E) by (split; [apply nrows_mk2 | reflexivity]).
  assert (Hs12 : shape2 (cat2 hres1 hres2) (N1 + N2) E).
  { split; [rewrite nrows_cat2; unfold hres1, hres2; now rewrite !nrows_mk2
           | reflexivity]. }
  rewrite (forward_via_consistent call C S1 Ef1 Hs1 (Hg 1)).
  rewrite (forward_via_consistent call C S2 Ef2 Hs2 (Hg 1)).
  rewrite (forward_via_consistent call C (consistent_cat S1 S2)
             (Hpre _ _ _ _ Ef1 Ef2) Hs12 (Hg 2)).
  assert (Ek1 : dim1 k1 = dim1 k2) by now rewrite (k_dim1 S1), (k_dim1 S2).
  assert (Ek2 : dim2 k1 = dim2 k2) by now rewrite (k_dim2 S1), (k_dim2 S2).
  pose proof (x_rows S1) as Hx1. pose proof (x_rows S2) as Hx2.
  pose proof (k_dim0 S1) as Hk01.
  destruct Hs1 as [Hh1n Hh1c].
  rewrite raw_from_cat by (assumption || reflexivity).
  rewrite dot_tensor_cat by assumption.
  rewrite damping_entries_cat by assumption.
  set (raw1 := raw_from self hres1 g x1 k1 1 (segment 0 N1)).
  set (raw2 := raw_from self hres2 g x2 k2 1 (segment 0 N2)).
  assert (Hr1 : nrows raw1 = N1)
    by (unfold raw1, raw_from; rewrite nrows_mk2; apply length_segment).
  assert (Hr2 : nrows raw2 = N2)
    by (unfold raw2, raw_from; rewrite nrows_mk2; apply length_segment).
  assert (Hc1 : cols2 raw1 = E) by reflexivity.
  assert (Hc2 : cols2 raw2 = E) by reflexivity.
  assert (Hsc : exists t1 t2,
             apply_scale (ewald_scale_sum self) raw1 h1 = Ok t1 /\
             apply_scale (ewald_scale_sum self) raw2 h2 = Ok t2 /\
             apply_scale (ewald_scale_sum self) (cat2 raw1 raw2) (cat2 h1 h2)
               = Ok (cat2 t1 t2) /\
             shape2 t1 N1 E /\ cols2 t2 = E).
  { unfold apply_scale. destruct (ewald_scale_sum self) as [sc|] eqn:Esc.
    - destruct (scale_shape S1 Esc raw1 h1) as (t1 & Et1 & Hn1 & Ht1).
      destruct (scale_shape S2 Esc raw2 h2) as (t2 & Et2 & _ & Ht2).
      exists t1, t2. split; [exact Et1|]. split; [exact Et2|].
      split; [|split; [split; congruence | congruence]].
      apply (Hat sc eq_refl); try assumption.
      + now rewrite (h_cols S1), (h_cols S2).
      + now rewrite Hr1, (h_rows S1).
      + now rewrite Hr2, (h_rows S2).
    - exists raw1, raw2. split; [reflexivity|]. split; [reflexivity|].
      split; [reflexivity|]. split; [split; assumption | assumption]. }
  destruct Hsc as (t1 & t2 & -> & -> & -> & [Hn1 Ht1] & Ht2). steps.
  destruct (call_layers_via_square t1 Hk (mlp_square C) Ht1)
    as (u1 & Eu1 & Hu1n & Hu1c).
  destruct (call_layers_via_square t2 Hk (mlp_square C) Ht2)
    as (u2 & Eu2 & _).
  rewrite Eu1, Eu2, (call_layers_via_cat _ _ Hls Eu1 Eu2). steps.
  do 5 eexists. split; [reflexivity|]. split; [reflexivity|].
  split.
  - f_equal. destruct (return_k_params self); reflexivity.
  - destruct (return_k_params self); simpl h_update_of; split; congruence.
Qed.

(** C6.  Two single-structure inputs of consistent shapes, run one after
    the other and run as one batch of two structures whose batch segment
    sends every atom to its own structure: all three calls return, and
    what the batched call returns is what the two separate calls return,
    atom for atom.  This is so for layers that return for a batch the rows
    they return for its parts, and a scale factor, when there is one, that
    treats every atom on its own; the layers are called through [call],
    whatever it is. *)
Theorem ewald_forward_batch_invariant
    (call : LayerCall F) (self : instance F) E P nh N1 N2 K
    h1 x1 k1 h2 x2 k2 :
  keeps_extents call ->
  constructed E P nh self ->
  consistent E N1 K 1 self h1 x1 k1 (segment 0 N1) ->
  consistent E N2 K 1 self h2 x2 k2 (segment 0 N2) ->
  Forall (batch_independent call) (pre_residual self :: ewald_layers self) ->
  (forall sc, ewald_scale_sum self = Some sc -> atomwise sc) ->
  exists s1 r1 s2 r2 s r,
    forward_via call h1 x1 k1 1 (segment 0 N1) None None self = (s1, Ok r1) /\
    forward_via call h2 x2 k2 1 (segment 0 N2) None None self = (s2, Ok r2) /\
    forward_via call (cat2 h1 h2) (cat2 x1 x2) (cat3 k1 k2) 2
      (segment 0 N1 ++ segment 1 N2) None None self = (s, Ok r) /\
    r = cat_retval r1 r2 /\
    h_update_of r = cat2 (h_update_of r1) (h_update_of r2).
Proof.
  intros Hk C S1 S2 Hbi Hat.
  destruct (forward_via_batch_of_two Hk C S1 S2 Hbi Hat)
    as (s1 & r1 & s2 & r2 & s & E1 & E2 & Ec & _).
  exists s1, r1, s2, r2, s, (cat_retval r1 r2).
  split; [exact E1|]. split; [exact E2|]. split; [exact Ec|].
  split; [reflexivity|]. destruct r1, r2; reflexivity.
Qed.

End BatchInvariance.

(** ** The properties at the sample blocks *)

Section Samples.

Import EwaldBlock.

Lemma FixedPoint_exact_add : ExactAdd Z.
Proof. constructor; intros; simpl; lia. Qed.

Lemma FixedPoint_exact_sinc : ExactSinc Z.
Proof.
  constructor; try reflexivity.
  intros a. simpl. unfold fx_mul. now rewrite Z.mul_0_r.
Qed.

Lemma tripling_shape_preserving : shape_preserving tripling.
Proof.
  intros value ref. eexists. split; [reflexivity|].
  split; [apply nrows_mk2 | reflexivity].
Qed.

Lemma tripling_atomwise : atomwise tripling.
Proof.
  intros v1 v2 r1 r2 t1 t2 Ec _ _ _ E1 E2.
  unfold tripling in *. inversion E1. inversion E2. f_equal.
  unfold map2. rewrite nrows_cat2, <- Ec.
  change (cols2 (cat2 v1 v2)) with (cols2 v1).
  apply mk2_cat; intros i j Hi Hj.
  - now rewrite get2_cat2_l.
  - now rewrite get2_cat2_r.
Qed.

Lemma sample_pbc_constructed : constructed 2 1 0 sample_pbc.
Proof.
  constructor; try reflexivity.
  - split; reflexivity.
  - repeat constructor.
Qed.

Lemma sample_pbc_consistent :
  consistent 2 2 2 1 sample_pbc sample_h sample_x sample_k (segment 0 2).
Proof.
  constructor; try reflexivity.
  - intros _. split; reflexivity.
  - intros E. discriminate E.
  - intros sc E. injection E as <-. exact tripling_shape_preserving.
Qed.

Lemma sample_pbc_consistent' :
  consistent 2 1 2 1 sample_pbc sample_h' sample_x' sample_k' (segment 0 1).
Proof.
  constructor; try reflexivity.
  - intros _. split; reflexivity.
  - intros E. discriminate E.
  - intros sc E. injection E as <-. exact tripling_shape_preserving.
Qed.

Lemma sample_pbc_forward :
  forward sample_h sample_x sample_k 1 (segment 0 2) None None sample_pbc =
  (set_kfilter sample_kfilter sample_pbc,
   Ok (RetTriple sample_update sample_dot (DampScalar 100%Z))).
Proof. vm_compute. reflexivity. Qed.

End Samples.

Lemma ewald_forward_reuses_k_params_witness :
  EwaldBlock.forward sample_h sample_x sample_k 1 (segment 0 2)
    (Some sample_dot) (Some (EwaldBlock.DampScalar 100%Z))
    (EwaldBlock.set_kfilter sample_kfilter sample_pbc) =
  EwaldBlock.forward sample_h sample_x sample_k 1 (segment 0 2) None None
    (EwaldBlock.set_kfilter sample_kfilter sample_pbc) /\
  snd (EwaldBlock.forward sample_h sample_x sample_k 1 (segment 0 2)
         (Some sample_dot) (Some (EwaldBlock.DampScalar 100%Z))
         (EwaldBlock.set_kfilter sample_kfilter sample_pbc)) =
  Ok (EwaldBlock.RetTriple sample_update sample_dot (EwaldBlock.DampScalar 100%Z)).
Proof.
  apply (ewald_forward_reuses_k_params sample_pbc).
  vm_compute. reflexivity.
Defined.

Lemma ewald_forward_shape_witness :
  exists self1 ret,
    EwaldBlock.forward sample_h sample_x sample_k 1 (segment 0 2) None None
      sample_pbc = (self1, Ok ret) /\
    shape2 (EwaldBlock.h_update_of ret) 2 2 /\
    (EwaldBlock.return_k_params sample_pbc = true ->
       exists d s, ret = EwaldBlock.RetTriple (EwaldBlock.h_update_of ret) d s /\
                   shape2 d 2 2 /\ EwaldBlock.damping_shape s 2 2 /\
                   d = EwaldBlock.dot_tensor sample_x sample_k (segment 0 2) /\
                   s = EwaldBlock.damping_entries sample_pbc sample_x sample_k /\
                   (@None (tensor2 Z) = None -> forall i j, i < 2 -> j < 2 ->
                      get2 d i j =
                      fsum (tab 3 (fun c =>
                        fmul (get3 sample_k (ix (segment 0 2) i) j c)
                             (get2 sample_x i c)))) /\
                   (@None (EwaldBlock.damping Z) = None ->
                    forall i j, i < 2 -> j < 2 ->
                      EwaldBlock.damping_at s i j =
                      if EwaldBlock.use_pbc sample_pbc then fone
                      else match EwaldBlock.delta_k sample_pbc with
                           | Some dk => EwaldBlock.sinc_entry dk sample_x i
                           | None => fone
                           end)) /\
    (EwaldBlock.return_k_params sample_pbc = false ->
       ret = EwaldBlock.RetUpdate (EwaldBlock.h_update_of ret)).
Proof.
  apply (@ewald_forward_shape Z FixedPoint sample_pbc 2 1 0 2 2 1 sample_h
           sample_x sample_k (segment 0 2) None None).
  - constructor; try reflexivity; [split; reflexivity | repeat constructor].
  - constructor; try reflexivity.
    + intros _. split; reflexivity.
    + intros E. discriminate E.
    + intros sc E. injection E as <-. intros value ref. eexists.
      split; [reflexivity|]. split; [apply nrows_mk2 | reflexivity].
  - intros d E. discriminate E.
  - intros s E. discriminate E.
Defined.

Lemma pbc_filter_recomputed_witness :
  exists m kf,
    matmul (linear_weight (EwaldBlock.up sample_pbc))
           (linear_weight (EwaldBlock.down sample_pbc)) = Ok m /\
    EwaldBlock.kfilter (EwaldBlock.set_kfilter sample_kfilter sample_pbc) = Some kf /\
    EwaldBlock.pbc_filter (linear_weight (EwaldBlock.up sample_pbc))
                          (linear_weight (EwaldBlock.down sample_pbc)) 1 = Ok kf /\
    shape3 kf 1 (cols2 m) (nrows m) /\
    forall b j c, b < 1 -> j < cols2 m -> c < nrows m ->
      get3 kf b j c = get2 m c j /\
      get3 kf b j c =
        fsum (tab (cols2 (linear_weight (EwaldBlock.up sample_pbc)))
                  (fun q => fmul (get2 (linear_weight (EwaldBlock.up sample_pbc)) c q)
                                 (get2 (linear_weight (EwaldBlock.down sample_pbc)) q j))).
Proof.
  apply pbc_filter_recomputed
    with (h := sample_h) (x := sample_x) (k := sample_k) (bs := segment 0 2)
         (dot := @None (tensor2 Z)) (sd := @None (EwaldBlock.damping Z))
         (ret := EwaldBlock.RetTriple sample_update sample_dot
                   (EwaldBlock.DampScalar 100%Z)).
  - reflexivity.
  - vm_compute. reflexivity.
Defined.

Lemma pbc_damping_is_one_witness :
  EwaldBlock.damping_value sample_pbc None sample_x sample_k =
    Ok (EwaldBlock.DampScalar 100%Z) /\
  (forall i j, EwaldBlock.damping_at (EwaldBlock.DampScalar 100%Z) i j = 100%Z) /\
  (forall self1 u d s,
     EwaldBlock.forward sample_h sample_x sample_k 1 (segment 0 2) None None
       sample_pbc = (self1, Ok (EwaldBlock.RetTriple u d s)) ->
     s = EwaldBlock.DampScalar 100%Z).
Proof.
  exact (pbc_damping_is_one sample_pbc sample_h sample_x sample_k 1
           (segment 0 2) None eq_refl).
Defined.


Lemma ewald_forward_batch_invariant_witness :
  exists s1 r1 s2 r2 s r,
    EwaldBlock.forward sample_h sample_x sample_k 1 (segment 0 2) None None
      sample_pbc = (s1, Ok r1) /\
    EwaldBlock.forward sample_h' sample_x' sample_k' 1 (segment 0 1) None None
      sample_pbc = (s2, Ok r2) /\
    EwaldBlock.forward (cat2 sample_h sample_h') (cat2 sample_x sample_x')
      (cat3 sample_k sample_k') 2 (segment 0 2 ++ segment 1 1) None None
      sample_pbc = (s, Ok r) /\
    r = EwaldBlock.cat_retval r1 r2 /\
    EwaldBlock.h_update_of r =
      cat2 (EwaldBlock.h_update_of r1) (EwaldBlock.h_update_of r2).
Proof.
  apply (ewald_forward_batch_invariant (call := call_layer)
           (P := 1) (nh := 0) (E := 2) (K := 2)).
  - exact call_layer_keeps_extents.
  - exact sample_pbc_constructed.
  - exact sample_pbc_consistent.
  - exact sample_pbc_consistent'.
  - apply Forall_forall. intros l _. apply call_layer_batch_independent.
  - intros sc E. injection E as <-. exact tripling_atomwise.
Defined.

Lemma kernel_by_size_keeps_extents : keeps_extents kernel_by_size.
Proof.
  intros l t E. unfold kernel_by_size.
  rewrite (call_layer_entries _ _ E). rewrite rbind_ok. cbv beta.
  destruct (2 <? nrows t); eexists; [|reflexivity].
  unfold map2. rewrite nrows_mk2, cols2_mk2. reflexivity.
Qed.

(** A counterexample to C6 as the specification words it, for every
    block: with layers whose rows move with the size of the batch, the
    sample block is run on a structure of two atoms, on a structure of one
    atom, and on the batch of both.  The layers keep the extents, the
    inputs have consistent shapes, and the batched update is not the two
    separate updates one after the other: its rows are one unit in the
    last place higher. *)
Lemma ewald_forward_batch_invariant_counterexample :
  keeps_extents kernel_by_size /\
  snd (EwaldBlock.forward_via kernel_by_size sample_h sample_x sample_k 1
         (segment 0 2) None None sample_pbc) =
    Ok (EwaldBlock.RetTriple (T2 2 [[24; 78]; [30; 90]]%Z)
          (T2 2 [[0; 0]; [100; 50]]%Z) (EwaldBlock.DampScalar 100%Z)) /\
  snd (EwaldBlock.forward_via kernel_by_size sample_h' sample_x' sample_k' 1
         (segment 0 1) None None sample_pbc) =
    Ok (EwaldBlock.RetTriple (T2 2 [[0; 6]]%Z)
          (T2 2 [[30; 30]]%Z) (EwaldBlock.DampScalar 100%Z)) /\
  snd (EwaldBlock.forward_via kernel_by_size
         (cat2 sample_h sample_h') (cat2 sample_x sample_x')
         (cat3 sample_k sample_k') 2 (segment 0 2 ++ segment 1 1)
         None None sample_pbc) =
    Ok (EwaldBlock.RetTriple (T2 2 [[25; 79]; [31; 91]; [1; 7]]%Z)
          (T2 2 [[0; 0]; [100; 50]; [30; 30]]%Z)
          (EwaldBlock.DampScalar 100%Z)) /\
  T2 2 [[25; 79]; [31; 91]; [1; 7]]%Z <>
    cat2 (T2 2 [[24; 78]; [30; 90]]%Z) (T2 2 [[0; 6]]%Z).
Proof.
  split; [exact kernel_by_size_keeps_extents|].
  split; [vm_compute; reflexivity|].
  split; [vm_compute; reflexivity|].
  split; [vm_compute; reflexivity|].
  intros E. discriminate E.
Qed.

Lemma hadamard_forward_edge_order_witness :
  (HadamardBlock.forward sample_hadamard sample_h
       (permute_rows sample_perm sample_bf2)
       (permute_idx sample_perm sample_idx_s2)
       (permute_idx sample_perm sample_idx_t2) =
   HadamardBlock.forward sample_hadamard sample_h sample_bf2
       sample_idx_s2 sample_idx_t2 /\
   HadamardBlock.forward sample_hadamard sample_h sample_bf2
       sample_idx_s2 sample_idx_t2 = Ok (T2 2 [[0; 0]; [750; 3000]]%Z)) /\
  (HadamardBlock.forward b64_hadamard b64_h
       (permute_rows b64_perm_apart b64_bf)
       (permute_idx b64_perm_apart b64_idx_s)
       (permute_idx b64_perm_apart b64_idx_t_apart) =
   HadamardBlock.forward b64_hadamard b64_h b64_bf b64_idx_s b64_idx_t_apart /\
   HadamardBlock.forward b64_hadamard b64_h b64_bf b64_idx_s b64_idx_t_apart =
     Ok (T2 1 [[0%float]; [1%float]; [0%float]])).
Proof.
  split; (split; [|vm_compute; reflexivity]).
  - apply hadamard_forward_edge_order.
    + apply perm_swap.
    + reflexivity.
    + reflexivity.
    + left. exact FixedPoint_exact_add.
  - apply hadamard_forward_edge_order.
    + apply perm_swap.
    + reflexivity.
    + reflexivity.
    + right. intros [|[|b]]; reflexivity.
Defined.

(** A counterexample to C7 as the specification words it, for every
    input: with binary64 scalars, three edges into atom 0 carry the
    messages [2^60], [1] and [-2^60].  In this order the sum is [0],
    because [2^60 + 1] rounds to [2^60]; with the last two edges exchanged
    it is [1]. *)
Lemma hadamard_forward_edge_order_counterexample :
  Permutation b64_perm (seq 0 (nrows b64_bf)) /\
  HadamardBlock.forward b64_hadamard b64_h b64_bf b64_idx_s b64_idx_t =
    Ok (T2 1 [[0%float]; [0%float]; [0%float]]) /\
  HadamardBlock.forward b64_hadamard b64_h (permute_rows b64_perm b64_bf)
      (permute_idx b64_perm b64_idx_s) (permute_idx b64_perm b64_idx_t) =
    Ok (T2 1 [[1%float]; [0%float]; [0%float]]) /\
  HadamardBlock.forward b64_hadamard b64_h (permute_rows b64_perm b64_bf)
      (permute_idx b64_perm b64_idx_s) (permute_idx b64_perm b64_idx_t) <>
  HadamardBlock.forward b64_hadamard b64_h b64_bf b64_idx_s b64_idx_t.
Proof.
  assert (E0 : HadamardBlock.forward b64_hadamard b64_h b64_bf
                 b64_idx_s b64_idx_t =
               Ok (T2 1 [[0%float]; [0%float]; [0%float]]))
    by (vm_compute; reflexivity).
  assert (E1 : HadamardBlock.forward b64_hadamard b64_h
                 (permute_rows b64_perm b64_bf)
                 (permute_idx b64_perm b64_idx_s)
                 (permute_idx b64_perm b64_idx_t) =
               Ok (T2 1 [[1%float]; [0%float]; [0%float]]))
    by (vm_compute; reflexivity).
  split; [apply perm_skip, perm_swap|].
  split; [exact E0|]. split; [exact E1|].
  rewrite E0, E1. intros E.
  apply (f_equal (fun r => match r with
                           | Ok (T2 _ ((v :: _) :: _)) => PrimFloat.eqb v 0%float
                           | _ => true
                           end)) in E.
  vm_compute in E. discriminate E.
Qed.

Lemma hadamard_aggregate_zero_fill_witness :
  nrows (T2 2 [[0; 0]; [100; 200]]%Z) = nrows sample_h /\
  forall t, t < nrows sample_h -> ~ In (Z.of_nat t) sample_idx_t ->
    row (T2 2 [[0; 0]; [100; 200]]%Z) t = zero_row 2.
Proof.
  apply (hadamard_aggregate_zero_fill sample_hadamard sample_h sample_bf
           sample_idx_s sample_idx_t).
  vm_compute. reflexivity.
Defined.


(** * Further properties *)

(** ** Construction *)

Section Construction.

Context {F : Type} `{Scalar F}.

Variable new_Dense : nat -> nat -> Dense F.
Variable new_ResidualLayer : nat -> Layer F.
Variable new_ScaleFactor : string -> ScaleFactor F.

Lemma mapM_constant {A B} (f : A -> result B) (b : B) (l : list A) :
  (forall a, f a = Ok b) -> mapM f l = Ok (repeat b (length l)).
Proof.
  intros Hf. induction l as [|a l IH]; [reflexivity|].
  simpl. rewrite Hf, IH. reflexivity.
Qed.

Lemma residual_layers_built (units num_hidden : nat) :
  mapM (fun _ : nat =>
          let* cr := resolve "ResidualLayer" in
          HadamardBlock.call_ResidualLayer new_ResidualLayer cr units)
       (seq 0 num_hidden) =
  Ok (repeat (new_ResidualLayer units) num_hidden).
Proof.
  rewrite mapM_constant with (b := new_ResidualLayer units) by reflexivity.
  now rewrite length_seq.
Qed.

Lemma ewald_get_mlp_ok (units_in units num_hidden : nat) :
  EwaldBlockInit.get_mlp new_Dense new_ResidualLayer units_in units num_hidden =
  Ok (dense_layer (new_Dense units_in units)
        :: repeat (new_ResidualLayer units) num_hidden).
Proof.
  unfold EwaldBlockInit.get_mlp. change (resolve "Dense") with (Ok ClsDense).
  steps. unfold HadamardBlock.call_Dense. steps.
  rewrite residual_layers_built. reflexivity.
Qed.

(** X1.  [get_mlp], in either class, returns the dense layer followed by
    exactly [num_hidden] residual layers, all built for [units]
    features. *)
Theorem get_mlp_layers (units_in units num_hidden : nat) :
  EwaldBlockInit.get_mlp new_Dense new_ResidualLayer units_in units num_hidden =
    Ok (dense_layer (new_Dense units_in units)
          :: repeat (new_ResidualLayer units) num_hidden) /\
  HadamardBlock.get_mlp new_Dense new_ResidualLayer units_in units num_hidden =
    Ok (dense_layer (new_Dense units_in units)
          :: repeat (new_ResidualLayer units) num_hidden).
Proof.
  split; [apply ewald_get_mlp_ok|].
  unfold HadamardBlock.get_mlp. change (resolve "Dense") with (Ok ClsDense).
  steps. unfold HadamardBlock.call_Dense. steps.
  rewrite residual_layers_built. reflexivity.
Qed.

(** X2.  With constructors that build layers of the extents they are asked
    for, [EwaldBlock.__init__] returns an instance for all arguments.  The
    instance has the extents recorded in [constructed], holds the shared
    downprojection itself, stores the flags and settings it was given, has
    no filter yet, and has a scale factor exactly when a name was given. *)
Theorem ewald_init_constructed
    (shared_downprojection : Dense F)
    (emb_size_atom downprojection_size num_hidden : nat)
    (name : option string) (use_pbc : bool) (delta_k : option F)
    (k_rbf_values : option (tensor2 F)) (return_k_params : bool) :
  EwaldBlockInit.dense_extents new_Dense ->
  EwaldBlockInit.residual_extents new_ResidualLayer ->
  exists self,
    EwaldBlockInit.init new_Dense new_ResidualLayer new_ScaleFactor
      shared_downprojection emb_size_atom downprojection_size num_hidden
      name use_pbc delta_k k_rbf_values return_k_params = Ok self /\
    EwaldBlock.constructed emb_size_atom downprojection_size num_hidden self /\
    EwaldBlock.down self = shared_downprojection /\
    EwaldBlock.use_pbc self = use_pbc /\
    EwaldBlock.return_k_params self = return_k_params /\
    EwaldBlock.delta_k self = delta_k /\
    EwaldBlock.k_rbf_values self = k_rbf_values /\
    EwaldBlock.kfilter self = None /\
    EwaldBlock.ewald_scale_sum self =
      match name with
      | Some n => Some (new_ScaleFactor (n ++ "_sum"))
      | None => None
      end.
Proof.
  intros HD HR. unfold EwaldBlockInit.init.
  change (resolve "Dense") with (Ok ClsDense).
  change (resolve "ResidualLayer") with (Ok ClsResidualLayer). steps.
  unfold HadamardBlock.call_Dense, HadamardBlock.call_ResidualLayer. steps.
  rewrite ewald_get_mlp_ok. steps.
  assert (Es : EwaldBlockInit.init_scale new_ScaleFactor name =
               Ok match name with
                  | Some n => Some (new_ScaleFactor (n ++ "_sum"))
                  | None => None
                  end).
  { destruct name; reflexivity. }
  rewrite Es. steps. eexists. split; [reflexivity|].
  destruct (HD downprojection_size emb_size_atom) as (Hin & Hout & Hr & Hc).
  destruct (HD emb_size_atom emb_size_atom) as (Din & Dout & _).
  split.
  - constructor; simpl; try assumption.
    + apply HR.
    + now rewrite repeat_length.
    + constructor; [split; assumption|].
      apply Forall_forall. intros l Hl. apply repeat_spec in Hl. subst l.
      apply HR.
  - repeat split; reflexivity.
Qed.

End Construction.

(** ** More on [EwaldBlock.forward]: attributes and failures *)

Section EwaldFailures.

Context {F : Type} `{Scalar F}.

Import EwaldBlock.

(** X3.  [forward] changes the value of no attribute other than [kfilter],
    whether it returns or raises.  An aperiodic call does assign
    [k_rbf_values] (line 164), with the tensor the attribute already holds
    moved to the device of [x]; tensors carry no device here, so what is
    shown for this attribute is that it holds the same values after the
    call.  [kfilter] is either left as it was or holds the filter computed
    in this call. *)
Theorem ewald_forward_frame (self : instance F) h x k nb bs dot sd :
  let self1 := fst (forward h x k nb bs dot sd self) in
  use_pbc self1 = use_pbc self /\
  return_k_params self1 = return_k_params self /\
  delta_k self1 = delta_k self /\
  k_rbf_values self1 = k_rbf_values self /\
  down self1 = down self /\
  up self1 = up self /\
  pre_residual self1 = pre_residual self /\
  ewald_layers self1 = ewald_layers self /\
  ewald_scale_sum self1 = ewald_scale_sum self /\
  (kfilter self1 = kfilter self \/
   exists kf, filter_value self nb = Ok kf /\ kfilter self1 = Some kf).
Proof.
  cbv zeta. rewrite forward_run.
  destruct (call_layer _ _); [|simpl; repeat split; now left].
  destruct (dot_value _ _ _ _); [|simpl; repeat split; now left].
  destruct (damping_value _ _ _ _); [|simpl; repeat split; now left].
  destruct (filter_value self nb) as [kf|]; [|simpl; repeat split; now left].
  simpl. repeat split. right. now exists kf.
Qed.

(** X4.  When the dot products are to be computed, [k] has at least one
    reciprocal vector and one coordinate, and some entry of [batch_seg] is
    not the index of a structure of [k], [forward] raises an indexing
    failure and leaves the instance as it was: the failure comes from
    [torch.gather], before the filter is stored. *)
Theorem ewald_forward_bad_segment_early (self : instance F) h x k nb bs sd :
  cols2 h = in_features (pre_residual self) ->
  0 < dim1 k -> 0 < dim2 k ->
  forallb (in_range (dim0 k)) bs = false ->
  forward h x k nb bs None sd self = (self, Raise IndexError).
Proof.
  intros Hh H1 H2 Hr. rewrite forward_run, call_layer_entries by exact Hh.
  unfold dot_value, compute_dot, gather_batch, check_indices.
  rewrite Hr.
  destruct (Nat.eqb_spec (dim1 k) 0) as [E|_]; [lia|].
  destruct (Nat.eqb_spec (dim2 k) 0) as [E|_]; [lia|].
  reflexivity.
Qed.

(** X5.  When the dot products and the damping are supplied, a
    [batch_seg] entry outside [0, num_batch) is met only by [index_add_]:
    [forward] raises an indexing failure after it has stored the filter of
    this call in [self.kfilter]. *)
Theorem ewald_forward_bad_segment_late
    (self : instance F) h x k nb bs d s kf m :
  cols2 h = in_features (pre_residual self) ->
  shape2 d (nrows h) m -> damping_shape s (nrows h) m ->
  length bs = nrows h ->
  filter_value self nb = Ok kf ->
  forallb (in_range nb) bs = false ->
  forward h x k nb bs (Some d) (Some s) self =
  (set_kfilter kf self, Raise IndexError).
Proof.
  intros Hh Hd Hs Hl Hkf Hr.
  rewrite forward_run, call_layer_entries by exact Hh.
  cbn [dot_value damping_value]. rewrite Hkf. f_equal.
  unfold forward_tail, forward_tail_via, structure_factor.
  rewrite (phase_entries _ _ _ Hd Hs). destruct Hd as [Hdn Hdm].
  unfold expand3, unsqueeze_m2.
  rewrite !dim0_mk3, !dim1_mk3, !dim2_mk3, !nrows_mk2, !cols2_mk2, Hdm.
  rewrite !expand_dim_keep, expand_dim_one. steps.
  rewrite bop3_same by (rewrite ?dim0_mk3, ?dim1_mk3, ?dim2_mk3; reflexivity).
  steps. unfold zeros_index_add.
  rewrite !dim0_mk3, !dim1_mk3, !dim2_mk3, Hl, !Nat.eqb_refl.
  cbv [negb andb]. unfold check_indices. rewrite Hr. reflexivity.
Qed.

(** X6.  An aperiodic block without a voxel resolution ([delta_k] left at
    [None]) raises a type failure as soon as it has to compute the damping,
    and leaves the instance as it was. *)
Theorem ewald_forward_missing_delta_k (self : instance F) h x k nb bs dot d :
  use_pbc self = false -> delta_k self = None ->
  cols2 h = in_features (pre_residual self) ->
  dot_value dot x k bs = Ok d ->
  forward h x k nb bs dot None self = (self, Raise TypeError).
Proof.
  intros Hp Hdk Hh Hd. rewrite forward_run, call_layer_entries by exact Hh.
  rewrite Hd. unfold damping_value. rewrite Hp, Hdk. reflexivity.
Qed.

(** X7.  An aperiodic block without precomputed radial-basis values
    ([k_rbf_values] left at [None]) raises an attribute failure when it
    comes to the filter, and leaves the instance as it was. *)
Theorem ewald_forward_missing_rbf (self : instance F) h x k nb bs dot sd d s :
  use_pbc self = false -> k_rbf_values self = None ->
  cols2 h = in_features (pre_residual self) ->
  dot_value dot x k bs = Ok d ->
  damping_value self sd x k = Ok s ->
  forward h x k nb bs dot sd self = (self, Raise AttributeError).
Proof.
  intros Hp Hr Hh Hd Hs. rewrite forward_run, call_layer_entries by exact Hh.
  rewrite Hd, Hs. unfold filter_value, filter_value_via. rewrite Hp, Hr. reflexivity.
Qed.

(** X8.  Two blocks with [use_pbc = True] that share the downprojection
    weight and have equal upprojection weights store the same filter, for
    the same [num_batch], whatever else they are given. *)
Theorem ewald_shared_downprojection_filter
    (a b a1 b1 : instance F) h x k bs dot sd h' x' k' bs' dot' sd' nb ra rb :
  use_pbc a = true -> use_pbc b = true ->
  linear_weight (down a) = linear_weight (down b) ->
  linear_weight (up a) = linear_weight (up b) ->
  forward h x k nb bs dot sd a = (a1, Ok ra) ->
  forward h' x' k' nb bs' dot' sd' b = (b1, Ok rb) ->
  kfilter a1 = kfilter b1 /\ kfilter a1 <> None.
Proof.
  intros Ha Hb Ed Eu Fa Fb.
  destruct (forward_ok_state _ _ _ _ _ _ _ _ Fa) as (kfa & Ea & ->).
  destruct (forward_ok_state _ _ _ _ _ _ _ _ Fb) as (kfb & Eb & ->).
  unfold filter_value, filter_value_via in Ea, Eb. rewrite Ha in Ea. rewrite Hb in Eb.
  rewrite Ed, Eu, Eb in Ea. inversion Ea. simpl. split; [reflexivity|discriminate].
Qed.

(** X9.  With [use_pbc = False], a call that returns has stored in
    [self.kfilter] the upprojection of the downprojection of the
    precomputed radial-basis values, the same for every structure of the
    batch. *)
Theorem aperiodic_filter_recomputed
    (self self1 : instance F) h x k nb bs dot sd ret :
  use_pbc self = false ->
  forward h x k nb bs dot sd self = (self1, Ok ret) ->
  exists rbf d u kf,
    k_rbf_values self = Some rbf /\
    call_layer (dense_layer (down self)) rbf = Ok d /\
    call_layer (dense_layer (up self)) d = Ok u /\
    kfilter self1 = Some kf /\
    shape3 kf nb (nrows u) (cols2 u) /\
    forall b j c, b < nb -> j < nrows u -> c < cols2 u ->
      get3 kf b j c = get2 u j c.
Proof.
  intros Hp Hf.
  destruct (forward_ok_state _ _ _ _ _ _ _ _ Hf) as (kf & Ekf & ->).
  unfold filter_value, filter_value_via in Ekf. rewrite Hp in Ekf.
  destruct (k_rbf_values self) as [rbf|]; [|discriminate].
  unfold rbf_filter, rbf_filter_via in Ekf.
  destruct (call_layer (dense_layer (down self)) rbf) as [d|] eqn:Ed;
    [|discriminate].
  rewrite rbind_ok in Ekf. cbv beta in Ekf.
  destruct (call_layer (dense_layer (up self)) d) as [u|] eqn:Eu;
    [|discriminate].
  rewrite rbind_ok in Ekf. cbv beta in Ekf.
  unfold expand3, unsqueeze_0 in Ekf.
  rewrite !dim0_mk3, !dim1_mk3, !dim2_mk3 in Ekf.
  rewrite !expand_dim_keep, expand_dim_one in Ekf.
  rewrite !rbind_ok in Ekf. cbv beta in Ekf. inversion Ekf as [Ek].
  exists rbf, d, u, (mk3 nb (nrows u) (cols2 u) (fun i j c =>
    get3 (mk3 1 (nrows u) (cols2 u) (fun _ j0 c0 => get2 u j0 c0))
         (bix 1 i) (bix (nrows u) j) (bix (cols2 u) c))).
  do 4 (split; [first [assumption | reflexivity]|]).
  split; [split; [apply dim0_mk3 | split; reflexivity]|].
  intros b j c Hb Hj Hc. rewrite get3_mk3 by assumption.
  rewrite bix_one, !bix_lt by assumption.
  now rewrite get3_mk3 by (assumption || lia).
Qed.

End EwaldFailures.

(** ** More on [EwaldBlock.forward]: what it computes *)

Section EwaldFormula.

Context {F : Type} `{Scalar F}.

Import EwaldBlock.

(** X10.  On inputs of consistent shapes, with the dot products and the
    damping computed by the call itself, [forward] returns the update
    network applied to the (optionally rescaled) tensor [raw], whose entry
    for atom [i] and feature [c] is 0.01 times the sum over the reciprocal
    vectors [j] of the filtered structure factor of the structure of [i],
    real part times damped cosine plus imaginary part times damped sine.
    The structure factor of a structure sums, over its atoms in order,
    their pre-residual features times their damped cosine or sine. *)
Theorem ewald_forward_closed_form (self : instance F) E P nh N K B h x k bs :
  constructed E P nh self -> consistent E N K B self h x k bs ->
  let hres := hres_tensor self h in
  let d := dot_tensor x k bs in
  let sd := damping_entries self x k in
  exists g raw,
    filter_value self B = Ok (mk3 B K E (fun _ => g)) /\
    snd (forward h x k B bs None None self) =
      (let* scaled := apply_scale (ewald_scale_sum self) raw h in
       let* h_update := call_layers (ewald_layers self) scaled in
       Ok (if return_k_params self then RetTriple h_update d sd
           else RetUpdate h_update)) /\
    shape2 raw N E /\
    forall i c, i < N -> c < E ->
      get2 raw i c =
      fmul c_hundredth
        (fsum (tab K (fun j =>
           fadd (fmul (fmul (sf_entry fcos hres bs d sd (ix bs i) j c) (g j c))
                      (weight sd fcos d i j))
                (fmul (fmul (sf_entry fsin hres bs d sd (ix bs i) j c) (g j c))
                      (weight sd fsin d i j))))).
Proof.
  intros C S hres d sd.
  destruct (filter_value_entries C S) as [g Hg].
  destruct (pre_square C) as [_ Pout].
  exists g, (raw_update self g h x k B bs).
  split; [apply Hg|].
  split; [rewrite (forward_consistent C S (Hg B)); reflexivity|].
  split.
  - split; [unfold raw_update; rewrite nrows_mk2; exact (seg_length S)
           | exact Pout].
  - intros i c Hi Hc. unfold raw_update. cbv zeta.
    rewrite (seg_length S), (k_dim1 S), Pout.
    rewrite get2_mk2 by assumption. unfold update_entry. do 2 f_equal.
    apply tab_ext. intros j Hj.
    assert (Hix : ix bs i < B)
      by (apply ix_lt; [exact (seg_range S) | now rewrite (seg_length S)]).
    now rewrite !get3_mk3 by assumption.
Qed.

(** X11.  Without reciprocal vectors ([numK = 0]) every entry of the
    tensor handed to the scale factor and the update network is the
    product of 0.01 and zero, whatever the embeddings and positions are. *)
Theorem ewald_forward_no_modes (self : instance F) E P nh N B h x k bs :
  constructed E P nh self -> consistent E N 0 B self h x k bs ->
  snd (forward h x k B bs None None self) =
    (let* scaled := apply_scale (ewald_scale_sum self)
                      (mk2 N E (fun _ _ => fmul c_hundredth fzero)) h in
     let* h_update := call_layers (ewald_layers self) scaled in
     Ok (if return_k_params self
         then RetTriple h_update (dot_tensor x k bs) (damping_entries self x k)
         else RetUpdate h_update)).
Proof.
  intros C S.
  destruct (filter_value_entries C S) as [g Hg].
  destruct (pre_square C) as [_ Pout].
  rewrite (forward_consistent C S (Hg B)). cbn [snd].
  replace (raw_update self g h x k B bs)
    with (mk2 N E (fun _ _ : nat => fmul c_hundredth fzero)); [reflexivity|].
  unfold raw_update. cbv zeta. rewrite (seg_length S), (k_dim1 S), Pout.
  apply mk2_ext. intros i c _ _. reflexivity.
Qed.

(** X12.  On inputs of consistent shapes the dot products that [forward]
    computes and returns have one row per atom and one column per
    reciprocal vector; the entry of atom [i] and vector [j] is the sum,
    from zero and in coordinate order, of the products of the three
    coordinates of [i] with those of vector [j] of the structure of [i]. *)
Theorem ewald_forward_dot_products
    (self self1 : instance F) E N K B h x k bs sd u d s :
  consistent E N K B self h x k bs ->
  forward h x k B bs None sd self = (self1, Ok (RetTriple u d s)) ->
  shape2 d N K /\
  forall i j, i < N -> j < K ->
    get2 d i j =
    fadd (fadd (fadd fzero
                  (fmul (get3 k (ix bs i) j 0) (get2 x i 0)))
               (fmul (get3 k (ix bs i) j 1) (get2 x i 1)))
         (fmul (get3 k (ix bs i) j 2) (get2 x i 2)).
Proof.
  intros S Hf. rewrite forward_run in Hf.
  destruct (call_layer _ _) as [hres|]; [|discriminate].
  unfold dot_value in Hf. rewrite compute_dot_entries in Hf.
  2:{ now rewrite (x_rows S), (seg_length S). }
  2:{ now rewrite (x_cols S), (k_dim2 S). }
  2:{ rewrite (k_dim0 S). exact (seg_range S). }
  destruct (damping_value _ _ _ _) as [s0|]; [|discriminate].
  destruct (filter_value _ _) as [kf|]; [|discriminate].
  inversion Hf as [[Hs Ht]].
  destruct (forward_tail_k_params _ _ _ _ _ _ _ _ Ht) as [-> _].
  rewrite (seg_length S), (k_dim1 S).
  split; [split; [apply nrows_mk2 | reflexivity]|].
  intros i j Hi Hj. rewrite get2_mk2 by assumption.
  unfold dot_entry. rewrite (k_dim2 S). reflexivity.
Qed.

(** X13.  No cross-talk in a batch: the update of the atoms of the first
    structure of a batch of two does not depend on what the second
    structure is, nor on how many atoms it has.  This is so for layers
    that return for a batch the rows they return for its parts, and a
    scale factor, when there is one, that treats every atom on its own. *)
Theorem ewald_forward_no_cross_talk
    (call : LayerCall F) (self : instance F) E P nh N1 N2 N2' K
    h1 x1 k1 h2 x2 k2 h2' x2' k2' :
  keeps_extents call ->
  constructed E P nh self ->
  consistent E N1 K 1 self h1 x1 k1 (segment 0 N1) ->
  consistent E N2 K 1 self h2 x2 k2 (segment 0 N2) ->
  consistent E N2' K 1 self h2' x2' k2' (segment 0 N2') ->
  Forall (batch_independent call) (pre_residual self :: ewald_layers self) ->
  (forall sc, ewald_scale_sum self = Some sc -> atomwise sc) ->
  exists r r',
    snd (forward_via call (cat2 h1 h2) (cat2 x1 x2) (cat3 k1 k2) 2
           (segment 0 N1 ++ segment 1 N2) None None self) = Ok r /\
    snd (forward_via call (cat2 h1 h2') (cat2 x1 x2') (cat3 k1 k2') 2
           (segment 0 N1 ++ segment 1 N2') None None self) = Ok r' /\
    forall i, i < N1 -> row (h_update_of r) i = row (h_update_of r') i.
Proof.
  intros Hk C S1 S2 S2' Hbi Hat.
  destruct (forward_via_batch_of_two Hk C S1 S2 Hbi Hat)
    as (s1 & r1 & s2 & r2 & s & E1 & _ & Ec & Hs).
  destruct (forward_via_batch_of_two Hk C S1 S2' Hbi Hat)
    as (s1' & r1' & s2' & r2' & s' & E1' & _ & Ec' & _).
  rewrite E1 in E1'. inversion E1'; subst r1'.
  exists (cat_retval r1 r2), (cat_retval r1 r2').
  split; [now rewrite Ec|]. split; [now rewrite Ec'|].
  intros i Hi. destruct Hs as [Hn _].
  assert (Hu : forall a b : retval F,
             h_update_of (cat_retval a b) =
             cat2 (h_update_of a) (h_update_of b)).
  { intros a b. destruct a, b; reflexivity. }
  rewrite !Hu, !row_cat2_l by (rewrite Hn; exact Hi). reflexivity.
Qed.

End EwaldFormula.

(** ** More on [HadamardBlock.forward] *)

Section HadamardMore.

Context {F : Type} `{Scalar F}.

Import HadamardBlock.
Import HadamardInputs.

Lemma aggregate_entries (self : instance F) E Ebf N M h bf idx_s idx_t :
  consistent E Ebf N M self h bf idx_s idx_t ->
  aggregate self h bf idx_s idx_t =
  Ok (mk2 N E (aggregate_entry self h bf idx_s idx_t)).
Proof.
  intros S. unfold aggregate.
  destruct (h_shape S) as [Hn Hc]. destruct (bf_shape S) as [Bn Bc].
  destruct (pre_square S) as [Pin Pout].
  rewrite call_layer_entries by congruence. steps.
  rewrite call_layer_entries by (rewrite (dense_in S); exact Bc). steps.
  unfold index_select2. rewrite nrows_mk2, cols2_mk2, Hn.
  rewrite (check_indices_ok _ _ (idx_s_range S)). steps.
  rewrite bop2_same
    by (rewrite ?nrows_mk2, ?cols2_mk2, ?(idx_s_length S), ?(dense_out S);
        congruence).
  steps. unfold scatter_sum.
  rewrite !nrows_mk2, !cols2_mk2, (idx_s_length S), (idx_t_length S).
  rewrite Nat.eqb_refl. steps.
  rewrite (check_indices_ok _ _ (idx_t_range S)). steps.
  rewrite ?(idx_s_length S), ?(dense_out S), ?Pout, ?Bn, ?Hn.
  f_equal. apply mk2_ext. intros t c Ht Hcc.
  unfold aggregate_entry. f_equal. apply map_ext_in. intros e He.
  apply hits_lt in He. rewrite (idx_t_length S) in He.
  assert (Hix : ix idx_s e < N)
    by (apply ix_lt; [exact (idx_s_range S) | now rewrite (idx_s_length S)]).
  rewrite !get2_mk2 by assumption.
  reflexivity.
Qed.

(** X14.  On inputs of consistent shapes the aggregate is computed, has
    shape [(numAtoms, emb_size_atom)], and its entry for atom [t] and
    feature [c] is the sum, from zero and in edge order, of the messages of
    the edges whose target is [t]; the message of an edge is the
    pre-residual feature of its source atom times its projected
    radial-basis feature. *)
Theorem hadamard_aggregate_closed_form
    (self : instance F) E Ebf N M h bf idx_s idx_t :
  consistent E Ebf N M self h bf idx_s idx_t ->
  exists x2,
    aggregate self h bf idx_s idx_t = Ok x2 /\
    shape2 x2 N E /\
    forall t c, t < N -> c < E ->
      get2 x2 t c =
      fsum (map (fun e =>
                   fmul (nth c (row_fn (pre_residual self)
                                  (row h (ix idx_s e))) fzero)
                        (nth c (row_fn (dense_layer (dense_bf self))
                                  (row bf e)) fzero))
                (hits idx_t t)).
Proof.
  intros S. eexists. split; [apply (aggregate_entries S)|].
  split; [split; [apply nrows_mk2 | reflexivity]|].
  intros t c Ht Hc. now rewrite get2_mk2.
Qed.

(** X15.  On inputs of consistent shapes, with a scale factor that returns
    a tensor of the shape of its arguments and an update network of square
    layers, [forward] returns, and what it returns has shape
    [(nAtoms, emb_size_atom)]. *)
Theorem hadamard_forward_shape
    (self : instance F) E Ebf N M h bf idx_s idx_t :
  consistent E Ebf N M self h bf idx_s idx_t ->
  (forall a b, shape2 a N E -> shape2 b N E ->
     exists t, scale_sum self a b = Ok t /\ shape2 t N E) ->
  Forall (EwaldBlock.square_layer E) (layers self) ->
  exists out, forward self h bf idx_s idx_t = Ok out /\ shape2 out N E.
Proof.
  intros S Hsc Hls. unfold forward. rewrite (aggregate_entries S). steps.
  destruct (Hsc h (mk2 N E (aggregate_entry self h bf idx_s idx_t)))
    as (t & -> & Htn & Htc).
  - exact (h_shape S).
  - split; [apply nrows_mk2 | reflexivity].
  - steps. destruct (call_layers_square t Hls Htc) as (out & -> & Hn & Hc).
    exists out. split; [reflexivity|]. split; congruence.
Qed.


(** X17.  Without edges the aggregate is computed and is all zero, one row
    per atom, and [forward] returns the update network applied to what the
    scale factor makes of [h] and this zero tensor. *)
Theorem hadamard_forward_no_edges (self : instance F) E Ebf N h bf :
  consistent E Ebf N 0 self h bf [] [] ->
  aggregate self h bf [] [] = Ok (mk2 N E (fun _ _ => fzero)) /\
  forward self h bf [] [] =
    (let* x := scale_sum self h (mk2 N E (fun _ _ => fzero)) in
     call_layers (layers self) x).
Proof.
  intros S.
  assert (Ea : aggregate self h bf [] [] = Ok (mk2 N E (fun _ _ => fzero))).
  { rewrite (aggregate_entries S). reflexivity. }
  split; [exact Ea|]. unfold forward. now rewrite Ea.
Qed.

Lemma fsum_snoc (l : list F) (a : F) : fsum (l ++ [a]) = fadd (fsum l) a.
Proof. unfold fsum. now rewrite fold_left_app. Qed.

Lemma ix_app_l (idx : list Z) z e : e < length idx -> ix (idx ++ [z]) e = ix idx e.
Proof. intros He. unfold ix. now rewrite app_nth1. Qed.

Lemma ix_app_last (idx : list Z) z : ix (idx ++ [z]) (length idx) = Z.to_nat z.
Proof. unfold ix. now rewrite nth_middle. Qed.

Lemma hits_snoc (idx : list Z) z t :
  hits (idx ++ [z]) t =
  hits idx t ++ (if Z.to_nat z =? t then [length idx] else []).
Proof.
  unfold hits. rewrite length_app. simpl length.
  rewrite seq_app, filter_app. simpl seq. f_equal.
  - apply filter_ext_in. intros e He. apply in_seq in He.
    now rewrite ix_app_l by lia.
  - simpl. now rewrite ix_app_last.
Qed.

Lemma consistent_add_edge (self : instance F) E Ebf N M h bf idx_s idx_t r s t :
  consistent E Ebf N M self h bf idx_s idx_t ->
  in_range N s = true -> in_range N t = true ->
  consistent E Ebf N (M + 1) self h (add_edge_bf bf r)
             (idx_s ++ [s]) (idx_t ++ [t]).
Proof.
  intros S Hs Ht. destruct (bf_shape S) as [Bn Bc]. constructor.
  - exact (h_shape S).
  - split; [unfold add_edge_bf; rewrite nrows_cat2, Bn; reflexivity | exact Bc].
  - exact (pre_square S).
  - exact (dense_in S).
  - exact (dense_out S).
  - rewrite length_app, (idx_s_length S). reflexivity.
  - rewrite length_app, (idx_t_length S). reflexivity.
  - rewrite forallb_app, (idx_s_range S). simpl. now rewrite Hs.
  - rewrite forallb_app, (idx_t_range S). simpl. now rewrite Ht.
Qed.


End HadamardMore.

(** ** Reordering the atoms of [EwaldBlock.forward] *)

Section AtomOrderFacts.

Context {F : Type} `{Scalar F}.

Import EwaldBlock.

Variable L : ExactAdd F.
Variable perm : list nat.
Variable N : nat.
Hypothesis Hperm : Permutation perm (seq 0 N).

Local Notation "'p' i" := (nth i perm 0) (at level 9, i at level 9).

Lemma call_layer_nrows (l : Layer F) t t' :
  call_layer l t = Ok t' -> nrows t' = nrows t.
Proof.
  unfold call_layer. destruct (_ =? _); [|discriminate].
  intros E. inversion E. apply nrows_mk2.
Qed.

Lemma call_layers_permute (ls : list (Layer F)) t :
  nrows t = N ->
  call_layers ls (permute_rows perm t) =
  let* r := call_layers ls t in Ok (permute_rows perm r).
Proof.
  unfold call_layers. revert t. induction ls as [|l ls IH]; intros t Hn.
  - reflexivity.
  - simpl foldM. rewrite (call_layer_permute Hperm _ _ Hn).
    destruct (call_layer l t) as [t1|] eqn:E1; [|reflexivity]. steps.
    apply IH. now rewrite (call_layer_nrows _ _ E1).
Qed.

Lemma sum_over_hits (bs : list Z) (term : nat -> F) b :
  length bs = N ->
  fsum (map (fun i => term (p i)) (hits (permute_idx perm bs) b)) =
  fsum (map term (hits bs b)).
Proof.
  intros Hl. unfold hits. rewrite (length_permute_idx N Hperm), Hl.
  rewrite (filter_ext_in _ (fun i => ix bs (p i) =? b))
    by (intros i Hi; apply in_seq in Hi;
        rewrite (ix_permute Hperm) by lia; reflexivity).
  rewrite <- (map_map (fun i => p i) term).
  rewrite <- (filter_map_swap (fun e => ix bs e =? b) (fun i => p i)).
  rewrite <- (perm_length N Hperm) at 1. rewrite nth_seq_id.
  apply (fsum_perm L), Permutation_map, filter_perm, Hperm.
Qed.

Section Input.

Variables (self : instance F) (E K B : nat).
Variables (h x : tensor2 F) (k : tensor3 F) (bs : list Z).
Hypothesis S : consistent E N K B self h x k bs.

Local Notation "'h''" := (permute_rows perm h).
Local Notation "'x''" := (permute_rows perm x).
Local Notation "'bs''" := (permute_idx perm bs).

Lemma consistent_permute : consistent E N K B self h' x' k bs'.
Proof.
  constructor.
  - apply (nrows_permute N Hperm).
  - exact (h_cols S).
  - apply (nrows_permute N Hperm).
  - exact (x_cols S).
  - exact (k_dim0 S).
  - exact (k_dim1 S).
  - exact (k_dim2 S).
  - apply (length_permute_idx N Hperm).
  - rewrite (forallb_perm _ (permute_idx_perm Hperm bs (seg_length S))).
    exact (seg_range S).
  - exact (filter_pbc S).
  - exact (filter_rbf S).
  - exact (scale_shape S).
Qed.

Lemma hres_permute i c :
  i < N -> get2 (hres_tensor self h') i c = get2 (hres_tensor self h) (p i) c.
Proof.
  intros Hi. unfold hres_tensor, get2.
  rewrite (nrows_permute N Hperm), (h_rows S).
  rewrite !row_mk2 by (assumption || apply (perm_nth_lt Hperm Hi)).
  rewrite (row_permute Hperm) by assumption. reflexivity.
Qed.

Lemma dot_permute i j :
  i < N -> j < K ->
  get2 (dot_tensor x' k bs') i j = get2 (dot_tensor x k bs) (p i) j.
Proof.
  intros Hi Hj. unfold dot_tensor.
  rewrite (length_permute_idx N Hperm), (seg_length S), (k_dim1 S).
  rewrite !get2_mk2 by (assumption || apply (perm_nth_lt Hperm Hi)).
  unfold dot_entry. f_equal. apply tab_ext. intros c _.
  rewrite (ix_permute Hperm) by assumption.
  now rewrite (get2_permute Hperm) by assumption.
Qed.

Lemma damping_permute i j :
  i < N -> j < K ->
  damping_at (damping_entries self x' k) i j =
  damping_at (damping_entries self x k) (p i) j.
Proof.
  intros Hi Hj. unfold damping_entries.
  destruct (use_pbc self); [reflexivity|].
  destruct (delta_k self) as [dk|]; [|reflexivity].
  simpl damping_at. rewrite (nrows_permute N Hperm), (x_rows S), (k_dim1 S).
  rewrite !get2_mk2 by (assumption || apply (perm_nth_lt Hperm Hi)).
  unfold sinc_entry. now rewrite !(get2_permute Hperm) by assumption.
Qed.

Lemma weight_permute trig i j :
  i < N -> j < K ->
  weight (damping_entries self x' k) trig (dot_tensor x' k bs') i j =
  weight (damping_entries self x k) trig (dot_tensor x k bs) (p i) j.
Proof.
  intros Hi Hj. unfold weight.
  now rewrite damping_permute, dot_permute.
Qed.

Lemma sf_permute trig b j c :
  j < K ->
  sf_entry trig (hres_tensor self h') bs' (dot_tensor x' k bs')
           (damping_entries self x' k) b j c =
  sf_entry trig (hres_tensor self h) bs (dot_tensor x k bs)
           (damping_entries self x k) b j c.
Proof.
  intros Hj. unfold sf_entry.
  rewrite <- (sum_over_hits bs
                (fun i => fmul (get2 (hres_tensor self h) i c)
                               (weight (damping_entries self x k) trig
                                       (dot_tensor x k bs) i j)) b
                (seg_length S)).
  f_equal. apply map_ext_in. intros i Hi. apply hits_lt in Hi.
  rewrite (length_permute_idx N Hperm) in Hi.
  now rewrite hres_permute, weight_permute.
Qed.

Lemma raw_update_permute g :
  out_features (pre_residual self) = E ->
  raw_update self g h' x' k B bs' =
  permute_rows perm (raw_update self g h x k B bs).
Proof.
  intros Pout. unfold raw_update. cbv zeta.
  rewrite (length_permute_idx N Hperm), (seg_length S), (k_dim1 S), Pout.
  rewrite (mk2_permute N Hperm). apply mk2_ext. intros i c Hi Hc.
  unfold update_entry. do 2 f_equal. apply tab_ext. intros j Hj.
  rewrite (ix_permute Hperm) by assumption.
  assert (Hix : ix bs (p i) < B).
  { apply ix_lt; [exact (seg_range S)|].
    rewrite (seg_length S). apply (perm_nth_lt Hperm Hi). }
  rewrite !get3_mk3 by assumption.
  now rewrite !sf_permute, !weight_permute.
Qed.

End Input.

End AtomOrderFacts.

Section AtomOrderTheorem.

Context {F : Type} `{Scalar F}.

Import EwaldBlock.

(** X19.  In exact arithmetic, reordering the atoms of a consistent input
    (the rows of [h] and [x] and the entries of [batch_seg], by one
    permutation) reorders the rows of the update in the same way and
    changes nothing else in them.  The scale factor, when there is one, is
    taken to follow a reordering of the atoms. *)
Theorem ewald_forward_atom_order
    (self : instance F) E P nh N K B h x k bs (perm : list nat) :
  ExactAdd F ->
  constructed E P nh self -> consistent E N K B self h x k bs ->
  Permutation perm (seq 0 N) ->
  (forall sc, ewald_scale_sum self = Some sc -> follows_order sc) ->
  exists r r',
    snd (forward h x k B bs None None self) = Ok r /\
    snd (forward (permute_rows perm h) (permute_rows perm x) k B
           (permute_idx perm bs) None None self) = Ok r' /\
    h_update_of r' = permute_rows perm (h_update_of r).
Proof.
  intros L C S Hperm Hfo.
  destruct (filter_value_entries C S) as [g Hg].
  destruct (pre_square C) as [_ Pout].
  rewrite (forward_consistent C S (Hg B)).
  rewrite (forward_consistent C (consistent_permute Hperm S) (Hg B)).
  rewrite (raw_update_permute L Hperm S g Pout).
  set (raw := raw_update self g h x k B bs).
  assert (Hrn : nrows raw = N)
    by (unfold raw, raw_update; rewrite nrows_mk2; exact (seg_length S)).
  assert (Hrc : cols2 raw = E) by exact Pout.
  assert (Hsc : exists t,
             apply_scale (ewald_scale_sum self) raw h = Ok t /\
             apply_scale (ewald_scale_sum self) (permute_rows perm raw)
               (permute_rows perm h) = Ok (permute_rows perm t) /\
             shape2 t N E).
  { unfold apply_scale. destruct (ewald_scale_sum self) as [sc|] eqn:Esc.
    - destruct (scale_shape S Esc raw h) as (t & Et & Hn & Hc).
      exists t. split; [exact Et|]. split; [|split; congruence].
      apply (Hfo sc eq_refl); [|now rewrite Hrn|exact Et].
      now rewrite Hrn, (h_rows S).
    - exists raw. repeat split; assumption. }
  destruct Hsc as (t & -> & -> & Htn & Htc). steps.
  rewrite (call_layers_permute Hperm _ _ Htn).
  destruct (call_layers_square t (mlp_square C) Htc) as (u & -> & _). steps.
  do 2 eexists. split; [reflexivity|]. split; [reflexivity|].
  destruct (return_k_params self); reflexivity.
Qed.

End AtomOrderTheorem.

(** ** The further properties on the sample blocks *)

Section SamplesMore.

Import EwaldBlock.

Lemma zero_dense_extents : EwaldBlockInit.dense_extents zero_dense.
Proof.
  intros a b. split; [reflexivity|]. split; [reflexivity|].
  split; [apply nrows_mk2 | reflexivity].
Qed.

Lemma identity_layer_extents : EwaldBlockInit.residual_extents identity_layer.
Proof. intros n. split; reflexivity. Qed.

Lemma tripling_follows_order : follows_order tripling.
Proof.
  intros perm value ref t _ Hperm Et. unfold tripling in *.
  inversion Et. f_equal. unfold map2.
  rewrite (mk2_permute (nrows value) Hperm).
  rewrite (nrows_permute (nrows value) Hperm).
  change (cols2 (permute_rows perm value)) with (cols2 value).
  apply mk2_ext. intros i j Hi _. now rewrite (get2_permute Hperm).
Qed.

Lemma sample_no_modes_constructed : constructed 2 1 0 sample_pbc_no_modes.
Proof.
  constructor; try reflexivity.
  - split; reflexivity.
  - repeat constructor.
Qed.

Lemma sample_no_modes_consistent :
  consistent 2 2 0 1 sample_pbc_no_modes sample_h sample_x sample_k_no_modes
    (segment 0 2).
Proof.
  constructor; try reflexivity.
  - intros _. split; reflexivity.
  - intros E. discriminate E.
  - intros sc E. discriminate E.
Qed.

Lemma sample_hadamard_consistent :
  HadamardInputs.consistent 2 2 2 1 sample_hadamard sample_h sample_bf
    sample_idx_s sample_idx_t.
Proof. constructor; try reflexivity; split; reflexivity. Qed.

Lemma sample_hadamard_no_edges :
  HadamardInputs.consistent 2 2 2 0 sample_hadamard sample_h (T2 2 []) [] [].
Proof. constructor; try reflexivity; split; reflexivity. Qed.

End SamplesMore.

Lemma ewald_init_constructed_witness :
  exists self,
    EwaldBlockInit.init zero_dense identity_layer named_scale
      sample_down 2 1 0 (Some "ewald"%string) true None None true = Ok self /\
    EwaldBlock.constructed 2 1 0 self /\
    EwaldBlock.down self = sample_down /\
    EwaldBlock.use_pbc self = true /\
    EwaldBlock.return_k_params self = true /\
    EwaldBlock.delta_k self = None /\
    EwaldBlock.k_rbf_values self = None /\
    EwaldBlock.kfilter self = None /\
    EwaldBlock.ewald_scale_sum self = Some (named_scale "ewald_sum"%string).
Proof.
  exact (@ewald_init_constructed Z zero_dense identity_layer
           named_scale sample_down 2 1 0 (Some "ewald"%string) true None None true
           zero_dense_extents identity_layer_extents).
Defined.

Lemma ewald_forward_bad_segment_early_witness :
  EwaldBlock.forward sample_h sample_x sample_k 1 [0; 5]%Z None None sample_pbc =
  (sample_pbc, Raise IndexError).
Proof.
  apply ewald_forward_bad_segment_early.
  - reflexivity.
  - simpl. lia.
  - simpl. lia.
  - vm_compute. reflexivity.
Defined.

Lemma ewald_forward_bad_segment_late_witness :
  EwaldBlock.forward sample_h sample_x sample_k 1 [0; 1]%Z
    (Some sample_dot) (Some (EwaldBlock.DampScalar 100%Z)) sample_pbc =
  (EwaldBlock.set_kfilter sample_kfilter sample_pbc, Raise IndexError).
Proof.
  apply ewald_forward_bad_segment_late with (m := 2).
  - reflexivity.
  - split; reflexivity.
  - exact I.
  - reflexivity.
  - vm_compute. reflexivity.
  - vm_compute. reflexivity.
Defined.

Lemma ewald_forward_missing_delta_k_witness :
  EwaldBlock.forward sample_h sample_x sample_k 1 (segment 0 2) None None
    sample_no_delta_k = (sample_no_delta_k, Raise TypeError).
Proof.
  apply ewald_forward_missing_delta_k with (d := sample_dot).
  - reflexivity.
  - reflexivity.
  - reflexivity.
  - vm_compute. reflexivity.
Defined.

Lemma ewald_forward_missing_rbf_witness :
  EwaldBlock.forward sample_h sample_x sample_k 1 (segment 0 2) None None
    sample_no_rbf = (sample_no_rbf, Raise AttributeError).
Proof.
  apply ewald_forward_missing_rbf
    with (d := sample_dot)
         (s := EwaldBlock.DampTensor (T2 2 [[100; 100]; [53; 53]]%Z)).
  - reflexivity.
  - reflexivity.
  - reflexivity.
  - vm_compute. reflexivity.
  - vm_compute. reflexivity.
Defined.

Lemma ewald_shared_downprojection_filter_witness :
  EwaldBlock.kfilter (EwaldBlock.set_kfilter sample_kfilter sample_pbc) =
  EwaldBlock.kfilter (EwaldBlock.set_kfilter sample_kfilter sample_pbc_twin) /\
  EwaldBlock.kfilter (EwaldBlock.set_kfilter sample_kfilter sample_pbc) <> None.
Proof.
  apply ewald_shared_downprojection_filter
    with (a := sample_pbc) (b := sample_pbc_twin)
         (h := sample_h) (x := sample_x) (k := sample_k) (bs := segment 0 2)
         (dot := @None (tensor2 Z)) (sd := @None (EwaldBlock.damping Z))
         (h' := sample_h) (x' := sample_x) (k' := sample_k)
         (bs' := segment 0 2)
         (dot' := @None (tensor2 Z)) (sd' := @None (EwaldBlock.damping Z))
         (nb := 1)
         (ra := EwaldBlock.RetTriple sample_update sample_dot
                  (EwaldBlock.DampScalar 100%Z))
         (rb := EwaldBlock.RetUpdate (T2 2 [[8; 27]; [10; 30]]%Z)).
  - reflexivity.
  - reflexivity.
  - reflexivity.
  - reflexivity.
  - vm_compute. reflexivity.
  - vm_compute. reflexivity.
Defined.

Lemma aperiodic_filter_recomputed_witness :
  exists rbf d u kf,
    EwaldBlock.k_rbf_values sample_aperiodic = Some rbf /\
    call_layer (dense_layer (EwaldBlock.down sample_aperiodic)) rbf = Ok d /\
    call_layer (dense_layer (EwaldBlock.up sample_aperiodic)) d = Ok u /\
    EwaldBlock.kfilter (EwaldBlock.set_kfilter sample_kfilter sample_aperiodic) =
      Some kf /\
    shape3 kf 1 (nrows u) (cols2 u) /\
    forall b j c, b < 1 -> j < nrows u -> c < cols2 u ->
      get3 kf b j c = get2 u j c.
Proof.
  apply aperiodic_filter_recomputed
    with (h := sample_h) (x := sample_x) (k := sample_k) (bs := segment 0 2)
         (dot := @None (tensor2 Z)) (sd := @None (EwaldBlock.damping Z))
         (ret := EwaldBlock.RetTriple (T2 2 [[4; 18]; [2; 10]]%Z) sample_dot
                   (EwaldBlock.DampTensor (T2 2 [[100; 100]; [53; 53]]%Z))).
  - reflexivity.
  - vm_compute. reflexivity.
Defined.

Lemma ewald_forward_closed_form_witness :
  let hres := EwaldBlock.hres_tensor sample_pbc sample_h in
  let d := EwaldBlock.dot_tensor sample_x sample_k (segment 0 2) in
  let sd := EwaldBlock.damping_entries sample_pbc sample_x sample_k in
  exists g raw,
    EwaldBlock.filter_value sample_pbc 1 = Ok (mk3 1 2 2 (fun _ => g)) /\
    snd (EwaldBlock.forward sample_h sample_x sample_k 1 (segment 0 2)
           None None sample_pbc) =
      (let* scaled := EwaldBlock.apply_scale
                        (EwaldBlock.ewald_scale_sum sample_pbc) raw sample_h in
       let* h_update := call_layers (EwaldBlock.ewald_layers sample_pbc) scaled in
       Ok (if EwaldBlock.return_k_params sample_pbc
           then EwaldBlock.RetTriple h_update d sd
           else EwaldBlock.RetUpdate h_update)) /\
    shape2 raw 2 2 /\
    forall i c, i < 2 -> c < 2 ->
      get2 raw i c =
      fmul c_hundredth
        (fsum (tab 2 (fun j =>
           fadd (fmul (fmul (EwaldBlock.sf_entry fcos hres (segment 0 2) d sd
                               (ix (segment 0 2) i) j c) (g j c))
                      (EwaldBlock.weight sd fcos d i j))
                (fmul (fmul (EwaldBlock.sf_entry fsin hres (segment 0 2) d sd
                               (ix (segment 0 2) i) j c) (g j c))
                      (EwaldBlock.weight sd fsin d i j))))).
Proof.
  apply ewald_forward_closed_form with (P := 1) (nh := 0).
  - exact sample_pbc_constructed.
  - exact sample_pbc_consistent.
Defined.

Lemma ewald_forward_no_modes_witness :
  snd (EwaldBlock.forward sample_h sample_x sample_k_no_modes 1 (segment 0 2)
         None None sample_pbc_no_modes) =
    (let* scaled := EwaldBlock.apply_scale
                      (EwaldBlock.ewald_scale_sum sample_pbc_no_modes)
                      (mk2 2 2 (fun _ _ => fmul c_hundredth fzero)) sample_h in
     let* h_update :=
       call_layers (EwaldBlock.ewald_layers sample_pbc_no_modes) scaled in
     Ok (if EwaldBlock.return_k_params sample_pbc_no_modes
         then EwaldBlock.RetTriple h_update
                (EwaldBlock.dot_tensor sample_x sample_k_no_modes (segment 0 2))
                (EwaldBlock.damping_entries sample_pbc_no_modes sample_x
                   sample_k_no_modes)
         else EwaldBlock.RetUpdate h_update)).
Proof.
  apply ewald_forward_no_modes with (P := 1) (nh := 0).
  - exact sample_no_modes_constructed.
  - exact sample_no_modes_consistent.
Defined.

Lemma ewald_forward_dot_products_witness :
  shape2 sample_dot 2 2 /\
  forall i j, i < 2 -> j < 2 ->
    get2 sample_dot i j =
    fadd (fadd (fadd fzero
                  (fmul (get3 sample_k (ix (segment 0 2) i) j 0)
                        (get2 sample_x i 0)))
               (fmul (get3 sample_k (ix (segment 0 2) i) j 1)
                     (get2 sample_x i 1)))
         (fmul (get3 sample_k (ix (segment 0 2) i) j 2) (get2 sample_x i 2)).
Proof.
  apply ewald_forward_dot_products
    with (self := sample_pbc)
         (self1 := EwaldBlock.set_kfilter sample_kfilter sample_pbc)
         (E := 2) (B := 1) (h := sample_h)
         (sd := @None (EwaldBlock.damping Z))
         (u := sample_update) (s := EwaldBlock.DampScalar 100%Z).
  - exact sample_pbc_consistent.
  - vm_compute. reflexivity.
Defined.

Lemma ewald_forward_no_cross_talk_witness :
  exists r r',
    snd (EwaldBlock.forward (cat2 sample_h sample_h') (cat2 sample_x sample_x')
           (cat3 sample_k sample_k') 2
           (segment 0 2 ++ segment 1 1) None None sample_pbc) = Ok r /\
    snd (EwaldBlock.forward (cat2 sample_h sample_h) (cat2 sample_x sample_x)
           (cat3 sample_k sample_k) 2
           (segment 0 2 ++ segment 1 2) None None sample_pbc) = Ok r' /\
    forall i, i < 2 ->
      row (EwaldBlock.h_update_of r) i = row (EwaldBlock.h_update_of r') i.
Proof.
  apply (ewald_forward_no_cross_talk (call := call_layer)
           (P := 1) (nh := 0) (E := 2) (K := 2)).
  - exact call_layer_keeps_extents.
  - exact sample_pbc_constructed.
  - exact sample_pbc_consistent.
  - exact sample_pbc_consistent'.
  - exact sample_pbc_consistent.
  - apply Forall_forall. intros l _. apply call_layer_batch_independent.
  - intros sc E. injection E as <-. exact tripling_atomwise.
Defined.

Lemma hadamard_aggregate_closed_form_witness :
  exists x2,
    HadamardBlock.aggregate sample_hadamard sample_h sample_bf
      sample_idx_s sample_idx_t = Ok x2 /\
    shape2 x2 2 2 /\
    forall t c, t < 2 -> c < 2 ->
      get2 x2 t c =
      fsum (map (fun e =>
                   fmul (nth c (row_fn (HadamardBlock.pre_residual sample_hadamard)
                                  (row sample_h (ix sample_idx_s e))) fzero)
                        (nth c (row_fn (dense_layer
                                          (HadamardBlock.dense_bf sample_hadamard))
                                  (row sample_bf e)) fzero))
                (hits sample_idx_t t)).
Proof.
  apply hadamard_aggregate_closed_form with (Ebf := 2) (M := 1).
  exact sample_hadamard_consistent.
Defined.

Lemma hadamard_forward_shape_witness :
  exists out,
    HadamardBlock.forward sample_hadamard sample_h sample_bf
      sample_idx_s sample_idx_t = Ok out /\
    shape2 out 2 2.
Proof.
  apply hadamard_forward_shape with (Ebf := 2) (M := 1).
  - exact sample_hadamard_consistent.
  - intros a b _ [Hbn Hbc]. eexists. split; [reflexivity|].
    split; [unfold smul2, map2; rewrite nrows_mk2; exact Hbn | exact Hbc].
  - repeat constructor.
Defined.


Lemma hadamard_forward_no_edges_witness :
  HadamardBlock.aggregate sample_hadamard sample_h (T2 2 []) [] [] =
    Ok (mk2 2 2 (fun _ _ => fzero)) /\
  HadamardBlock.forward sample_hadamard sample_h (T2 2 []) [] [] =
    (let* x := HadamardBlock.scale_sum sample_hadamard sample_h
                 (mk2 2 2 (fun _ _ => fzero)) in
     call_layers (HadamardBlock.layers sample_hadamard) x).
Proof.
  apply hadamard_forward_no_edges with (Ebf := 2).
  exact sample_hadamard_no_edges.
Defined.


Lemma ewald_forward_atom_order_witness :
  exists r r',
    snd (EwaldBlock.forward sample_h sample_x sample_k 1 (segment 0 2)
           None None sample_pbc) = Ok r /\
    snd (EwaldBlock.forward (permute_rows sample_perm sample_h)
           (permute_rows sample_perm sample_x) sample_k 1
           (permute_idx sample_perm (segment 0 2)) None None sample_pbc) = Ok r' /\
    EwaldBlock.h_update_of r' =
      permute_rows sample_perm (EwaldBlock.h_update_of r).
Proof.
  apply ewald_forward_atom_order with (E := 2) (P := 1) (nh := 0) (N := 2) (K := 2).
  - exact FixedPoint_exact_add.
  - exact sample_pbc_constructed.
  - exact sample_pbc_consistent.
  - apply perm_swap.
  - intros sc E. injection E as <-. exact tripling_follows_order.
Defined.
